(** * Multi-channel cross-correlation and multi-head attention reshaping

    A shallow embedding of the functions defined by the notebooks
    (`corr2d_multi_in`, `corr2d_multi_in_out`, `corr2d_multi_in_out_1x1`,
    `transpose_qkv`, `transpose_output`, `MultiHeadAttention.__call__`)
    together with executable models of the library primitives they call.

    Tensors are the host library's n-dimensional arrays: a shape and the
    elements in row-major order.  Scalars are an abstract type with a zero,
    an addition and a multiplication; arithmetic is exact (rounding of the
    32-bit floats of the frameworks is not modelled). *)

From Stdlib Require Import List Arith Lia Bool ZArith.
From Stdlib Require String.
Import ListNotations.

(** ** Scalars *)

Class Scalar (R : Type) := {
  zero : R;
  add : R -> R -> R;
  mul : R -> R -> R
}.

#[export] Instance Z_Scalar : Scalar Z := {| zero := 0%Z; add := Z.add; mul := Z.mul |}.

(** Exact arithmetic: the laws of addition and multiplication that the
    comparison of two ways of summing the same products relies on. *)
Class ExactArith (R : Type) {SR : Scalar R} : Prop := {
  add_0_l : forall x : R, add zero x = x;
  add_0_r : forall x : R, add x zero = x;
  add_assoc : forall x y z : R, add x (add y z) = add (add x y) z;
  mul_comm : forall x y : R, mul x y = mul y x
}.

#[export] Instance Z_ExactArith : ExactArith Z.
Proof. split; simpl; intros; lia. Qed.

(** ** Exceptions and the error monad *)

(** The primitive that raised an exception.  Python's own failures
    (tuple unpacking, indexing a shape, iterating a 0-d tensor) are listed
    next to the failures of framework operations. *)
Inductive primitive :=
| PyUnpack      (* ValueError: `a, b = shape` with the wrong arity *)
| PyIndex       (* IndexError: `shape[i]` out of range *)
| PyIter        (* TypeError: iteration over a 0-d tensor *)
| TfZeros       (* tf.zeros with a negative dimension *)
| TfMul         (* operands of `*` that do not broadcast *)
| TfPack        (* packing a list of tensors of different shapes *)
| TfReduceSum   (* tf.reduce_sum along an axis that the tensor does not have *)
| TfReshape     (* tf.reshape to a shape of another size *)
| TfMatmul      (* tf.matmul with mismatching inner dimensions *)
| JnpReshape    (* jnp reshape: size mismatch or no value for -1 *)
| JnpTranspose  (* jnp.transpose with a permutation of the wrong length *)
| FlaxDense     (* nn.Dense on an input whose last axis does not match, or
                   without input features *)
| D2lAttention. (* attention pooling on operands that do not match *)

(** An exception is either raised by a primitive of the language or of a
    library, or it is an error value defined by the repository itself.  No
    function of the repository constructs a [Custom] one. *)
Inductive exn :=
| Raised (p : primitive)
| Custom (msg : String.string).

Inductive result (A : Type) :=
| Ok (a : A)
| Err (e : exn).

Arguments Ok {A} a.
Arguments Err {A} e.

Definition bind {A B : Type} (c : result A) (k : A -> result B) : result B :=
  match c with
  | Ok a => k a
  | Err e => Err e
  end.

Notation "x <- c ;; k" := (bind c (fun x => k))
  (at level 61, c at next level, right associativity).

(** [r] is not an error value defined by the repository. *)
Definition no_custom {A : Type} (r : result A) : Prop :=
  forall msg, r <> Err (Custom msg).

Fixpoint mapM {A B : Type} (f : A -> result B) (l : list A) : result (list B) :=
  match l with
  | [] => Ok []
  | a :: l' => b <- f a ;; bs <- mapM f l' ;; Ok (b :: bs)
  end.

(** ** Shapes and index arithmetic *)

Definition tabulate {A : Type} (n : nat) (f : nat -> A) : list A :=
  map f (seq 0 n).

(** Number of elements of a tensor of shape [sh]. *)
Definition numel (sh : list nat) : nat := fold_right Nat.mul 1 sh.

Definition shape_eqb (s1 s2 : list nat) : bool :=
  if list_eq_dec Nat.eq_dec s1 s2 then true else false.

(** Multi-index of the flat row-major position [p] in a tensor of shape [sh]. *)
Fixpoint unravel (sh : list nat) (p : nat) : list nat :=
  match sh with
  | [] => []
  | d :: sh' => (p / numel sh') mod d :: unravel sh' p
  end.

(** Broadcasting of two dimensions: equal, or one of them is 1. *)
Definition bdim (d1 d2 : nat) : option nat :=
  if d1 =? d2 then Some d1
  else if d1 =? 1 then Some d2
  else if d2 =? 1 then Some d1
  else None.

Fixpoint bshape (s1 s2 : list nat) : option (list nat) :=
  match s1, s2 with
  | [], [] => Some []
  | d1 :: t1, d2 :: t2 =>
      match bdim d1 d2, bshape t1 t2 with
      | Some d, Some t => Some (d :: t)
      | _, _ => None
      end
  | _, _ => None
  end.

(** Shapes are aligned on their last axes: the shorter one gets leading 1s. *)
Definition pad_shape (r : nat) (sh : list nat) : list nat :=
  repeat 1 (r - length sh) ++ sh.

(** Position, in an operand of (padded) shape [sh], of the element that
    broadcasting places at multi-index [idx] of the result. *)
Fixpoint bindex (sh idx : list nat) : nat :=
  match sh, idx with
  | d :: sh', i :: idx' => (if d =? 1 then 0 else i) * numel sh' + bindex sh' idx'
  | _, _ => 0
  end.

(** The position [p] of a tensor of shape [(_, s2, s1, s3)] is the
    multi-index [(a, i, j, l)]; [swap_index] is the position of
    [(a, j, i, l)] in a tensor of shape [(_, s1, s2, s3)]. *)
Definition swap_index (s1 s2 s3 p : nat) : nat :=
  let l := p mod s3 in
  let j := (p / s3) mod s1 in
  let i := (p / (s3 * s1)) mod s2 in
  let a := p / (s3 * s1 * s2) in
  ((a * s1 + j) * s2 + i) * s3 + l.

(** ** Tensors and the library primitives *)

Section Tensors.

Context {R : Type} {SR : Scalar R}.

Record tensor := mkT { shape : list nat; data : list R }.

(** [t] is a tensor of shape [sh]. *)
Definition has_shape (t : tensor) (sh : list nat) : Prop :=
  shape t = sh /\ length (data t) = numel sh.

Definition get (t : tensor) (p : nat) : R := nth p (data t) zero.

Definition sum (l : list R) : R := fold_right add zero l.

(** *** Python iteration *)

(** [X[i]] for a tensor whose trailing shape is [sh]. *)
Definition item (X : tensor) (sh : list nat) (i : nat) : tensor :=
  mkT sh (tabulate (numel sh) (fun p => get X (i * numel sh + p))).

(** `iter(X)`: the slices along axis 0; a 0-d tensor is not iterable. *)
Definition iter (X : tensor) : result (list tensor) :=
  match shape X with
  | [] => Err (Raised PyIter)
  | n :: sh => Ok (tabulate n (item X sh))
  end.

(** `zip(X, K)`: pairs of slices, as many as the shorter argument has. *)
Definition zip (X K : tensor) : result (list (tensor * tensor)) :=
  xs <- iter X ;;
  ks <- iter K ;;
  Ok (combine xs ks).

(** *** TensorFlow primitives *)

(** Conversion of a Python list of tensors to one tensor, which is also
    `tf.stack(ts, 0)`: the empty list becomes the empty vector of shape (0,);
    the tensors of a non-empty list must have one shape. *)
Definition pack (ts : list tensor) : result tensor :=
  match ts with
  | [] => Ok (mkT [0] [])
  | t :: _ =>
      if forallb (fun u => shape_eqb (shape u) (shape t)) ts
      then Ok (mkT (length ts :: shape t) (concat (map data ts)))
      else Err (Raised TfPack)
  end.

Definition tf_stack (ts : list tensor) : result tensor := pack ts.

(** `tf.reduce_sum(T, axis=0)`: a 0-d tensor has no axis 0. *)
Definition reduce_sum0 (T : tensor) : result tensor :=
  match shape T with
  | [] => Err (Raised TfReduceSum)
  | n :: sh =>
      Ok (mkT sh (tabulate (numel sh)
                    (fun p => sum (tabulate n (fun c => get T (c * numel sh + p))))))
  end.

(** `tf.reduce_sum(ts, axis=0)` on a Python list: the list is packed first. *)
Definition tf_reduce_sum (ts : list tensor) : result tensor :=
  T <- pack ts ;;
  reduce_sum0 T.

(** `tf.reduce_sum(T)`: the sum of all elements, a 0-d tensor. *)
Definition reduce_sum_all (T : tensor) : R := sum (data T).

(** `A * B` with broadcasting. *)
Definition tf_mul (A B : tensor) : result tensor :=
  let r := Nat.max (length (shape A)) (length (shape B)) in
  let sa := pad_shape r (shape A) in
  let sb := pad_shape r (shape B) in
  match bshape sa sb with
  | Some sh =>
      Ok (mkT sh (tabulate (numel sh)
                    (fun p => let idx := unravel sh p in
                              mul (get A (bindex sa idx)) (get B (bindex sb idx)))))
  | None => Err (Raised TfMul)
  end.

(** `tf.reshape(T, sh)` to a shape without -1. *)
Definition tf_reshape (T : tensor) (sh : list nat) : result tensor :=
  if length (data T) =? numel sh
  then Ok (mkT sh (data T))
  else Err (Raised TfReshape).

(** `tf.matmul(A, B)` on two matrices.  (The repository only calls it on
    the results of reshapes to two axes; batched operands are not modelled.) *)
Definition tf_matmul (A B : tensor) : result tensor :=
  match shape A, shape B with
  | [m; k], [k'; n] =>
      if k =? k'
      then Ok (mkT [m; n]
                 (tabulate (m * n)
                    (fun q => sum (tabulate k
                       (fun c => mul (get A (q / n * k + c)) (get B (c * n + q mod n)))))))
      else Err (Raised TfMatmul)
  | _, _ => Err (Raised TfMatmul)
  end.

(** *** d2l.corr2d, the library's 2D cross-correlation

    [[
    def corr2d(X, K):
        h, w = K.shape
        Y = tf.Variable(tf.zeros((X.shape[0] - h + 1, X.shape[1] - w + 1)))
        for i in range(Y.shape[0]):
            for j in range(Y.shape[1]):
                Y[i, j].assign(tf.reduce_sum(X[i: i + h, j: j + w] * K))
        return Y
    ]] *)

(** `X[i: i + h, j: j + w]` for [X] of shape [_ :: x1 :: rest]; the slice
    is only taken where it lies inside [X]. *)
Definition window (X : tensor) (x1 : nat) (rest : list nat) (i h j w : nat) : tensor :=
  let r := numel rest in
  mkT (h :: w :: rest)
      (tabulate (h * w * r)
         (fun p => get X (((i + p / (w * r)) * x1 + (j + (p / r) mod w)) * r + p mod r))).

(** The two loops visit the positions of [Y] in row-major order: position
    [q] is row [q / ow] and column [q mod ow]. *)
Definition corr2d (X K : tensor) : result tensor :=
  match shape K with
  | [h; w] =>
      match shape X with
      | x0 :: x1 :: rest =>
          if (h <=? x0 + 1) && (w <=? x1 + 1) then
            let oh := x0 + 1 - h in
            let ow := x1 + 1 - w in
            ys <- mapM (fun q =>
                          P <- tf_mul (window X x1 rest (q / ow) h (q mod ow) w) K ;;
                          Ok (reduce_sum_all P))
                       (seq 0 (oh * ow)) ;;
            Ok (mkT [oh; ow] ys)
          else Err (Raised TfZeros)
      | _ => Err (Raised PyIndex)
      end
  | _ => Err (Raised PyUnpack)
  end.

(** ** The convolution functions of the notebook *)

(** [[
    def corr2d_multi_in(X, K):
        return tf.reduce_sum([d2l.corr2d(x, k) for x, k in zip(X, K)], axis=0)
    ]] *)
Definition corr2d_multi_in (X K : tensor) : result tensor :=
  ps <- zip X K ;;
  ys <- mapM (fun '(x, k) => corr2d x k) ps ;;
  tf_reduce_sum ys.

(** [[
    def corr2d_multi_in_out(X, K):
        return tf.stack([corr2d_multi_in(X, k) for k in K], 0)
    ]] *)
Definition corr2d_multi_in_out (X K : tensor) : result tensor :=
  ks <- iter K ;;
  ys <- mapM (fun k => corr2d_multi_in X k) ks ;;
  tf_stack ys.

(** [[
    def corr2d_multi_in_out_1x1(X, K):
        c_i, h, w = X.shape
        c_o = K.shape[0]
        X = tf.reshape(X, (c_i, h * w))
        K = tf.reshape(K, (c_o, c_i))
        Y = tf.matmul(K, X)
        return tf.reshape(Y, (c_o, h, w))
    ]] *)
Definition corr2d_multi_in_out_1x1 (X K : tensor) : result tensor :=
  match shape X with
  | [c_i; h; w] =>
      match shape K with
      | c_o :: _ =>
          X' <- tf_reshape X [c_i; h * w] ;;
          K' <- tf_reshape K [c_o; c_i] ;;
          Y <- tf_matmul K' X' ;;
          tf_reshape Y [c_o; h; w]
      | [] => Err (Raised PyIndex)
      end
  | _ => Err (Raised PyUnpack)
  end.

(** [Y[o]]: the slice of [Y] at index [o] of axis 0. *)
Definition channel (Y : tensor) (o : nat) : result tensor :=
  match shape Y with
  | [] => Err (Raised PyIndex)
  | n :: sh => if o <? n then Ok (item Y sh o) else Err (Raised PyIndex)
  end.

(** [X[:m]]: the first [m] slices of [X] along axis 0. *)
Definition first_channels (m : nat) (X : tensor) : tensor :=
  match shape X with
  | [] => X
  | n :: sh => mkT (Nat.min m n :: sh) (firstn (m * numel sh) (data X))
  end.

(** ** JAX primitives *)

(** Product of the dimensions that a new shape spells out ([None] is -1). *)
Definition known_size (ns : list (option nat)) : nat :=
  fold_right (fun d acc => match d with Some n => n * acc | None => acc end) 1 ns.

Definition unknowns (ns : list (option nat)) : nat :=
  length (filter (fun d => match d with None => true | Some _ => false end) ns).

Definition fill (v : nat) (ns : list (option nat)) : list nat :=
  map (fun d => match d with Some n => n | None => v end) ns.

(** `X.reshape(ns)` where at most one entry of [ns] is -1.  The value of a
    -1 is the size of [X] divided by the product of the other entries; the
    call fails when that product is 0 or does not divide the size. *)
Definition jnp_reshape (X : tensor) (ns : list (option nat)) : result tensor :=
  let sz := length (data X) in
  let others := known_size ns in
  match unknowns ns with
  | 0 => if sz =? others then Ok (mkT (fill 0 ns) (data X))
         else Err (Raised JnpReshape)
  | 1 => if (others =? 0) || negb (sz mod others =? 0) then Err (Raised JnpReshape)
         else Ok (mkT (fill (sz / others) ns) (data X))
  | _ => Err (Raised JnpReshape)
  end.

(** `jnp.transpose(X, (0, 2, 1, 3))`: the result at [(a, i, j, l)] is [X]
    at [(a, j, i, l)]. *)
Definition jnp_transpose_0213 (X : tensor) : result tensor :=
  match shape X with
  | [s0; s1; s2; s3] =>
      Ok (mkT [s0; s2; s1; s3]
            (tabulate (s0 * s2 * s1 * s3) (fun p => get X (swap_index s1 s2 s3 p))))
  | _ => Err (Raised JnpTranspose)
  end.

(** `jnp.repeat(V, k, axis=0)`: every slice along axis 0 is copied [k]
    times in a row; a 0-d array gives the vector of [k] copies of it. *)
Definition jnp_repeat0 (V : tensor) (k : nat) : tensor :=
  match shape V with
  | [] => mkT [k] (tabulate k (fun _ => get V 0))
  | n :: sh =>
      mkT (n * k :: sh)
          (tabulate (n * k * numel sh)
             (fun p => get V (p / numel sh / k * numel sh + p mod numel sh)))
  end.

(** ** Multi-head attention *)

Section MultiHeadAttention.

(** The fields of the module and its sub-modules: the four dense layers
    and the attention pooling are layers of the libraries. *)
Variable num_heads : nat.
Variables W_q W_k W_v W_o : tensor -> result tensor.
Variable attention :
  tensor -> tensor -> tensor -> option tensor -> bool -> result (tensor * tensor).

(** [[
    def transpose_qkv(self, X):
        X = X.reshape((X.shape[0], X.shape[1], self.num_heads, -1))
        X = jnp.transpose(X, (0, 2, 1, 3))
        return X.reshape((-1, X.shape[2], X.shape[3]))
    ]] *)
Definition transpose_qkv (X : tensor) : result tensor :=
  match shape X with
  | s0 :: s1 :: _ =>
      X1 <- jnp_reshape X [Some s0; Some s1; Some num_heads; None] ;;
      X2 <- jnp_transpose_0213 X1 ;;
      match shape X2 with
      | _ :: _ :: s2 :: s3 :: _ => jnp_reshape X2 [None; Some s2; Some s3]
      | _ => Err (Raised PyIndex)
      end
  | _ => Err (Raised PyIndex)
  end.

(** [[
    def transpose_output(self, X):
        X = X.reshape((-1, self.num_heads, X.shape[1], X.shape[2]))
        X = jnp.transpose(X, (0, 2, 1, 3))
        return X.reshape((X.shape[0], X.shape[1], -1))
    ]] *)
Definition transpose_output (X : tensor) : result tensor :=
  match shape X with
  | _ :: s1 :: s2 :: _ =>
      X1 <- jnp_reshape X [None; Some num_heads; Some s1; Some s2] ;;
      X2 <- jnp_transpose_0213 X1 ;;
      match shape X2 with
      | t0 :: t1 :: _ => jnp_reshape X2 [Some t0; Some t1; None]
      | _ => Err (Raised PyIndex)
      end
  | _ => Err (Raised PyIndex)
  end.

(** [[
    def __call__(self, queries, keys, values, valid_lens, training=False):
        queries = self.transpose_qkv(self.W_q(queries))
        keys = self.transpose_qkv(self.W_k(keys))
        values = self.transpose_qkv(self.W_v(values))
        if valid_lens is not None:
            valid_lens = jnp.repeat(valid_lens, self.num_heads, axis=0)
        output, attention_weights = self.attention(
            queries, keys, values, valid_lens, training=training)
        output_concat = self.transpose_output(output)
        return self.W_o(output_concat), attention_weights
    ]] *)
Definition MultiHeadAttention_call (queries keys values : tensor)
    (valid_lens : option tensor) (training : bool) : result (tensor * tensor) :=
  q <- W_q queries ;;
  queries' <- transpose_qkv q ;;
  k <- W_k keys ;;
  keys' <- transpose_qkv k ;;
  v <- W_v values ;;
  values' <- transpose_qkv v ;;
  let valid_lens' := match valid_lens with
                     | Some vl => Some (jnp_repeat0 vl num_heads)
                     | None => None
                     end in
  oa <- attention queries' keys' values' valid_lens' training ;;
  output_concat <- transpose_output (fst oa) ;;
  o <- W_o output_concat ;;
  Ok (o, snd oa).

(** The five steps that the specification names, and nothing between them
    (this definition follows the specification's sentence, not the code):
    the projections, [transpose_qkv], the attention pooling,
    [transpose_output] and the output projection; [lens] is what the
    attention pooling receives as valid lengths. *)
Definition five_steps (queries keys values : tensor)
    (lens : option tensor) (training : bool) : result (tensor * tensor) :=
  q <- W_q queries ;;
  queries' <- transpose_qkv q ;;
  k <- W_k keys ;;
  keys' <- transpose_qkv k ;;
  v <- W_v values ;;
  values' <- transpose_qkv v ;;
  oa <- attention queries' keys' values' lens training ;;
  output_concat <- transpose_output (fst oa) ;;
  o <- W_o output_concat ;;
  Ok (o, snd oa).

End MultiHeadAttention.

(** *** The layers that multi-head attention is built from *)

(** [W] behaves as a dense layer from [d_in] to [d_out] features: it acts
    on the last axis of a batch of sequences. *)
Definition dense_layer (d_in d_out : nat) (W : tensor -> result tensor) : Prop :=
  forall X b n, has_shape X [b; n; d_in] ->
                exists Y, W X = Ok Y /\ has_shape Y [b; n; d_out].

(** The shapes that `valid_lens` may have for a batch of [b] examples with
    [nq] queries each (the comment in `__call__`). *)
Definition valid_lens_ok (valid_lens : option tensor) (b nq : nat) : Prop :=
  match valid_lens with
  | None => True
  | Some v => has_shape v [b] \/ has_shape v [b; nq]
  end.

(** [attention] returns, on a non-empty batch of matching queries, keys
    and values, one output row per query and one weight per query and key. *)
Definition attention_shapes
    (attention : tensor -> tensor -> tensor -> option tensor -> bool ->
                 result (tensor * tensor)) : Prop :=
  forall Q K V vl tr B nq nk d,
    0 < B ->
    has_shape Q [B; nq; d] -> has_shape K [B; nk; d] -> has_shape V [B; nk; d] ->
    valid_lens_ok vl B nq ->
    exists O A, attention Q K V vl tr = Ok (O, A)
                /\ has_shape O [B; nq; d] /\ has_shape A [B; nq; nk].

(** Attention pooling of one example: queries [q], keys [k], values [v] and
    the valid length(s) [l] of that example. *)
Definition pooling : Type :=
  tensor -> tensor -> tensor -> option tensor -> bool -> result (tensor * tensor).

Definition pool_shapes (pool : pooling) : Prop :=
  forall q k v l tr nq nk d,
    has_shape q [nq; d] -> has_shape k [nk; d] -> has_shape v [nk; d] ->
    exists o a, pool q k v l tr = Ok (o, a)
                /\ has_shape o [nq; d] /\ has_shape a [nq; nk].

(** The pooling [pool] applied to every example of a batch on its own:
    example [i] is pooled from [Q[i]], [K[i]], [V[i]] and [valid_lens[i]],
    and the outputs and the weights are stacked. *)
Definition batched (pool : pooling) (Q K V : tensor) (valid_lens : option tensor)
    (training : bool) : result (tensor * tensor) :=
  rs <- mapM (fun i =>
                q <- channel Q i ;;
                k <- channel K i ;;
                v <- channel V i ;;
                l <- match valid_lens with
                     | Some t => x <- channel t i ;; Ok (Some x)
                     | None => Ok None
                     end ;;
                pool q k v l training)
             (seq 0 (hd 0 (shape Q))) ;;
  O <- pack (map fst rs) ;;
  A <- pack (map snd rs) ;;
  Ok (O, A).

(** [attention] works on each example of a non-empty batch on its own, as
    [pool] does on one example. *)
Definition batchwise (pool : pooling)
    (attention : tensor -> tensor -> tensor -> option tensor -> bool ->
                 result (tensor * tensor)) : Prop :=
  forall Q K V vl tr B nq nk d,
    0 < B ->
    has_shape Q [B; nq; d] -> has_shape K [B; nk; d] -> has_shape V [B; nk; d] ->
    valid_lens_ok vl B nq ->
    attention Q K V vl tr = batched pool Q K V vl tr.

(** *** The multi-head attention formula

    The standard formula, as the specification words it (these definitions
    follow the formula, not the code): head [h] of example [i] is pooled
    from the [h]-th blocks of [d] columns of the projected queries, keys
    and values of that example and from the valid length of that example;
    the heads of an example are put side by side and projected by [W_o]. *)

(** Columns [h * d .. h * d + d - 1] of a matrix with [n] rows and
    [num_heads * d] columns. *)
Definition head_slice (num_heads d n : nat) (M : tensor) (h : nat) : tensor :=
  mkT [n; d]
      (tabulate (n * d)
         (fun p => get M (p / d * (num_heads * d) + h * d + p mod d))).

(** The matrices [heads], of [n] rows and [d] columns each, side by side. *)
Definition concat_heads (n d : nat) (heads : list tensor) : tensor :=
  let H := length heads in
  mkT [n; H * d]
      (tabulate (n * (H * d))
         (fun p => get (nth (p mod (H * d) / d) heads (mkT [] []))
                       (p / (H * d) * d + p mod (H * d) mod d))).

(** No reshape and no transposition: the heads are cut from and put into
    the matrices by their columns. *)
Definition multi_head_formula (num_heads : nat)
    (W_q W_k W_v W_o : tensor -> result tensor) (pool : pooling)
    (queries keys values : tensor) (valid_lens : option tensor) (training : bool)
    (b nq nk d : nat) : result (tensor * tensor) :=
  Q <- W_q queries ;;
  K <- W_k keys ;;
  V <- W_v values ;;
  heads <- mapM (fun ih =>
                   let i := ih / num_heads in
                   let h := ih mod num_heads in
                   pool (head_slice num_heads d nq (item Q [nq; num_heads * d] i) h)
                        (head_slice num_heads d nk (item K [nk; num_heads * d] i) h)
                        (head_slice num_heads d nk (item V [nk; num_heads * d] i) h)
                        (match valid_lens with
                         | Some t => Some (item t (tl (shape t)) i)
                         | None => None
                         end)
                        training)
                (seq 0 (b * num_heads)) ;;
  A <- pack (map snd heads) ;;
  O <- pack (tabulate b (fun i =>
               concat_heads nq d
                 (tabulate num_heads (fun h => fst (nth (i * num_heads + h) heads
                                                       (mkT [] [], mkT [] [])))))) ;;
  out <- W_o O ;;
  Ok (out, A).

(** *** Concrete layers, for examples *)

(** `nn.Dense(features, use_bias=False)` with a given kernel of shape
    [(d_in, features)]: the product of the last axis with the kernel.  A
    layer without input features has no kernel (its initialiser divides by
    [d_in]) and raises. *)
Definition dense (kernel : tensor) (X : tensor) : result tensor :=
  match shape kernel, rev (shape X) with
  | [d_in; f], d :: _ =>
      if (d =? d_in) && (0 <? d_in) then
        let pre := removelast (shape X) in
        Ok (mkT (pre ++ [f])
              (tabulate (numel pre * f)
                 (fun q => sum (tabulate d
                    (fun c => mul (get X (q / f * d + c))
                                  (get kernel (c * f + q mod f)))))))
      else Err (Raised FlaxDense)
  | _, _ => Err (Raised FlaxDense)
  end.

End Tensors.

Arguments tensor R : clear implicits.

(** ** The store of TensorFlow variables

    TensorFlow tensors and JAX arrays are immutable values; a
    `tf.Variable` is a mutable cell.  d2l.corr2d creates a variable and
    assigns to its elements in place, and returns it.  The stateful model
    below threads the store of variables through the functions, so that
    what a call leaves in the store can be stated. *)

Section Store.

Context {R : Type} {SR : Scalar R}.

(** The store: the current value of every variable, by creation order. *)
Definition store : Type := list (tensor R).

(** An argument or a result: an immutable tensor or a variable. *)
Inductive tval :=
| Const (t : tensor R)
| Var (r : nat).

Definition read (s : store) (v : tval) : tensor R :=
  match v with
  | Const t => t
  | Var r => nth r s (mkT [] [])
  end.

(** A variable that exists in the store, or a constant. *)
Definition valid (s : store) (v : tval) : Prop :=
  match v with
  | Const _ => True
  | Var r => r < length s
  end.

(** Computations that may raise and that change the store. *)
Definition M (A : Type) : Type := store -> result A * store.

Definition ret {A : Type} (a : A) : M A := fun s => (Ok a, s).

Definition raise {A : Type} (e : exn) : M A := fun s => (Err e, s).

Definition bindM {A B : Type} (c : M A) (k : A -> M B) : M B :=
  fun s => match c s with
           | (Ok a, s') => k a s'
           | (Err e, s') => (Err e, s')
           end.

(** A pure library call on values. *)
Definition lift {A : Type} (r : result A) : M A := fun s => (r, s).

Definition get_value (v : tval) : M (tensor R) := fun s => (Ok (read s v), s).

Fixpoint mapM_M {A B : Type} (f : A -> M B) (l : list A) : M (list B) :=
  match l with
  | [] => ret []
  | a :: l' => bindM (f a) (fun b => bindM (mapM_M f l') (fun bs => ret (b :: bs)))
  end.

Fixpoint upd {A : Type} (l : list A) (i : nat) (x : A) : list A :=
  match l, i with
  | [], _ => []
  | _ :: l', 0 => x :: l'
  | a :: l', S i' => a :: upd l' i' x
  end.

(** `tf.Variable(t)`: a new variable with initial value [t]. *)
Definition new_variable (t : tensor R) : M nat :=
  fun s => (Ok (length s), s ++ [t]).

(** `Y[i, j].assign(x)` at the flat position [p] of variable [y]. *)
Definition assign_at (y p : nat) (x : R) : M unit :=
  fun s => let Y := nth y s (mkT [] []) in
           (Ok tt, upd s y (mkT (shape Y) (upd (data Y) p x))).

(** d2l.corr2d with its variable: allocation, the two loops with the
    assignment in place, and the variable as the result. *)
Definition corr2d_M (X K : tval) : M tval :=
  bindM (get_value K) (fun Kv =>
  match shape Kv with
  | [h; w] =>
      bindM (get_value X) (fun Xv =>
      match shape Xv with
      | x0 :: x1 :: rest =>
          if (h <=? x0 + 1) && (w <=? x1 + 1) then
            let oh := x0 + 1 - h in
            let ow := x1 + 1 - w in
            bindM (new_variable (mkT [oh; ow] (repeat zero (oh * ow)))) (fun y =>
            bindM (mapM_M (fun q =>
                     bindM (get_value X) (fun Xq =>
                     bindM (get_value K) (fun Kq =>
                     bindM (lift (tf_mul (window Xq x1 rest (q / ow) h (q mod ow) w) Kq))
                           (fun P => assign_at y q (reduce_sum_all P)))))
                     (seq 0 (oh * ow))) (fun _ =>
            ret (Var y)))
          else raise (Raised TfZeros)
      | _ => raise (Raised PyIndex)
      end)
  | _ => raise (Raised PyUnpack)
  end).

(** The slices that iterating over [v] yields: immutable tensors cut
    from the current value of [v]. *)
Definition iter_M (v : tval) : M (list (tensor R)) :=
  bindM (get_value v) (fun t => lift (iter t)).

Definition corr2d_multi_in_M (X K : tval) : M tval :=
  bindM (iter_M X) (fun xs =>
  bindM (iter_M K) (fun ks =>
  bindM (mapM_M (fun '(x, k) => corr2d_M (Const x) (Const k)) (combine xs ks))
        (fun ys =>
  bindM (mapM_M get_value ys) (fun ts =>
  bindM (lift (tf_reduce_sum ts)) (fun T => ret (Const T)))))).

Definition corr2d_multi_in_out_M (X K : tval) : M tval :=
  bindM (iter_M K) (fun ks =>
  bindM (mapM_M (fun k => corr2d_multi_in_M X (Const k)) ks) (fun ys =>
  bindM (mapM_M get_value ys) (fun ts =>
  bindM (lift (tf_stack ts)) (fun T => ret (Const T))))).

Definition corr2d_multi_in_out_1x1_M (X K : tval) : M tval :=
  bindM (get_value X) (fun Xv =>
  bindM (get_value K) (fun Kv =>
  bindM (lift (corr2d_multi_in_out_1x1 Xv Kv)) (fun T => ret (Const T)))).

(** JAX arrays are immutable: the two transpositions compute on values. *)
Definition transpose_qkv_M (num_heads : nat) (X : tensor R) : M (tensor R) :=
  lift (transpose_qkv num_heads X).

Definition transpose_output_M (num_heads : nat) (X : tensor R) : M (tensor R) :=
  lift (transpose_output num_heads X).

(** The store [s'] is [s] with new variables after it: the variables of
    [s] still exist and have the value they had. *)
Definition extends (s s' : store) : Prop := exists new, s' = s ++ new.

(** What a run returns, as a value: the tensor that the result denotes in
    the final store. *)
Definition outcome (r : result tval * store) : result (tensor R) :=
  match fst r with
  | Ok v => Ok (read (snd r) v)
  | Err e => Err e
  end.

(** What is proved of every stateful function: it only adds variables to
    the store, it returns what the function on values returns, and its
    result exists in the final store. *)
Definition agrees (r : result tval * store) (s : store)
    (pure : result (tensor R)) : Prop :=
  extends s (snd r) /\ outcome r = pure
  /\ forall v, fst r = Ok v -> valid (snd r) v.

End Store.

(** ** Closed forms of the results *)

Section ClosedForms.

Context {R : Type} {SR : Scalar R}.

Implicit Types X K : tensor R.

(** Position in [X] (of row length [x1]) of the element that the window at
    [q] (in an output of row length [ow]) pairs with kernel position [p]
    (in a kernel of row length [w]). *)
Definition tap (x1 ow w q p : nat) : nat :=
  (q / ow + p / w) * x1 + (q mod ow + p mod w).

(** The cross-correlation of an [x0 * x1] matrix with an [h * w] kernel. *)
Definition corr2d_value X K (x0 x1 h w : nat) : tensor R :=
  mkT [x0 + 1 - h; x1 + 1 - w]
      (tabulate ((x0 + 1 - h) * (x1 + 1 - w))
         (fun q => sum (tabulate (h * w)
            (fun p => mul (get X (tap x1 (x1 + 1 - w) w q p)) (get K p))))).

(** One element of the result of [corr2d_multi_in]: the sum over the
    first [m] channels of the window sums. *)
Definition multi_in_cell X K (m h w kh kw q : nat) : R :=
  sum (tabulate m (fun c =>
    sum (tabulate (kh * kw) (fun p =>
      mul (get (item X [h; w] c) (tap w (w + 1 - kw) kw q p))
          (get (item K [kh; kw] c) p))))).

(** What [corr2d_multi_in] returns on a [cx * h * w] input and a
    [ck * kh * kw] kernel. *)
Definition multi_in_value X K (cx ck h w kh kw : nat) : result (tensor R) :=
  if Nat.min cx ck =? 0 then Ok (mkT [] [zero])
  else if (kh <=? h + 1) && (kw <=? w + 1)
       then Ok (mkT [h + 1 - kh; w + 1 - kw]
                  (tabulate ((h + 1 - kh) * (w + 1 - kw))
                     (multi_in_cell X K (Nat.min cx ck) h w kh kw)))
       else Err (Raised TfZeros).

(** What [corr2d_multi_in_out] returns on a [ci * h * w] input and a
    [co * ck * kh * kw] kernel. *)
Definition multi_in_out_value X K (ci ck co h w kh kw : nat) : result (tensor R) :=
  if co =? 0 then Ok (mkT [0] [])
  else if Nat.min ci ck =? 0 then Ok (mkT [co] (tabulate co (fun _ => zero)))
  else if (kh <=? h + 1) && (kw <=? w + 1)
       then Ok (mkT [co; h + 1 - kh; w + 1 - kw]
                  (tabulate (co * ((h + 1 - kh) * (w + 1 - kw)))
                     (fun q =>
                        multi_in_cell X
                          (item K [ck; kh; kw] (q / ((h + 1 - kh) * (w + 1 - kw))))
                          (Nat.min ci ck) h w kh kw
                          (q mod ((h + 1 - kh) * (w + 1 - kw))))))
       else Err (Raised TfZeros).

End ClosedForms.

(** ** The direct formula of the cross-correlation *)

Section DirectFormula.

Context {R : Type} {SR : Scalar R}.

(** [X[c, i, j]] in a tensor whose last two axes have sizes [d1] and [d2]. *)
Definition at3 (X : tensor R) (d1 d2 c i j : nat) : R :=
  get X ((c * d1 + i) * d2 + j).

(** The direct formula of the multi-input-channel cross-correlation, as
    the specification words it (this definition follows the formula, not
    the code): element (i, j) of the result is the sum over the channels
    [c] and the kernel positions [(a, b)] of
    [X[c, i + a, j + b] * K[c, a, b]]. *)
Definition direct_sum (X K : tensor R) (c_i h w kh kw : nat) : tensor R :=
  mkT [h - kh + 1; w - kw + 1]
      (tabulate ((h - kh + 1) * (w - kw + 1))
         (fun q =>
            let i := q / (w - kw + 1) in
            let j := q mod (w - kw + 1) in
            sum (tabulate c_i (fun c =>
              sum (tabulate kh (fun a =>
                sum (tabulate kw (fun b =>
                  mul (at3 X h w c (i + a) (j + b)) (at3 K kh kw c a b))))))))).

End DirectFormula.

(** ** Concrete tensors and layers, for examples *)

(** The values of the notebook's figure. *)
Definition X_fig : tensor Z :=
  mkT [2; 3; 3] [0; 1; 2; 3; 4; 5; 6; 7; 8; 1; 2; 3; 4; 5; 6; 7; 8; 9]%Z.
Definition K_fig : tensor Z :=
  mkT [2; 2; 2] [0; 1; 2; 3; 1; 2; 3; 4]%Z.
Definition K4_fig : tensor Z :=
  mkT [3; 2; 2; 2]
      [0; 1; 2; 3; 1; 2; 3; 4; 1; 2; 3; 4; 2; 3; 4; 5; 2; 3; 4; 5; 3; 4; 5; 6]%Z.
Definition K1_fig : tensor Z := mkT [3; 2; 1; 1] [1; 2; 3; 4; 5; 6]%Z.

(** Three input channels against a kernel of two. *)
Definition X3_fig : tensor Z :=
  mkT [3; 2; 2] [1; 2; 3; 4; 5; 6; 7; 8; 9; 10; 11; 12]%Z.
Definition K2_fig : tensor Z := mkT [2; 1; 1] [1; 10]%Z.

(** A kernel with three input channels against an input with two. *)
Definition K23_fig : tensor Z := mkT [2; 3; 1; 1] [1; 2; 3; 4; 5; 6]%Z.

Definition X_heads : tensor Z := mkT [2; 2; 6] (map Z.of_nat (seq 0 24)).

(** Dot-product pooling over the integers whose weights beyond the valid
    length are 0 (masking without softmax). *)
Definition masked_dot_pool : @pooling Z := fun q k v l _ =>
  match shape q, shape k, shape v with
  | [nq; d], [nk; d'], [nk'; dv] =>
      if (d =? d') && (nk =? nk') then
        let len i := match l with
                     | None => nk
                     | Some t => Z.to_nat (get t (match shape t with
                                                  | [] => 0
                                                  | _ => i
                                                  end))
                     end in
        let A := mkT [nq; nk]
                   (tabulate (nq * nk)
                      (fun p => if p mod nk <? len (p / nk)
                                then sum (tabulate d
                                       (fun c => mul (get q (p / nk * d + c))
                                                     (get k (p mod nk * d + c))))
                                else 0%Z)) in
        Ok (mkT [nq; dv]
              (tabulate (nq * dv)
                 (fun p => sum (tabulate nk
                    (fun c => mul (get A (p / dv * nk + c))
                                  (get v (c * dv + p mod dv)))))),
            A)
      else Err (Raised D2lAttention)
  | _, _, _ => Err (Raised D2lAttention)
  end.

Definition Wq_fig : tensor Z :=
  mkT [4; 4] [1; 0; 2; 0; 0; 1; 0; 1; 1; 1; 0; 0; 0; 2; 1; 1]%Z.
Definition Wk_fig : tensor Z :=
  mkT [4; 4] [0; 1; 0; 1; 1; 0; 1; 0; 2; 0; 0; 1; 0; 1; 1; 0]%Z.
Definition Wv_fig : tensor Z :=
  mkT [4; 4] [1; 1; 0; 0; 0; 1; 1; 0; 0; 0; 1; 1; 1; 0; 0; 1]%Z.
Definition Wo_fig : tensor Z :=
  mkT [4; 4] [1; 2; 0; 0; 0; 1; 2; 0; 0; 0; 1; 2; 2; 0; 0; 1]%Z.
Definition queries_fig : tensor Z := mkT [2; 2; 4] (map Z.of_nat (seq 1 16)).
Definition keys_fig : tensor Z := mkT [2; 3; 4] (map Z.of_nat (seq 3 24)).
Definition valid_lens_fig : tensor Z := mkT [2] [2; 1]%Z.

(** The input of the figure held in a variable, next to another variable. *)
Definition store_fig : @store Z := [K1_fig; X_fig].

(** A batch of 2 * 3 heads, the shape that [transpose_output] takes. *)
Definition Y_heads : tensor Z := mkT [6; 2; 2] (map Z.of_nat (seq 0 24)).

(** A kernel of three output and two input channels given as a matrix. *)
Definition K_matrix : tensor Z := mkT [3; 2] [1; 2; 3; 4; 5; 6]%Z.

(** `K + 1` and `K + 2` for the kernel of the figure. *)
Definition K_fig_plus1 : tensor Z := mkT [2; 2; 2] [1; 2; 3; 4; 2; 3; 4; 5]%Z.
Definition K_fig_plus2 : tensor Z := mkT [2; 2; 2] [2; 3; 4; 5; 3; 4; 5; 6]%Z.

(** One input channel and a kernel for it. *)
Definition X1_fig : tensor Z := mkT [1; 3; 3] [0; 1; 2; 3; 4; 5; 6; 7; 8]%Z.
Definition K11_fig : tensor Z := mkT [1; 2; 2] [0; 1; 2; 3]%Z.

(** Kernels of height 5 for an input of height 3. *)
Definition K_tall : tensor Z := mkT [2; 5; 2] (repeat 1%Z 20).
Definition K4_tall : tensor Z := mkT [1; 2; 5; 2] (repeat 1%Z 20).

(** A kernel of height 4, one more than the height of the input. *)
Definition K_edge : tensor Z := mkT [2; 4; 2] (repeat 1%Z 16).

(** An input without channels. *)
Definition X_none : tensor Z := mkT [0; 3; 3] [].

(** A matrix and a 2D kernel: one channel, without the channel axis. *)
Definition X_matrix : tensor Z := mkT [3; 3] [0; 1; 2; 3; 4; 5; 6; 7; 8]%Z.
Definition K_flat : tensor Z := mkT [2; 2] [0; 1; 2; 3]%Z.


(** * Properties *)

(** ** Lists, the error monad and index arithmetic *)

Lemma length_tabulate {A : Type} (n : nat) (f : nat -> A) :
  length (tabulate n f) = n.
Proof. unfold tabulate. now rewrite length_map, length_seq. Qed.

Lemma nth_tabulate {A : Type} (n : nat) (f : nat -> A) (i : nat) (d : A) :
  i < n -> nth i (tabulate n f) d = f i.
Proof.
  intros Hi. unfold tabulate.
  rewrite (nth_indep _ d (f 0)) by now rewrite length_map, length_seq.
  rewrite map_nth, seq_nth; auto.
Qed.

Lemma tabulate_ext {A : Type} (n : nat) (f g : nat -> A) :
  (forall i, i < n -> f i = g i) -> tabulate n f = tabulate n g.
Proof.
  intros E. unfold tabulate. apply map_ext_in.
  intros i Hi. apply in_seq in Hi. apply E. lia.
Qed.

Lemma tabulate_S {A : Type} (n : nat) (f : nat -> A) :
  tabulate (S n) f = f 0 :: tabulate n (fun i => f (S i)).
Proof. unfold tabulate. simpl. f_equal. now rewrite <- seq_shift, map_map. Qed.

Lemma map_tabulate {A B : Type} (g : A -> B) (n : nat) (f : nat -> A) :
  map g (tabulate n f) = tabulate n (fun i => g (f i)).
Proof. unfold tabulate. now rewrite map_map. Qed.

Lemma list_eq_tabulate {A : Type} (l : list A) (d : A) :
  l = tabulate (length l) (fun i => nth i l d).
Proof.
  apply (nth_ext _ _ d d).
  - now rewrite length_tabulate.
  - intros i Hi. now rewrite nth_tabulate.
Qed.

Lemma mapM_ok {A B : Type} (f : A -> result B) (g : A -> B) (l : list A) :
  (forall a, In a l -> f a = Ok (g a)) -> mapM f l = Ok (map g l).
Proof.
  induction l as [|a l IH]; intros E; simpl; [reflexivity|].
  rewrite (E a) by now left. simpl.
  rewrite IH by (intros; apply E; now right). reflexivity.
Qed.

Lemma mapM_tabulate_ok {A B : Type} (f : A -> result B) (g : A -> B) (n : nat)
    (h : nat -> A) :
  (forall i, i < n -> f (h i) = Ok (g (h i))) ->
  mapM f (tabulate n h) = Ok (tabulate n (fun i => g (h i))).
Proof.
  intros E. rewrite (mapM_ok f g).
  - now rewrite map_tabulate.
  - intros a Ha. unfold tabulate in Ha. apply in_map_iff in Ha.
    destruct Ha as (i & <- & Hi). apply in_seq in Hi. apply E. lia.
Qed.

Lemma mapM_seq_ok {B : Type} (f : nat -> result B) (g : nat -> B) (n : nat) :
  (forall i, i < n -> f i = Ok (g i)) -> mapM f (seq 0 n) = Ok (tabulate n g).
Proof.
  intros E. rewrite (mapM_ok f g); [reflexivity|].
  intros i Hi. apply in_seq in Hi. apply E. lia.
Qed.

Lemma div_mod_lt (p a b : nat) : p < a * b -> p / b < a /\ p mod b < b.
Proof.
  intros Hp. assert (b <> 0) by (intros ->; lia). split.
  - apply Nat.Div0.div_lt_upper_bound. lia.
  - now apply Nat.mod_upper_bound.
Qed.

Lemma div_mod_pair (a b n : nat) : b < n -> (a * n + b) / n = a /\ (a * n + b) mod n = b.
Proof.
  intros Hb. split.
  - rewrite Nat.div_add_l by lia. rewrite Nat.div_small by lia. lia.
  - rewrite Nat.add_comm, Nat.Div0.mod_add. now apply Nat.mod_small.
Qed.

Lemma shape_eqb_refl (sh : list nat) : shape_eqb sh sh = true.
Proof. unfold shape_eqb. now destruct (list_eq_dec Nat.eq_dec sh sh). Qed.

Lemma shape_eqb_eq (s1 s2 : list nat) : shape_eqb s1 s2 = true <-> s1 = s2.
Proof.
  unfold shape_eqb. destruct (list_eq_dec Nat.eq_dec s1 s2); split; congruence.
Qed.

Lemma nth_concat_uniform {A : Type} (ls : list (list A)) (m c p : nat) (d : A) :
  (forall l, In l ls -> length l = m) -> p < m ->
  nth (c * m + p) (concat ls) d = nth p (nth c ls []) d.
Proof.
  revert c. induction ls as [|l ls IH]; intros c Hl Hp.
  - simpl. destruct (c * m + p), c, p; reflexivity.
  - simpl. destruct c as [|c].
    + simpl. rewrite app_nth1; auto. rewrite (Hl l); auto. now left.
    + rewrite app_nth2 by (rewrite (Hl l) by (now left); simpl; lia).
      rewrite (Hl l) by now left.
      replace (S c * m + p - m) with (c * m + p) by (simpl; lia).
      apply IH; auto. intros; apply Hl; now right.
Qed.

Lemma length_concat_uniform {A : Type} (ls : list (list A)) (m : nat) :
  (forall l, In l ls -> length l = m) -> length (concat ls) = length ls * m.
Proof.
  induction ls as [|l ls IH]; intros Hl; simpl; [reflexivity|].
  rewrite length_app, IH, (Hl l); auto; [now left|].
  intros; apply Hl; now right.
Qed.

Section TensorFacts.

Context {R : Type} {SR : Scalar R}.

Implicit Types X K T : tensor R.

Lemma tensor_eq X sh (f : nat -> R) :
  has_shape X sh -> (forall p, p < numel sh -> get X p = f p) ->
  X = mkT sh (tabulate (numel sh) f).
Proof.
  intros [E L] Hf. destruct X as [s d]; simpl in *. subst s. f_equal.
  rewrite (list_eq_tabulate d zero), L. apply tabulate_ext.
  intros i Hi. now apply Hf.
Qed.

Lemma get_tabulate sh n (f : nat -> R) p :
  p < n -> get (mkT sh (tabulate n f)) p = f p.
Proof. intros Hp. unfold get; simpl. now apply nth_tabulate. Qed.

Lemma iter_ok X n sh :
  shape X = n :: sh -> iter X = Ok (tabulate n (item X sh)).
Proof. intros E. unfold iter. now rewrite E. Qed.

Lemma item_has_shape X sh i : has_shape (item X sh i) sh.
Proof. split; simpl; [reflexivity|apply length_tabulate]. Qed.

Lemma get_item X sh i p : p < numel sh -> get (item X sh i) p = get X (i * numel sh + p).
Proof. intros Hp. unfold item. now rewrite get_tabulate. Qed.

(** Packing [n >= 1] tensors of one shape. *)
Lemma pack_tabulate (n : nat) (f : nat -> tensor R) sh :
  0 < n -> (forall i, i < n -> has_shape (f i) sh) ->
  pack (tabulate n f)
  = Ok (mkT (n :: sh) (tabulate (n * numel sh)
                         (fun q => get (f (q / numel sh)) (q mod numel sh)))).
Proof.
  intros Hn Hf. destruct n as [|n]; [lia|].
  assert (Hall : forall u, In u (tabulate (S n) f) -> has_shape u sh).
  { intros u Hu. unfold tabulate in Hu. apply in_map_iff in Hu.
    destruct Hu as (i & <- & Hi). apply in_seq in Hi. apply Hf. lia. }
  unfold pack. rewrite tabulate_S. rewrite <- tabulate_S.
  replace (forallb _ _) with true.
  2:{ symmetry. apply forallb_forall. intros u Hu. apply shape_eqb_eq.
      rewrite (proj1 (Hall u Hu)). symmetry. apply Hf. lia. }
  rewrite length_tabulate. rewrite (proj1 (Hf 0 ltac:(lia))). f_equal. f_equal.
  assert (Hlen : forall l, In l (map (@data R) (tabulate (S n) f)) -> length l = numel sh).
  { intros l Hl. apply in_map_iff in Hl. destruct Hl as (u & <- & Hu).
    apply (Hall u Hu). }
  apply (nth_ext _ _ zero zero).
  - rewrite length_tabulate, (length_concat_uniform _ _ Hlen), length_map, length_tabulate.
    reflexivity.
  - intros q Hq.
    rewrite (length_concat_uniform _ _ Hlen), length_map, length_tabulate in Hq.
    rewrite nth_tabulate by exact Hq.
    destruct (div_mod_lt _ _ _ Hq) as [Hd Hm].
    rewrite (Nat.div_mod_eq q (numel sh)) at 1.
    rewrite (Nat.mul_comm (numel sh)).
    rewrite (nth_concat_uniform _ _ _ _ zero Hlen Hm).
    unfold get. f_equal.
    now rewrite map_tabulate, nth_tabulate.
Qed.

Lemma combine_tabulate {A B : Type} (n m : nat) (f : nat -> A) (g : nat -> B) :
  combine (tabulate n f) (tabulate m g) = tabulate (Nat.min n m) (fun i => (f i, g i)).
Proof.
  revert m f g. induction n as [|n IH]; intros m f g; [reflexivity|].
  destruct m as [|m]; [reflexivity|].
  simpl Nat.min. rewrite !tabulate_S. simpl. f_equal. apply IH.
Qed.

Lemma bindex_unravel2 (h w p : nat) :
  p < h * w -> bindex [h; w] (unravel [h; w] p) = p.
Proof.
  intros Hp. destruct (div_mod_lt _ _ _ Hp) as [Hd Hm].
  cbn [bindex unravel numel fold_right].
  rewrite !Nat.mul_1_r, Nat.div_1_r, (Nat.mod_small (p / w) h Hd), Nat.add_0_r.
  assert (E1 : (if h =? 1 then 0 else p / w) = p / w).
  { destruct (Nat.eqb_spec h 1); [lia|reflexivity]. }
  assert (E2 : (if w =? 1 then 0 else p mod w) = p mod w).
  { destruct (Nat.eqb_spec w 1); [lia|reflexivity]. }
  rewrite E1, E2. rewrite (Nat.div_mod_eq p w) at 3. lia.
Qed.

Lemma tf_mul_matrix A B (h w : nat) :
  shape A = [h; w] -> shape B = [h; w] ->
  tf_mul A B = Ok (mkT [h; w] (tabulate (h * w) (fun p => mul (get A p) (get B p)))).
Proof.
  intros EA EB. unfold tf_mul. rewrite EA, EB.
  cbn [length Nat.max Nat.sub pad_shape repeat app bshape]. unfold bdim.
  rewrite !Nat.eqb_refl. f_equal. f_equal.
  cbn [numel fold_right]. rewrite Nat.mul_1_r.
  apply tabulate_ext. intros p Hp. cbv zeta.
  now rewrite bindex_unravel2.
Qed.

(** d2l.corr2d on a matrix and a kernel that fits (up to one row and one
    column beyond the input, where the output is empty). *)
Lemma corr2d_matrix X K (x0 x1 h w : nat) :
  shape X = [x0; x1] -> shape K = [h; w] -> h <= x0 + 1 -> w <= x1 + 1 ->
  corr2d X K = Ok (corr2d_value X K x0 x1 h w).
Proof.
  intros EX EK Hh Hw. unfold corr2d, corr2d_value. rewrite EK, EX.
  replace (h <=? x0 + 1) with true by (symmetry; now apply Nat.leb_le).
  replace (w <=? x1 + 1) with true by (symmetry; now apply Nat.leb_le).
  cbn [andb]. cbv zeta.
  set (ow := x1 + 1 - w). set (oh := x0 + 1 - h).
  erewrite mapM_seq_ok.
  - reflexivity.
  - intros q Hq. rewrite (tf_mul_matrix _ K h w); [|reflexivity|exact EK].
    cbn [bind]. unfold reduce_sum_all. cbn [data]. f_equal. f_equal.
    apply tabulate_ext. intros p Hp. f_equal.
    unfold window. cbn [numel fold_right].
    rewrite get_tabulate by lia. unfold tap.
    rewrite !Nat.mul_1_r, Nat.mod_1_r, Nat.div_1_r, Nat.add_0_r.
    reflexivity.
Qed.

(** Summing a list of [n >= 1] tensors of one shape along axis 0. *)
Lemma tf_reduce_sum_tabulate (n : nat) (f : nat -> tensor R) sh :
  0 < n -> (forall i, i < n -> has_shape (f i) sh) ->
  tf_reduce_sum (tabulate n f)
  = Ok (mkT sh (tabulate (numel sh)
                  (fun p => sum (tabulate n (fun c => get (f c) p))))).
Proof.
  intros Hn Hf. unfold tf_reduce_sum. rewrite (pack_tabulate n f sh Hn Hf).
  cbn [bind]. unfold reduce_sum0. cbn [shape]. f_equal. f_equal.
  apply tabulate_ext. intros p Hp. f_equal.
  apply tabulate_ext. intros c Hc.
  rewrite get_tabulate by nia.
  destruct (div_mod_pair c p (numel sh) Hp) as [-> ->]. reflexivity.
Qed.

Lemma zip_ok X K (cx ck : nat) shx shk :
  shape X = cx :: shx -> shape K = ck :: shk ->
  zip X K = Ok (tabulate (Nat.min cx ck) (fun c => (item X shx c, item K shk c))).
Proof.
  intros EX EK. unfold zip. rewrite (iter_ok X cx shx EX), (iter_ok K ck shk EK).
  cbn [bind]. now rewrite combine_tabulate.
Qed.

Lemma corr2d_multi_in_channels X K (cx ck h w kh kw : nat) :
  shape X = [cx; h; w] -> shape K = [ck; kh; kw] ->
  kh <= h + 1 -> kw <= w + 1 ->
  corr2d_multi_in X K
  = tf_reduce_sum
      (tabulate (Nat.min cx ck)
         (fun c => corr2d_value (item X [h; w] c) (item K [kh; kw] c) h w kh kw)).
Proof.
  intros EX EK Hh Hw. unfold corr2d_multi_in.
  rewrite (zip_ok X K cx ck _ _ EX EK). cbn [bind].
  rewrite (mapM_tabulate_ok _ (fun xk => corr2d_value (fst xk) (snd xk) h w kh kw)).
  - cbn [bind]. reflexivity.
  - intros c Hc. cbv beta iota. cbn [fst snd].
    rewrite (corr2d_matrix _ _ h w kh kw); auto.
Qed.

Lemma corr2d_multi_in_closed X K (cx ck h w kh kw : nat) :
  shape X = [cx; h; w] -> shape K = [ck; kh; kw] ->
  kh <= h + 1 -> kw <= w + 1 -> 0 < Nat.min cx ck ->
  corr2d_multi_in X K
  = Ok (mkT [h + 1 - kh; w + 1 - kw]
          (tabulate ((h + 1 - kh) * (w + 1 - kw))
             (multi_in_cell X K (Nat.min cx ck) h w kh kw))).
Proof.
  intros EX EK Hh Hw Hm.
  rewrite (corr2d_multi_in_channels X K cx ck h w kh kw EX EK Hh Hw).
  rewrite (tf_reduce_sum_tabulate _ _ [h + 1 - kh; w + 1 - kw]); auto.
  - cbn [numel fold_right]. rewrite Nat.mul_1_r. f_equal. f_equal.
    apply tabulate_ext. intros q Hq. unfold multi_in_cell. f_equal.
    apply tabulate_ext. intros c Hc. unfold corr2d_value.
    now rewrite get_tabulate.
  - intros c Hc. split; [reflexivity|]. cbn [corr2d_value data numel fold_right].
    rewrite length_tabulate. lia.
Qed.

Lemma corr2d_multi_in_no_channel X K (cx ck : nat) shx shk :
  shape X = cx :: shx -> shape K = ck :: shk -> Nat.min cx ck = 0 ->
  corr2d_multi_in X K = Ok (mkT [] [zero]).
Proof.
  intros EX EK Hm. unfold corr2d_multi_in.
  rewrite (zip_ok X K cx ck _ _ EX EK), Hm. reflexivity.
Qed.

Lemma corr2d_too_large X K (x0 x1 h w : nat) :
  shape X = [x0; x1] -> shape K = [h; w] -> ~ (h <= x0 + 1 /\ w <= x1 + 1) ->
  corr2d X K = Err (Raised TfZeros).
Proof.
  intros EX EK Hn. unfold corr2d. rewrite EK, EX.
  destruct (Nat.leb_spec h (x0 + 1)), (Nat.leb_spec w (x1 + 1)); cbn [andb];
    try reflexivity. exfalso. apply Hn. lia.
Qed.

Lemma corr2d_multi_in_too_large X K (cx ck h w kh kw : nat) :
  shape X = [cx; h; w] -> shape K = [ck; kh; kw] ->
  ~ (kh <= h + 1 /\ kw <= w + 1) -> 0 < Nat.min cx ck ->
  corr2d_multi_in X K = Err (Raised TfZeros).
Proof.
  intros EX EK Hn Hm. unfold corr2d_multi_in.
  rewrite (zip_ok X K cx ck _ _ EX EK). cbn [bind].
  destruct (Nat.min cx ck) as [|m]; [lia|].
  rewrite tabulate_S. cbn [mapM].
  rewrite (corr2d_too_large _ _ h w kh kw); auto.
Qed.

Lemma corr2d_multi_in_value X K (cx ck h w kh kw : nat) :
  shape X = [cx; h; w] -> shape K = [ck; kh; kw] ->
  corr2d_multi_in X K = multi_in_value X K cx ck h w kh kw.
Proof.
  intros EX EK. unfold multi_in_value.
  destruct (Nat.eqb_spec (Nat.min cx ck) 0) as [Hm|Hm].
  - now apply (corr2d_multi_in_no_channel X K cx ck _ _ EX EK).
  - destruct (Nat.leb_spec kh (h + 1)), (Nat.leb_spec kw (w + 1)); cbn [andb].
    + apply corr2d_multi_in_closed; auto. lia.
    + apply (corr2d_multi_in_too_large X K cx ck h w kh kw); auto; lia.
    + apply (corr2d_multi_in_too_large X K cx ck h w kh kw); auto; lia.
    + apply (corr2d_multi_in_too_large X K cx ck h w kh kw); auto; lia.
Qed.

Lemma mapM_err_head {A B : Type} (f : A -> result B) (a : A) (l : list A) e :
  f a = Err e -> mapM f (a :: l) = Err e.
Proof. intros E. cbn [mapM]. now rewrite E. Qed.

(** The result of [corr2d_multi_in_out] in terms of the results of
    [corr2d_multi_in] on the slices of the kernel. *)
Lemma corr2d_multi_in_out_stack X K (ci ck co h w kh kw : nat) :
  shape X = [ci; h; w] -> shape K = [co; ck; kh; kw] ->
  corr2d_multi_in_out X K
  = (ys <- mapM (fun o => corr2d_multi_in X (item K [ck; kh; kw] o)) (seq 0 co) ;;
     tf_stack ys).
Proof.
  intros EX EK. unfold corr2d_multi_in_out.
  rewrite (iter_ok K co _ EK). cbn [bind]. f_equal.
  unfold tabulate. induction (seq 0 co) as [|o l IH]; [reflexivity|].
  cbn [map mapM]. now rewrite IH.
Qed.

Lemma corr2d_multi_in_out_value X K (ci ck co h w kh kw : nat) :
  shape X = [ci; h; w] -> shape K = [co; ck; kh; kw] ->
  corr2d_multi_in_out X K = multi_in_out_value X K ci ck co h w kh kw.
Proof.
  intros EX EK. rewrite (corr2d_multi_in_out_stack X K ci ck co h w kh kw EX EK).
  assert (Hv : forall o, corr2d_multi_in X (item K [ck; kh; kw] o)
                         = multi_in_value X (item K [ck; kh; kw] o) ci ck h w kh kw).
  { intros o. now apply corr2d_multi_in_value. }
  unfold multi_in_out_value.
  destruct (Nat.eqb_spec co 0) as [Hco|Hco]; [subst co; reflexivity|].
  unfold multi_in_value in Hv.
  destruct (Nat.eqb_spec (Nat.min ci ck) 0) as [Hm|Hm].
  - rewrite (mapM_seq_ok _ (fun _ => mkT [] [zero])) by (intros; apply Hv).
    cbn [bind]. unfold tf_stack.
    assert (Hs : forall i, i < co -> has_shape (mkT [] [@zero R SR]) []).
    { intros i Hi. split; reflexivity. }
    rewrite (pack_tabulate co _ [] ltac:(lia) Hs).
    cbn [numel fold_right]. rewrite Nat.mul_1_r. reflexivity.
  - destruct ((kh <=? h + 1) && (kw <=? w + 1)).
    + rewrite (mapM_seq_ok _ (fun o =>
         mkT [h + 1 - kh; w + 1 - kw]
           (tabulate ((h + 1 - kh) * (w + 1 - kw))
              (multi_in_cell X (item K [ck; kh; kw] o) (Nat.min ci ck) h w kh kw))))
        by (intros; apply Hv).
      cbn [bind]. unfold tf_stack.
      rewrite (pack_tabulate co _ [h + 1 - kh; w + 1 - kw]); [|lia|].
      * cbn [numel fold_right]. rewrite Nat.mul_1_r. f_equal. f_equal.
        apply tabulate_ext. intros q Hq.
        rewrite get_tabulate; [reflexivity|].
        apply Nat.mod_upper_bound. intros E. rewrite E in Hq. lia.
      * intros o Ho. split; [reflexivity|]. cbn [data numel fold_right].
        rewrite length_tabulate. lia.
    + destruct co as [|co]; [lia|]. cbn [seq].
      rewrite (mapM_err_head _ _ _ (Raised TfZeros)); [reflexivity|apply Hv].
Qed.

(** ** Shapes of the results *)

Lemma has_shape_mk sh (n : nat) (f : nat -> R) :
  n = numel sh -> has_shape (mkT sh (tabulate n f)) sh.
Proof. intros ->. split; [reflexivity|apply length_tabulate]. Qed.

Lemma leb_fit (kh kw h w : nat) :
  kh <= h + 1 -> kw <= w + 1 -> (kh <=? h + 1) && (kw <=? w + 1) = true.
Proof.
  intros Hh Hw. apply andb_true_intro. split; now apply Nat.leb_le.
Qed.

Lemma min_pos_neqb (a b : nat) : 0 < Nat.min a b -> (Nat.min a b =? 0) = false.
Proof. intros H. apply Nat.eqb_neq. lia. Qed.

(** C10 (as amended): with at least one input channel, a kernel that fits
    gives a result of shape (h - k_h + 1, w - k_w + 1); with at least one
    output channel as well, [corr2d_multi_in_out] gives shape
    (c_o, h - k_h + 1, w - k_w + 1), and (c_o, h, w) for a 1x1 kernel. *)
Theorem corr2d_multi_shapes X K K4 K1 (c_i c_o h w kh kw : nat) :
  has_shape X [c_i; h; w] -> 0 < c_i -> kh <= h -> kw <= w ->
  (has_shape K [c_i; kh; kw] ->
   exists Y, corr2d_multi_in X K = Ok Y /\ has_shape Y [h - kh + 1; w - kw + 1])
  /\ (0 < c_o -> has_shape K4 [c_o; c_i; kh; kw] ->
      exists Y, corr2d_multi_in_out X K4 = Ok Y
                /\ has_shape Y [c_o; h - kh + 1; w - kw + 1])
  /\ (0 < c_o -> has_shape K1 [c_o; c_i; 1; 1] ->
      exists Y, corr2d_multi_in_out X K1 = Ok Y /\ has_shape Y [c_o; h; w]).
Proof.
  intros [EX _] Hc Hh Hw.
  replace (h - kh + 1) with (h + 1 - kh) by lia.
  replace (w - kw + 1) with (w + 1 - kw) by lia.
  split; [|split].
  - intros [EK _].
    rewrite (corr2d_multi_in_value X K c_i c_i h w kh kw EX EK).
    unfold multi_in_value.
    rewrite min_pos_neqb by lia. rewrite leb_fit by lia.
    eexists; split; [reflexivity|]. apply has_shape_mk. simpl. lia.
  - intros Ho [EK _].
    rewrite (corr2d_multi_in_out_value X K4 c_i c_i c_o h w kh kw EX EK).
    unfold multi_in_out_value.
    replace (c_o =? 0) with false by (symmetry; apply Nat.eqb_neq; lia).
    rewrite min_pos_neqb by lia. rewrite leb_fit by lia.
    eexists; split; [reflexivity|]. apply has_shape_mk. simpl. lia.
  - intros Ho [EK _].
    rewrite (corr2d_multi_in_out_value X K1 c_i c_i c_o h w 1 1 EX EK).
    unfold multi_in_out_value.
    replace (c_o =? 0) with false by (symmetry; apply Nat.eqb_neq; lia).
    rewrite min_pos_neqb by lia. rewrite leb_fit by lia.
    rewrite !Nat.add_sub.
    eexists; split; [reflexivity|]. apply has_shape_mk. simpl. lia.
Qed.

(** ** Channels of the result *)

(** C3: [corr2d_multi_in_out] has as many output channels as the kernel has
    slices, its channel [o] is [corr2d_multi_in] of the input and the slice
    [K[o]] (with the same error when that call fails), and it returns when
    the kernel fits. *)
Theorem corr2d_multi_in_out_channels X K (c_i c_o h w kh kw : nat) :
  has_shape X [c_i; h; w] -> has_shape K [c_o; c_i; kh; kw] ->
  (forall Y, corr2d_multi_in_out X K = Ok Y -> exists sh, shape Y = c_o :: sh)
  /\ (forall o, o < c_o ->
        (Y <- corr2d_multi_in_out X K ;; channel Y o)
        = corr2d_multi_in X (item K [c_i; kh; kw] o))
  /\ (kh <= h -> kw <= w -> exists Y, corr2d_multi_in_out X K = Ok Y).
Proof.
  intros [EX _] [EK _].
  rewrite (corr2d_multi_in_out_value X K c_i c_i c_o h w kh kw EX EK).
  unfold multi_in_out_value. split; [|split].
  - intros Y. destruct (c_o =? 0) eqn:Ec.
    + apply Nat.eqb_eq in Ec. subst c_o. intros [= <-]. now exists [].
    + destruct (Nat.min c_i c_i =? 0).
      * intros [= <-]. now exists [].
      * destruct ((kh <=? h + 1) && (kw <=? w + 1)); [|discriminate].
        intros [= <-]. now eexists.
  - intros o Ho.
    rewrite (corr2d_multi_in_value X (item K [c_i; kh; kw] o) c_i c_i h w kh kw EX eq_refl).
    unfold multi_in_value.
    replace (c_o =? 0) with false by (symmetry; apply Nat.eqb_neq; lia).
    destruct (Nat.min c_i c_i =? 0).
    + cbn [bind]. unfold channel. cbn [shape].
      replace (o <? c_o) with true by (symmetry; now apply Nat.ltb_lt).
      f_equal. unfold item. f_equal. cbn [numel fold_right tabulate seq map].
      f_equal. rewrite get_tabulate by lia. reflexivity.
    + destruct ((kh <=? h + 1) && (kw <=? w + 1)); [|reflexivity].
      cbn [bind]. unfold channel. cbn [shape].
      replace (o <? c_o) with true by (symmetry; now apply Nat.ltb_lt).
      f_equal. unfold item at 1. f_equal. cbn [numel fold_right].
      rewrite Nat.mul_1_r. apply tabulate_ext. intros p Hp.
      rewrite get_tabulate by nia.
      destruct (div_mod_pair o p _ Hp) as [-> ->]. reflexivity.
  - intros Hh Hw. rewrite leb_fit by lia.
    destruct (c_o =? 0); [now eexists|].
    destruct (Nat.min c_i c_i =? 0); now eexists.
Qed.

Lemma item_first_channels X (m n c : nat) sh :
  shape X = n :: sh -> c < m ->
  item (first_channels m X) sh c = item X sh c.
Proof.
  intros EX Hc. unfold item. f_equal. apply tabulate_ext. intros p Hp.
  unfold get, first_channels. rewrite EX. cbn [data].
  rewrite nth_firstn.
  replace (c * numel sh + p <? m * numel sh) with true; [reflexivity|].
  symmetry. apply Nat.ltb_lt. nia.
Qed.

Lemma shape_first_channels X (m n : nat) sh :
  shape X = n :: sh -> shape (first_channels m X) = Nat.min m n :: sh.
Proof. intros EX. unfold first_channels. now rewrite EX. Qed.

(** [corr2d_multi_in] only reads the channels that both arguments have. *)
Lemma corr2d_multi_in_truncates X K (cx ck h w kh kw : nat) :
  shape X = [cx; h; w] -> shape K = [ck; kh; kw] ->
  corr2d_multi_in X K
  = corr2d_multi_in (first_channels (Nat.min cx ck) X)
                    (first_channels (Nat.min cx ck) K).
Proof.
  intros EX EK. set (m := Nat.min cx ck).
  rewrite (corr2d_multi_in_value X K cx ck h w kh kw EX EK).
  rewrite (corr2d_multi_in_value _ _ m m h w kh kw).
  2:{ rewrite (shape_first_channels X m cx _ EX). f_equal. lia. }
  2:{ rewrite (shape_first_channels K m ck _ EK). f_equal. lia. }
  unfold multi_in_value. rewrite Nat.min_id. fold m.
  destruct (m =? 0); [reflexivity|].
  destruct ((kh <=? h + 1) && (kw <=? w + 1)); [|reflexivity].
  f_equal. f_equal. apply tabulate_ext. intros q Hq.
  unfold multi_in_cell. f_equal. apply tabulate_ext. intros c Hc.
  rewrite (item_first_channels X m cx c _ EX Hc).
  rewrite (item_first_channels K m ck c _ EK Hc). reflexivity.
Qed.

End TensorFacts.

Section ErrorFacts.

Context {R : Type} {SR : Scalar R}.

Implicit Types X K T : tensor R.

Lemma no_custom_ok {A : Type} (a : A) : no_custom (Ok a).
Proof. intros msg. discriminate. Qed.

Lemma no_custom_raised {A : Type} (p : primitive) : no_custom (@Err A (Raised p)).
Proof. intros msg. discriminate. Qed.

Lemma no_custom_bind {A B : Type} (c : result A) (k : A -> result B) :
  no_custom c -> (forall a, no_custom (k a)) -> no_custom (bind c k).
Proof.
  intros Hc Hk msg. destruct c as [a|e]; simpl.
  - apply Hk.
  - intros [= ->]. now apply (Hc msg).
Qed.

Lemma no_custom_mapM {A B : Type} (f : A -> result B) (l : list A) :
  (forall a, no_custom (f a)) -> no_custom (mapM f l).
Proof.
  intros Hf. induction l as [|a l IH]; simpl.
  - apply no_custom_ok.
  - apply no_custom_bind; [apply Hf|]. intros b.
    apply no_custom_bind; [apply IH|]. intros bs. apply no_custom_ok.
Qed.

Create HintDb errors.

#[local] Hint Resolve no_custom_ok no_custom_raised : errors.

Ltac no_custom_cases :=
  repeat match goal with
    | |- no_custom (bind _ _) => apply no_custom_bind; [|intros ?]
    | |- no_custom (mapM _ _) => apply no_custom_mapM; intros ?
    | |- no_custom (match ?x with _ => _ end) => destruct x
    | |- no_custom (if ?b then _ else _) => destruct b
    | |- no_custom (let _ := _ in _) => cbv zeta
    end; auto with errors.

Lemma no_custom_iter X : no_custom (iter X).
Proof. unfold iter. no_custom_cases. Qed.

Lemma no_custom_pack (ts : list (tensor R)) : no_custom (pack ts).
Proof. unfold pack. no_custom_cases. Qed.

Lemma no_custom_tf_mul X K : no_custom (tf_mul X K).
Proof. unfold tf_mul. no_custom_cases. Qed.

Lemma no_custom_tf_reshape X sh : no_custom (tf_reshape X sh).
Proof. unfold tf_reshape. no_custom_cases. Qed.

Lemma no_custom_tf_matmul X K : no_custom (tf_matmul X K).
Proof. unfold tf_matmul. no_custom_cases. Qed.

Lemma no_custom_jnp_reshape X ns : no_custom (jnp_reshape X ns).
Proof. unfold jnp_reshape. no_custom_cases. Qed.

Lemma no_custom_jnp_transpose X : no_custom (jnp_transpose_0213 X).
Proof. unfold jnp_transpose_0213. no_custom_cases. Qed.

#[local] Hint Resolve no_custom_iter no_custom_pack no_custom_tf_mul
  no_custom_tf_reshape no_custom_tf_matmul no_custom_jnp_reshape
  no_custom_jnp_transpose : errors.

Lemma no_custom_corr2d X K : no_custom (corr2d X K).
Proof. unfold corr2d. no_custom_cases. Qed.

#[local] Hint Resolve no_custom_corr2d : errors.

Lemma no_custom_corr2d_multi_in X K : no_custom (corr2d_multi_in X K).
Proof.
  unfold corr2d_multi_in, zip, tf_reduce_sum, reduce_sum0. no_custom_cases.
Qed.

#[local] Hint Resolve no_custom_corr2d_multi_in : errors.

Lemma no_custom_corr2d_multi_in_out X K : no_custom (corr2d_multi_in_out X K).
Proof. unfold corr2d_multi_in_out, tf_stack. no_custom_cases. Qed.

Lemma no_custom_corr2d_multi_in_out_1x1 X K :
  no_custom (corr2d_multi_in_out_1x1 X K).
Proof. unfold corr2d_multi_in_out_1x1. no_custom_cases. Qed.

Lemma no_custom_transpose_qkv (num_heads : nat) X :
  no_custom (transpose_qkv num_heads X).
Proof. unfold transpose_qkv. no_custom_cases. Qed.

Lemma no_custom_transpose_output (num_heads : nat) X :
  no_custom (transpose_output num_heads X).
Proof. unfold transpose_output. no_custom_cases. Qed.

(** The error of [mapM] is the error of the first call that fails. *)
Lemma mapM_err {A B : Type} (f : A -> result B) (pre post : list A) (a : A)
    (bs : list B) e :
  mapM f pre = Ok bs -> f a = Err e -> mapM f (pre ++ a :: post) = Err e.
Proof.
  revert bs. induction pre as [|x pre IH]; intros bs Hpre Ha; simpl.
  - now rewrite Ha.
  - simpl in Hpre. destruct (f x) as [b|e']; simpl in *; [|discriminate].
    destruct (mapM f pre) as [bs'|e'] eqn:E; simpl in *; [|discriminate].
    now rewrite (IH bs' eq_refl Ha).
Qed.

(** C7: every function of the repository (the three convolution
    functions, the two transpositions and `__call__`) returns the error of
    the first inner call that fails, whichever call that is, and never an
    error of its own.  For [corr2d_multi_in_out_1x1] on a kernel whose
    channel count differs from the input's, this is the error of the
    reshape of the kernel. *)
Theorem errors_propagate_unchanged X K :
  (* corr2d_multi_in_out_1x1 *)
  (forall c_i h w c_o rest e, shape X = [c_i; h; w] -> shape K = c_o :: rest ->
     (tf_reshape X [c_i; h * w] = Err e -> corr2d_multi_in_out_1x1 X K = Err e)
     /\ (forall X', tf_reshape X [c_i; h * w] = Ok X' ->
           (tf_reshape K [c_o; c_i] = Err e -> corr2d_multi_in_out_1x1 X K = Err e)
           /\ (forall K', tf_reshape K [c_o; c_i] = Ok K' ->
                 (tf_matmul K' X' = Err e -> corr2d_multi_in_out_1x1 X K = Err e)
                 /\ (forall Y, tf_matmul K' X' = Ok Y ->
                       tf_reshape Y [c_o; h; w] = Err e ->
                       corr2d_multi_in_out_1x1 X K = Err e))))
  /\ (forall c_i c_o c_k h w, has_shape X [c_i; h; w] ->
        has_shape K [c_o; c_k; 1; 1] -> c_o * c_k <> c_o * c_i ->
        tf_reshape K [c_o; c_i] = Err (Raised TfReshape)
        /\ corr2d_multi_in_out_1x1 X K = Err (Raised TfReshape))
  (* corr2d_multi_in *)
  /\ (forall e,
        (zip X K = Err e -> corr2d_multi_in X K = Err e)
        /\ (forall pre post x k ys, zip X K = Ok (pre ++ (x, k) :: post) ->
              mapM (fun '(x, k) => corr2d x k) pre = Ok ys ->
              corr2d x k = Err e -> corr2d_multi_in X K = Err e)
        /\ (forall ps ys, zip X K = Ok ps ->
              mapM (fun '(x, k) => corr2d x k) ps = Ok ys ->
              tf_reduce_sum ys = Err e -> corr2d_multi_in X K = Err e))
  (* corr2d_multi_in_out *)
  /\ (forall e,
        (iter K = Err e -> corr2d_multi_in_out X K = Err e)
        /\ (forall pre post k ys, iter K = Ok (pre ++ k :: post) ->
              mapM (fun k => corr2d_multi_in X k) pre = Ok ys ->
              corr2d_multi_in X k = Err e -> corr2d_multi_in_out X K = Err e)
        /\ (forall ks ys, iter K = Ok ks ->
              mapM (fun k => corr2d_multi_in X k) ks = Ok ys ->
              tf_stack ys = Err e -> corr2d_multi_in_out X K = Err e))
  (* no error value of the repository's own *)
  /\ no_custom (corr2d_multi_in X K)
  /\ no_custom (corr2d_multi_in_out X K)
  /\ no_custom (corr2d_multi_in_out_1x1 X K)
  /\ (forall num_heads, no_custom (transpose_qkv num_heads X)
                        /\ no_custom (transpose_output num_heads X))
  (* corr2d_multi_in_out_1x1: unpacking and indexing the shapes *)
  /\ ((forall c_i h w, shape X <> [c_i; h; w]) ->
      corr2d_multi_in_out_1x1 X K = Err (Raised PyUnpack))
  /\ (forall c_i h w, shape X = [c_i; h; w] -> shape K = [] ->
        corr2d_multi_in_out_1x1 X K = Err (Raised PyIndex))
  (* transpose_qkv *)
  /\ (forall num_heads e,
        (length (shape X) < 2 -> transpose_qkv num_heads X = Err (Raised PyIndex))
        /\ (forall s0 s1 rest, shape X = s0 :: s1 :: rest ->
              (jnp_reshape X [Some s0; Some s1; Some num_heads; None] = Err e ->
               transpose_qkv num_heads X = Err e)
              /\ (forall X1,
                    jnp_reshape X [Some s0; Some s1; Some num_heads; None] = Ok X1 ->
                    (jnp_transpose_0213 X1 = Err e ->
                     transpose_qkv num_heads X = Err e)
                    /\ (forall X2 t0 t1 s2 s3 rest',
                          jnp_transpose_0213 X1 = Ok X2 ->
                          shape X2 = t0 :: t1 :: s2 :: s3 :: rest' ->
                          jnp_reshape X2 [None; Some s2; Some s3] = Err e ->
                          transpose_qkv num_heads X = Err e))))
  (* transpose_output *)
  /\ (forall num_heads e,
        (length (shape X) < 3 -> transpose_output num_heads X = Err (Raised PyIndex))
        /\ (forall s0 s1 s2 rest, shape X = s0 :: s1 :: s2 :: rest ->
              (jnp_reshape X [None; Some num_heads; Some s1; Some s2] = Err e ->
               transpose_output num_heads X = Err e)
              /\ (forall X1,
                    jnp_reshape X [None; Some num_heads; Some s1; Some s2] = Ok X1 ->
                    (jnp_transpose_0213 X1 = Err e ->
                     transpose_output num_heads X = Err e)
                    /\ (forall X2 t0 t1 rest',
                          jnp_transpose_0213 X1 = Ok X2 ->
                          shape X2 = t0 :: t1 :: rest' ->
                          jnp_reshape X2 [Some t0; Some t1; None] = Err e ->
                          transpose_output num_heads X = Err e))))
  (* MultiHeadAttention.__call__ *)
  /\ (forall num_heads W_q W_k W_v W_o attention queries keys values valid_lens
             training e,
        let call := MultiHeadAttention_call num_heads W_q W_k W_v W_o attention
                      queries keys values valid_lens training in
        let lens := match valid_lens with
                    | Some vl => Some (jnp_repeat0 vl num_heads)
                    | None => None
                    end in
        (W_q queries = Err e -> call = Err e)
        /\ (forall q, W_q queries = Ok q ->
        (transpose_qkv num_heads q = Err e -> call = Err e)
        /\ (forall queries', transpose_qkv num_heads q = Ok queries' ->
        (W_k keys = Err e -> call = Err e)
        /\ (forall k, W_k keys = Ok k ->
        (transpose_qkv num_heads k = Err e -> call = Err e)
        /\ (forall keys', transpose_qkv num_heads k = Ok keys' ->
        (W_v values = Err e -> call = Err e)
        /\ (forall v, W_v values = Ok v ->
        (transpose_qkv num_heads v = Err e -> call = Err e)
        /\ (forall values', transpose_qkv num_heads v = Ok values' ->
        (attention queries' keys' values' lens training = Err e -> call = Err e)
        /\ (forall oa, attention queries' keys' values' lens training = Ok oa ->
        (transpose_output num_heads (fst oa) = Err e -> call = Err e)
        /\ (forall output_concat,
              transpose_output num_heads (fst oa) = Ok output_concat ->
              W_o output_concat = Err e -> call = Err e)))))))))
  /\ (forall num_heads W_q W_k W_v W_o attention queries keys values valid_lens
             training,
        (forall T, no_custom (W_q T)) -> (forall T, no_custom (W_k T)) ->
        (forall T, no_custom (W_v T)) -> (forall T, no_custom (W_o T)) ->
        (forall Q' K' V' l t, no_custom (attention Q' K' V' l t)) ->
        no_custom (MultiHeadAttention_call num_heads W_q W_k W_v W_o attention
                     queries keys values valid_lens training)).
Proof.
  repeat apply conj.
  - intros c_i h w c_o rest e EX EK. unfold corr2d_multi_in_out_1x1.
    rewrite EX, EK. split; [now intros ->|].
    intros X' ->. cbn [bind]. split; [now intros ->|].
    intros K' ->. cbn [bind]. split; [now intros ->|].
    intros Y ->. cbn [bind]. now intros ->.
  - intros c_i c_o c_k h w [EX LX] [EK LK] Hne.
    assert (E : tf_reshape K [c_o; c_i] = Err (Raised TfReshape)).
    { unfold tf_reshape. rewrite LK.
      replace (numel [c_o; c_k; 1; 1] =? numel [c_o; c_i]) with false;
        [reflexivity|].
      symmetry. apply Nat.eqb_neq. simpl. lia. }
    split; [exact E|]. unfold corr2d_multi_in_out_1x1. rewrite EX, EK, E.
    unfold tf_reshape at 1. rewrite LX.
    replace (numel [c_i; h; w] =? numel [c_i; h * w]) with true; [reflexivity|].
    symmetry. apply Nat.eqb_eq. simpl. lia.
  - intros e. unfold corr2d_multi_in. split; [now intros ->|]. split.
    + intros pre post x k ys -> Hpre Hx. cbn [bind].
      now rewrite (mapM_err _ pre post (x, k) ys e Hpre Hx).
    + intros ps ys ->. cbn [bind]. intros ->. cbn [bind]. now intros ->.
  - intros e. unfold corr2d_multi_in_out. split; [now intros ->|]. split.
    + intros pre post k ys -> Hpre Hk. cbn [bind].
      now rewrite (mapM_err _ pre post k ys e Hpre Hk).
    + intros ks ys ->. cbn [bind]. intros ->. cbn [bind]. now intros ->.
  - apply no_custom_corr2d_multi_in.
  - apply no_custom_corr2d_multi_in_out.
  - apply no_custom_corr2d_multi_in_out_1x1.
  - intros num_heads. split.
    + apply no_custom_transpose_qkv.
    + apply no_custom_transpose_output.
  - intros HX. unfold corr2d_multi_in_out_1x1.
    destruct (shape X) as [|c_i [|h [|w [|x sh]]]]; try reflexivity.
    exfalso. now apply (HX c_i h w).
  - intros c_i h w EX EK. unfold corr2d_multi_in_out_1x1. now rewrite EX, EK.
  - intros num_heads e. unfold transpose_qkv. split.
    + destruct (shape X) as [|s0 [|s1 rest]]; cbn [length]; intros HX;
        [reflexivity|reflexivity|lia].
    + intros s0 s1 rest ->. split; [now intros ->|].
      intros X1 ->. cbn [bind]. split; [now intros ->|].
      intros X2 t0 t1 s2 s3 rest' -> EX2. cbn [bind]. now rewrite EX2.
  - intros num_heads e. unfold transpose_output. split.
    + destruct (shape X) as [|s0 [|s1 [|s2 rest]]]; cbn [length]; intros HX;
        [reflexivity|reflexivity|reflexivity|lia].
    + intros s0 s1 s2 rest ->. split; [now intros ->|].
      intros X1 ->. cbn [bind]. split; [now intros ->|].
      intros X2 t0 t1 rest' -> EX2. cbn [bind]. now rewrite EX2.
  - intros num_heads W_q W_k W_v W_o attention queries keys values valid_lens
      training e. cbv zeta. unfold MultiHeadAttention_call.
    split; [now intros ->|]. intros q ->. cbn [bind].
    split; [now intros ->|]. intros queries' ->. cbn [bind].
    split; [now intros ->|]. intros k ->. cbn [bind].
    split; [now intros ->|]. intros keys' ->. cbn [bind].
    split; [now intros ->|]. intros v ->. cbn [bind].
    split; [now intros ->|]. intros values' ->. cbn [bind].
    split; [now intros ->|]. intros oa ->. cbn [bind].
    split; [now intros ->|]. intros output_concat ->. cbn [bind].
    now intros ->.
  - intros num_heads W_q W_k W_v W_o attention queries keys values valid_lens
      training Hq Hk Hv Ho Ha. unfold MultiHeadAttention_call.
    repeat (apply no_custom_bind;
            [solve [auto using no_custom_transpose_qkv, no_custom_transpose_output]|];
            intros ?).
    apply no_custom_ok.
Qed.

End ErrorFacts.

(** ** Splitting into heads and back *)

Lemma digits4 (a i j l n1 n2 n3 : nat) :
  i < n1 -> j < n2 -> l < n3 ->
  let p := ((a * n1 + i) * n2 + j) * n3 + l in
  p mod n3 = l /\ (p / n3) mod n2 = j /\ (p / (n3 * n2)) mod n1 = i
  /\ p / (n3 * n2 * n1) = a.
Proof.
  intros Hi Hj Hl p.
  destruct (div_mod_pair ((a * n1 + i) * n2 + j) l n3 Hl) as [E1 E2].
  destruct (div_mod_pair (a * n1 + i) j n2 Hj) as [E3 E4].
  destruct (div_mod_pair a i n1 Hi) as [E5 E6].
  fold p in E1, E2.
  rewrite <- !Nat.Div0.div_div, E1, E2, E3, E4, E5, E6. auto.
Qed.

Lemma undigits4 (p n1 n2 n3 : nat) :
  ((p / (n3 * n2 * n1) * n1 + (p / (n3 * n2)) mod n1) * n2 + (p / n3) mod n2) * n3
  + p mod n3 = p.
Proof.
  rewrite <- !Nat.Div0.div_div.
  pose proof (Nat.div_mod_eq p n3) as E1.
  pose proof (Nat.div_mod_eq (p / n3) n2) as E2.
  pose proof (Nat.div_mod_eq (p / n3 / n2) n1) as E3.
  rewrite (Nat.mul_comm (p / n3 / n2 / n1)), <- E3.
  rewrite (Nat.mul_comm (p / n3 / n2)), <- E2.
  rewrite (Nat.mul_comm (p / n3)), <- E1. reflexivity.
Qed.

(** Swapping the two middle axes twice gives back the position. *)
Lemma swap_index_involutive (s0 s1 s2 s3 p : nat) :
  p < s0 * s1 * s2 * s3 ->
  swap_index s1 s2 s3 (swap_index s2 s1 s3 p) = p
  /\ swap_index s2 s1 s3 p < s0 * s2 * s1 * s3.
Proof.
  intros Hp.
  assert (H3 : 0 < s3) by (destruct s3; lia).
  assert (H2 : 0 < s2) by (destruct s2; lia).
  assert (H1 : 0 < s1) by (destruct s1; lia).
  set (l := p mod s3). set (j := (p / s3) mod s2).
  set (i := (p / (s3 * s2)) mod s1). set (a := p / (s3 * s2 * s1)).
  assert (Hl : l < s3) by (apply Nat.mod_upper_bound; lia).
  assert (Hj : j < s2) by (apply Nat.mod_upper_bound; lia).
  assert (Hi : i < s1) by (apply Nat.mod_upper_bound; lia).
  assert (Ha : a < s0).
  { apply Nat.Div0.div_lt_upper_bound. lia. }
  assert (Eq : swap_index s2 s1 s3 p = ((a * s2 + j) * s1 + i) * s3 + l)
    by reflexivity.
  rewrite Eq. split.
  - unfold swap_index.
    destruct (digits4 a j i l s2 s1 s3 Hj Hi Hl) as (-> & -> & -> & ->).
    apply undigits4.
  - assert (B1 : a * s2 + j + 1 <= s0 * s2) by nia.
    assert (B2 : (a * s2 + j) * s1 + i + 1 <= s0 * s2 * s1) by nia.
    nia.
Qed.

Section HeadFacts.

Context {R : Type} {SR : Scalar R}.

Implicit Types X Y : tensor R.

(** A reshape with one -1 among dimensions whose product [k] is positive
    and divides the size. *)
Lemma jnp_reshape_infer X (ns : list (option nat)) (k v : nat) :
  unknowns ns = 1 -> known_size ns = k -> 0 < k -> length (data X) = v * k ->
  jnp_reshape X ns = Ok (mkT (fill v ns) (data X)).
Proof.
  intros Hu Hk Hpos Hlen. unfold jnp_reshape. rewrite Hu, Hk, Hlen.
  replace (k =? 0) with false by (symmetry; apply Nat.eqb_neq; lia).
  rewrite Nat.Div0.mod_mul, Nat.div_mul by lia. reflexivity.
Qed.

Lemma transpose_qkv_value X (b n H d : nat) :
  has_shape X [b; n; H * d] -> 0 < b -> 0 < n -> 0 < H -> 0 < d ->
  transpose_qkv H X
  = Ok (mkT [b * H; n; d]
          (tabulate (b * H * n * d) (fun p => get X (swap_index n H d p)))).
Proof.
  intros [EX LX] Hb Hn HH Hd. unfold transpose_qkv. rewrite EX.
  rewrite (jnp_reshape_infer X [Some b; Some n; Some H; None] (b * (n * (H * 1))) d eq_refl eq_refl).
  - cbn [bind fill map]. unfold jnp_transpose_0213. cbn [shape bind].
    rewrite (jnp_reshape_infer _ [None; Some n; Some d] (n * (d * 1)) (b * H) eq_refl eq_refl).
    + reflexivity.
    + repeat apply Nat.mul_pos_pos; lia.
    + cbn [data]. rewrite length_tabulate. ring.
  - repeat apply Nat.mul_pos_pos; lia.
  - rewrite LX. cbn [numel fold_right]. ring.
Qed.

Lemma transpose_output_value Y (b n H d : nat) :
  has_shape Y [b * H; n; d] -> 0 < b -> 0 < n -> 0 < H -> 0 < d ->
  transpose_output H Y
  = Ok (mkT [b; n; H * d]
          (tabulate (b * n * H * d) (fun p => get Y (swap_index H n d p)))).
Proof.
  intros [EY LY] Hb Hn HH Hd. unfold transpose_output. rewrite EY.
  rewrite (jnp_reshape_infer Y [None; Some H; Some n; Some d] (H * (n * (d * 1))) b eq_refl eq_refl).
  - cbn [bind fill map]. unfold jnp_transpose_0213. cbn [shape bind].
    rewrite (jnp_reshape_infer _ [Some b; Some n; None] (b * (n * 1)) (H * d) eq_refl eq_refl).
    + reflexivity.
    + repeat apply Nat.mul_pos_pos; lia.
    + cbn [data]. rewrite length_tabulate. ring.
  - repeat apply Nat.mul_pos_pos; lia.
  - rewrite LY. cbn [numel fold_right]. ring.
Qed.

(** C5 (as amended): on a tensor without an empty axis, and with
    [num_hiddens] a multiple of [num_heads], [transpose_output] undoes
    [transpose_qkv]. *)
Theorem transpose_output_transpose_qkv X (batch_size n num_hiddens num_heads : nat) :
  has_shape X [batch_size; n; num_hiddens] ->
  Nat.divide num_heads num_hiddens ->
  0 < batch_size -> 0 < n -> 0 < num_hiddens ->
  (Y <- transpose_qkv num_heads X ;; transpose_output num_heads Y) = Ok X.
Proof.
  intros HX [d Hd] Hb Hn Hh. subst num_hiddens.
  assert (0 < d) by (destruct d; lia).
  assert (0 < num_heads) by (destruct num_heads; lia).
  rewrite (Nat.mul_comm d) in HX.
  rewrite (transpose_qkv_value X batch_size n num_heads d HX) by assumption.
  cbn [bind].
  rewrite (transpose_output_value _ batch_size n num_heads d) by
    (try assumption; apply has_shape_mk; simpl; lia).
  f_equal. symmetry.
  replace (batch_size * n * num_heads * d)
    with (numel [batch_size; n; num_heads * d]) by (simpl; lia).
  apply tensor_eq; [exact HX|].
  intros p Hp.
  assert (Hp' : p < batch_size * n * num_heads * d) by (simpl in Hp; lia).
  destruct (swap_index_involutive batch_size n num_heads d p Hp') as [E B].
  rewrite get_tabulate by exact B. now rewrite E.
Qed.

(** ** Heads *)

Lemma lt_mul_add (a i n0 n1 : nat) : a < n0 -> i < n1 -> a * n1 + i < n0 * n1.
Proof. intros Ha Hi. nia. Qed.

Lemma split2 (P : nat -> Prop) (n0 n1 : nat) :
  (forall a i, a < n0 -> i < n1 -> P (a * n1 + i)) ->
  forall p, p < n0 * n1 -> P p.
Proof.
  intros HP p Hp. destruct (div_mod_lt _ _ _ Hp) as [Ha Hi].
  rewrite (Nat.div_mod_eq p n1), (Nat.mul_comm n1). now apply HP.
Qed.

Lemma split4 (P : nat -> Prop) (n0 n1 n2 n3 : nat) :
  (forall a i j l, a < n0 -> i < n1 -> j < n2 -> l < n3 ->
                   P (((a * n1 + i) * n2 + j) * n3 + l)) ->
  forall p, p < n0 * n1 * n2 * n3 -> P p.
Proof.
  intros HP p Hp.
  assert (H3 : 0 < n3) by (destruct n3; lia).
  assert (H2 : 0 < n2) by (destruct n2; lia).
  assert (H1 : 0 < n1) by (destruct n1; lia).
  rewrite <- (undigits4 p n1 n2 n3). apply HP.
  - apply Nat.Div0.div_lt_upper_bound. lia.
  - apply Nat.mod_upper_bound. lia.
  - apply Nat.mod_upper_bound. lia.
  - apply Nat.mod_upper_bound. lia.
Qed.

Lemma swap_index_digits (a i j l n1 n2 n3 : nat) :
  i < n1 -> j < n2 -> l < n3 ->
  swap_index n2 n1 n3 (((a * n1 + i) * n2 + j) * n3 + l)
  = ((a * n2 + j) * n1 + i) * n3 + l.
Proof.
  intros Hi Hj Hl. unfold swap_index.
  destruct (digits4 a i j l n1 n2 n3 Hi Hj Hl) as (-> & -> & -> & ->).
  reflexivity.
Qed.

Lemma channel_ok Y (n o : nat) sh :
  shape Y = n :: sh -> o < n -> channel Y o = Ok (item Y sh o).
Proof.
  intros EY Ho. unfold channel. rewrite EY.
  now replace (o <? n) with true by (symmetry; now apply Nat.ltb_lt).
Qed.

Lemma channel_mk (n o : nat) sh (dat : list R) :
  o < n -> channel (mkT (n :: sh) dat) o = Ok (item (mkT (n :: sh) dat) sh o).
Proof. intros Ho. now apply (channel_ok _ n). Qed.

(** Example [ih] of the batch that [transpose_qkv] builds is head
    [ih mod H] of example [ih / H] of its argument. *)
Lemma item_heads X (b n H d ih : nat) :
  0 < d -> ih < b * H ->
  item (mkT [b * H; n; d]
          (tabulate (b * H * n * d) (fun p => get X (swap_index n H d p))))
       [n; d] ih
  = head_slice H d n (item X [n; H * d] (ih / H)) (ih mod H).
Proof.
  intros Hd. revert ih. apply split2. intros a h Ha Hh.
  destruct (div_mod_pair a h H Hh) as [-> ->].
  unfold item at 1, head_slice. f_equal. cbn [numel fold_right].
  rewrite Nat.mul_1_r. apply tabulate_ext. apply split2. intros r j Hr Hj.
  destruct (div_mod_pair r j d Hj) as [-> ->].
  assert (B1 : a * H + h + 1 <= b * H) by nia.
  assert (B2 : (a * H + h) * n + r + 1 <= b * H * n) by nia.
  rewrite get_tabulate by nia.
  replace ((a * H + h) * (n * d) + (r * d + j))
    with (((a * H + h) * n + r) * d + j) by ring.
  rewrite (swap_index_digits a h r j H n d Hh Hr Hj).
  rewrite get_item.
  - f_equal. cbn [numel fold_right]. ring.
  - cbn [numel fold_right]. rewrite Nat.mul_1_r, <- Nat.add_assoc.
    apply lt_mul_add; [exact Hr|]. now apply lt_mul_add.
Qed.

Lemma jnp_repeat0_value (V : tensor R) (n k : nat) sh :
  shape V = n :: sh ->
  jnp_repeat0 V k
  = mkT (n * k :: sh)
        (tabulate (n * k * numel sh)
           (fun p => get V (p / numel sh / k * numel sh + p mod numel sh))).
Proof. intros EV. unfold jnp_repeat0. now rewrite EV. Qed.

(** Slice [ih] of a tensor repeated [k] times is slice [ih / k]. *)
Lemma item_repeat (V : tensor R) (n k ih : nat) sh :
  ih < n * k ->
  item (mkT (n * k :: sh)
          (tabulate (n * k * numel sh)
             (fun p => get V (p / numel sh / k * numel sh + p mod numel sh))))
       sh ih
  = item V sh (ih / k).
Proof.
  intros Hih. unfold item. f_equal. apply tabulate_ext. intros p Hp.
  rewrite get_tabulate by nia.
  destruct (div_mod_pair ih p (numel sh) Hp) as [-> ->]. reflexivity.
Qed.

Lemma mapM_ext_seq {B : Type} (f g : nat -> result B) (n : nat) :
  (forall i, i < n -> f i = g i) -> mapM f (seq 0 n) = mapM g (seq 0 n).
Proof.
  intros E. assert (E' : forall i, In i (seq 0 n) -> f i = g i).
  { intros i Hi. apply in_seq in Hi. apply E. lia. }
  induction (seq 0 n) as [|i l IH]; [reflexivity|].
  cbn [mapM]. rewrite (E' i) by now left.
  rewrite IH; [reflexivity|]. intros; apply E'; now right.
Qed.

Lemma mapM_seq_inv {B : Type} (g : nat -> result B) (n : nat) (d : B) :
  (forall i, i < n -> exists y, g i = Ok y) ->
  exists ys, mapM g (seq 0 n) = Ok ys /\ length ys = n
             /\ forall i, i < n -> g i = Ok (nth i ys d).
Proof.
  revert g. induction n as [|n IH]; intros g Hg.
  - exists []. repeat split; auto. intros; lia.
  - destruct (Hg 0 ltac:(lia)) as [y0 E0].
    destruct (IH (fun i => g (S i))) as (ys & E & L & N).
    { intros i Hi. apply Hg. lia. }
    exists (y0 :: ys). cbn [seq mapM]. rewrite E0. cbn [bind].
    rewrite <- seq_shift.
    assert (Em : forall l, mapM g (map S l) = mapM (fun i => g (S i)) l).
    { induction l as [|x l IHl]; [reflexivity|]. cbn [map mapM]. now rewrite IHl. }
    rewrite Em, E. cbn [bind]. repeat split.
    + simpl. now rewrite L.
    + intros [|i] Hi; [exact E0|]. simpl. apply N. lia.
Qed.

Lemma has_shape_head_slice (H d n h : nat) (M : tensor R) :
  has_shape (head_slice H d n M h) [n; d].
Proof. apply has_shape_mk. simpl. lia. Qed.

Lemma map_nth_tabulate {A B : Type} (f : A -> B) (l : list A) (d : A) :
  map f l = tabulate (length l) (fun i => f (nth i l d)).
Proof.
  rewrite (list_eq_tabulate l d) at 1. now rewrite map_tabulate.
Qed.

(** The outputs of the heads, stacked by [(example, head)] and passed
    through [transpose_output], are the heads of each example side by side. *)
Lemma transpose_output_heads (F : nat -> tensor R) (b nq H d : nat) :
  0 < b -> 0 < nq -> 0 < H -> 0 < d ->
  (forall i, i < b * H -> has_shape (F i) [nq; d]) ->
  (O <- pack (tabulate (b * H) F) ;; transpose_output H O)
  = pack (tabulate b (fun i =>
            concat_heads nq d (tabulate H (fun h => F (i * H + h))))).
Proof.
  intros Hb Hnq HH Hd HF.
  rewrite (pack_tabulate (b * H) F [nq; d]) by (auto; nia). cbn [bind].
  rewrite (transpose_output_value _ b nq H d); auto.
  2:{ apply has_shape_mk. simpl. lia. }
  rewrite (pack_tabulate b _ [nq; H * d]); auto.
  2:{ intros i Hi. unfold concat_heads. rewrite length_tabulate.
      apply has_shape_mk. simpl. lia. }
  f_equal. f_equal.
  replace (b * numel [nq; H * d]) with (b * nq * H * d) by (simpl; ring).
  apply tabulate_ext. apply split4. intros a r h j Ha Hr Hh Hj.
  rewrite (swap_index_digits a r h j nq H d Hr Hh Hj).
  assert (B1 : a * H + h < b * H) by now apply lt_mul_add.
  assert (B2 : r * d + j < nq * d) by now apply lt_mul_add.
  assert (B3 : h * d + j < H * d) by now apply lt_mul_add.
  assert (B4 : r * (H * d) + (h * d + j) < nq * (H * d)) by now apply lt_mul_add.
  rewrite get_tabulate.
  2:{ replace (((a * H + h) * nq + r) * d + j)
        with ((a * H + h) * (nq * d) + (r * d + j)) by ring.
      replace (numel [nq; d]) with (nq * d) by (simpl; lia).
      now apply lt_mul_add. }
  replace (((a * H + h) * nq + r) * d + j)
    with ((a * H + h) * numel [nq; d] + (r * d + j)) by (simpl; ring).
  replace (((a * nq + r) * H + h) * d + j)
    with (a * numel [nq; H * d] + (r * (H * d) + (h * d + j))) by (simpl; ring).
  assert (N1 : numel [nq; d] = nq * d) by (simpl; lia).
  assert (N2 : numel [nq; H * d] = nq * (H * d)) by (simpl; lia).
  destruct (div_mod_pair (a * H + h) (r * d + j) (numel [nq; d])) as [-> ->];
    [lia|].
  destruct (div_mod_pair a (r * (H * d) + (h * d + j)) (numel [nq; H * d]))
    as [-> ->]; [lia|].
  unfold concat_heads. rewrite length_tabulate.
  rewrite get_tabulate by exact B4.
  destruct (div_mod_pair r (h * d + j) (H * d) B3) as [-> ->].
  destruct (div_mod_pair h j d Hj) as [-> ->].
  now rewrite nth_tabulate.
Qed.

End HeadFacts.

(** ** Multi-head attention *)

Section AttentionFacts.

Context {R : Type} {SR : Scalar R}.

Variable num_heads : nat.
Variables W_q W_k W_v W_o : tensor R -> result (tensor R).
Variable attention :
  tensor R -> tensor R -> tensor R -> option (tensor R) -> bool ->
  result (tensor R * tensor R).
Variable pool : @pooling R.

Lemma valid_lens_repeat (valid_lens : option (tensor R)) (b nq : nat) :
  valid_lens_ok valid_lens b nq ->
  let vl' := match valid_lens with
             | Some vl => Some (jnp_repeat0 vl num_heads)
             | None => None
             end in
  valid_lens_ok vl' (b * num_heads) nq
  /\ forall ih, ih < b * num_heads ->
       match vl' with
       | Some t => x <- channel t ih ;; Ok (Some x)
       | None => Ok None
       end
       = Ok (match valid_lens with
             | Some t => Some (item t (tl (shape t)) (ih / num_heads))
             | None => None
             end).
Proof.
  destruct valid_lens as [vl|]; cbn [valid_lens_ok]; cbv zeta.
  - intros Hv.
    assert (Hs : exists sh, shape vl = b :: sh /\ (sh = [] \/ sh = [nq])).
    { destruct Hv as [[E _]|[E _]]; eexists; split; eauto. }
    destruct Hs as (sh & Evl & Hsh).
    rewrite (jnp_repeat0_value vl b num_heads sh Evl). split.
    + cbn [valid_lens_ok]. destruct Hsh as [-> | ->]; [left|right];
        apply has_shape_mk; simpl; lia.
    + intros ih Hih. rewrite (channel_mk _ _ _ _ Hih).
      cbn [bind]. rewrite Evl. cbn [tl]. now rewrite item_repeat.
  - intros _. repeat split.
Qed.

(** With projections to [num_heads * d] features, `__call__` returns what
    the multi-head formula returns for heads of [d] features. *)
Lemma MultiHeadAttention_call_per_head
    (queries keys values : tensor R) (valid_lens : option (tensor R))
    (training : bool) (b nq nk d dq dk dv : nat) :
  0 < b -> 0 < nq -> 0 < nk -> 0 < num_heads -> 0 < d ->
  has_shape queries [b; nq; dq] -> has_shape keys [b; nk; dk] ->
  has_shape values [b; nk; dv] ->
  valid_lens_ok valid_lens b nq ->
  dense_layer dq (num_heads * d) W_q -> dense_layer dk (num_heads * d) W_k ->
  dense_layer dv (num_heads * d) W_v ->
  pool_shapes pool -> batchwise pool attention ->
  MultiHeadAttention_call num_heads W_q W_k W_v W_o attention
    queries keys values valid_lens training
  = multi_head_formula num_heads W_q W_k W_v W_o pool
      queries keys values valid_lens training b nq nk d.
Proof.
  intros Hb Hnq Hnk HH Hd Hqs Hks Hvs Hvl DQ DK DV HP HB.
  destruct (DQ queries b nq Hqs) as (Q & EQ & HQ).
  destruct (DK keys b nk Hks) as (K & EK & HK).
  destruct (DV values b nk Hvs) as (V & EV & HV).
  unfold MultiHeadAttention_call, multi_head_formula.
  rewrite EQ, EK, EV. cbn [bind].
  rewrite (transpose_qkv_value Q b nq num_heads d HQ) by assumption.
  rewrite (transpose_qkv_value K b nk num_heads d HK) by assumption.
  rewrite (transpose_qkv_value V b nk num_heads d HV) by assumption.
  cbn [bind].
  destruct (valid_lens_repeat valid_lens b nq Hvl) as (Hvl' & Evl).
  cbv zeta in Hvl', Evl. cbv zeta.
  set (vl' := match valid_lens with
              | Some vl => Some (jnp_repeat0 vl num_heads)
              | None => None
              end) in *.
  assert (HbH : 0 < b * num_heads) by (apply Nat.mul_pos_pos; assumption).
  rewrite (HB _ _ _ vl' training (b * num_heads) nq nk d); auto;
    try (apply has_shape_mk; simpl; lia).
  unfold batched. cbn [shape hd].
  erewrite mapM_ext_seq.
  2:{ intros ih Hih.
      rewrite !(channel_mk _ _ _ _ Hih). cbn [bind].
      rewrite (Evl ih Hih). cbn [bind].
      rewrite !item_heads by assumption. reflexivity. }
  cbv zeta.
  match goal with
  | |- context [mapM ?g (seq 0 (b * num_heads))] =>
      destruct (mapM_seq_inv g (b * num_heads) (mkT [] [], mkT [] []))
        as (heads & -> & Lh & Nh)
  end.
  { intros ih Hih.
    destruct (HP (head_slice num_heads d nq (item Q [nq; num_heads * d] (ih / num_heads))
                    (ih mod num_heads))
                 (head_slice num_heads d nk (item K [nk; num_heads * d] (ih / num_heads))
                    (ih mod num_heads))
                 (head_slice num_heads d nk (item V [nk; num_heads * d] (ih / num_heads))
                    (ih mod num_heads))
                 (match valid_lens with
                  | Some t => Some (item t (tl (shape t)) (ih / num_heads))
                  | None => None
                  end) training nq nk d)
      as (o & a & E & _); try apply has_shape_head_slice.
    eexists. exact E. }
  cbn [bind].
  assert (HF : forall i, i < b * num_heads ->
                 has_shape (fst (nth i heads (mkT [] [], mkT [] []))) [nq; d]).
  { intros i Hi. specialize (Nh i Hi). cbv beta in Nh.
    destruct (HP (head_slice num_heads d nq (item Q [nq; num_heads * d] (i / num_heads))
                    (i mod num_heads))
                 (head_slice num_heads d nk (item K [nk; num_heads * d] (i / num_heads))
                    (i mod num_heads))
                 (head_slice num_heads d nk (item V [nk; num_heads * d] (i / num_heads))
                    (i mod num_heads))
                 (match valid_lens with
                  | Some t => Some (item t (tl (shape t)) (i / num_heads))
                  | None => None
                  end) training nq nk d)
      as (o & a & E & Ho & _); try apply has_shape_head_slice.
    rewrite E in Nh. injection Nh as Nh. now rewrite <- Nh. }
  pose proof (transpose_output_heads
                (fun i => fst (nth i heads (mkT [] [], mkT [] [])))
                b nq num_heads d Hb Hnq HH Hd HF) as HT.
  rewrite <- HT.
  rewrite (map_nth_tabulate fst heads (mkT [] [], mkT [] [])), Lh.
  rewrite (pack_tabulate (b * num_heads) _ [nq; d] HbH HF). cbn [bind].
  destruct (pack (map snd heads)) as [A|e]; cbn [bind fst snd]; reflexivity.
Qed.

(** C4 (as amended): on non-empty queries, keys and values, with
    projections to [num_hiddens >= 1] features, [num_hiddens] a multiple of
    [num_heads], and `valid_lens` absent or of shape (batch_size,) or
    (batch_size, num_queries), `__call__` returns exactly what the
    multi-head formula returns: head [h] of example [i] is pooled from the
    [h]-th blocks of [num_hiddens / num_heads] columns of the projections
    of that example and from the valid length of that example (what the
    repeat of `valid_lens` between the steps is for), the heads are put
    side by side and projected by [W_o].  The dense projections and the
    pooling are the layers of the libraries, taken with their contract. *)
Theorem MultiHeadAttention_call_formula
    (queries keys values : tensor R) (valid_lens : option (tensor R))
    (training : bool)
    (batch_size num_queries num_kvpairs num_hiddens dq dk dv : nat) :
  has_shape queries [batch_size; num_queries; dq] ->
  has_shape keys [batch_size; num_kvpairs; dk] ->
  has_shape values [batch_size; num_kvpairs; dv] ->
  Nat.divide num_heads num_hiddens ->
  0 < batch_size -> 0 < num_queries -> 0 < num_kvpairs -> 0 < num_hiddens ->
  valid_lens_ok valid_lens batch_size num_queries ->
  dense_layer dq num_hiddens W_q -> dense_layer dk num_hiddens W_k ->
  dense_layer dv num_hiddens W_v ->
  pool_shapes pool -> batchwise pool attention ->
  MultiHeadAttention_call num_heads W_q W_k W_v W_o attention
    queries keys values valid_lens training
  = multi_head_formula num_heads W_q W_k W_v W_o pool
      queries keys values valid_lens training
      batch_size num_queries num_kvpairs (num_hiddens / num_heads).
Proof.
  intros Hqs Hks Hvs [d Hdiv] Hb Hnq Hnk Hh Hvl DQ DK DV HP HB.
  assert (Hd : 0 < d) by (destruct d; lia).
  assert (HH : 0 < num_heads) by (destruct num_heads; lia).
  rewrite Nat.mul_comm in Hdiv. subst num_hiddens.
  rewrite (Nat.mul_comm num_heads d), Nat.div_mul by lia.
  now apply (MultiHeadAttention_call_per_head queries keys values valid_lens
               training batch_size num_queries num_kvpairs d dq dk dv).
Qed.

(** C6 (as amended): on non-empty inputs, with [num_hiddens] a multiple of
    [num_heads] and `valid_lens` absent or of shape (batch_size,) or
    (batch_size, num_queries), the first output of `__call__` has shape
    (batch_size, num_queries, num_hiddens). *)
Theorem MultiHeadAttention_call_shape
    (queries keys values : tensor R) (valid_lens : option (tensor R))
    (training : bool) (batch_size num_queries num_kvpairs num_hiddens : nat) :
  has_shape queries [batch_size; num_queries; num_hiddens] ->
  has_shape keys [batch_size; num_kvpairs; num_hiddens] ->
  has_shape values [batch_size; num_kvpairs; num_hiddens] ->
  Nat.divide num_heads num_hiddens ->
  0 < batch_size -> 0 < num_queries -> 0 < num_kvpairs -> 0 < num_hiddens ->
  valid_lens_ok valid_lens batch_size num_queries ->
  dense_layer num_hiddens num_hiddens W_q ->
  dense_layer num_hiddens num_hiddens W_k ->
  dense_layer num_hiddens num_hiddens W_v ->
  dense_layer num_hiddens num_hiddens W_o ->
  attention_shapes attention ->
  exists out A,
    MultiHeadAttention_call num_heads W_q W_k W_v W_o attention
      queries keys values valid_lens training = Ok (out, A)
    /\ has_shape out [batch_size; num_queries; num_hiddens].
Proof.
  intros Hqs Hks Hvs [d Hdiv] Hb Hnq Hnk Hh Hvl DQ DK DV DO HA.
  assert (Hd : 0 < d) by (destruct d; lia).
  assert (HH : 0 < num_heads) by (destruct num_heads; lia).
  rewrite Nat.mul_comm in Hdiv. subst num_hiddens.
  destruct (DQ queries _ _ Hqs) as (Q & EQ & HQ).
  destruct (DK keys _ _ Hks) as (K & EK & HK).
  destruct (DV values _ _ Hvs) as (V & EV & HV).
  unfold MultiHeadAttention_call. rewrite EQ, EK, EV. cbn [bind].
  rewrite (transpose_qkv_value Q _ _ num_heads d HQ) by assumption.
  rewrite (transpose_qkv_value K _ _ num_heads d HK) by assumption.
  rewrite (transpose_qkv_value V _ _ num_heads d HV) by assumption.
  cbn [bind].
  destruct (valid_lens_repeat valid_lens _ _ Hvl) as (Hvl' & _).
  cbv zeta in Hvl'. cbv zeta.
  set (vl' := match valid_lens with
              | Some vl => Some (jnp_repeat0 vl num_heads)
              | None => None
              end) in *.
  assert (HbH : 0 < batch_size * num_heads) by (apply Nat.mul_pos_pos; assumption).
  match goal with
  | |- context [attention ?q ?k ?v _ _] =>
      destruct (HA q k v vl' training (batch_size * num_heads)
                  num_queries num_kvpairs d HbH)
        as (O & A & -> & HO & _); auto; try (apply has_shape_mk; simpl; lia)
  end.
  cbn [bind fst snd].
  rewrite (transpose_output_value O _ _ num_heads d HO) by assumption.
  cbn [bind].
  destruct (DO (mkT [batch_size; num_queries; num_heads * d]
                  (tabulate (batch_size * num_queries * num_heads * d)
                     (fun p => get O (swap_index num_heads num_queries d p))))
               batch_size num_queries) as (out & -> & Hout).
  { apply has_shape_mk. simpl. lia. }
  cbn [bind]. now exists out, A.
Qed.

End AttentionFacts.

(** ** The concrete layers *)

Section LayerFacts.

Context {R : Type} {SR : Scalar R}.

Lemma dense_is_dense_layer (kernel : tensor R) (d_in d_out : nat) :
  shape kernel = [d_in; d_out] -> 0 < d_in -> dense_layer d_in d_out (dense kernel).
Proof.
  intros Ek Hd X b n [EX LX]. unfold dense. rewrite Ek, EX.
  cbn [rev app removelast]. rewrite Nat.eqb_refl.
  replace (0 <? d_in) with true by (symmetry; now apply Nat.ltb_lt).
  cbn [andb].
  eexists. split; [reflexivity|]. apply has_shape_mk. simpl. lia.
Qed.

Lemma mapM_seq_inv_prop {B : Type} (g : nat -> result B) (n : nat) (d : B)
    (P : B -> Prop) :
  (forall i, i < n -> exists y, g i = Ok y /\ P y) ->
  exists ys, mapM g (seq 0 n) = Ok ys /\ length ys = n
             /\ forall i, i < n -> P (nth i ys d).
Proof.
  intros Hg. destruct (mapM_seq_inv g n d) as (ys & E & L & N).
  { intros i Hi. destruct (Hg i Hi) as (y & Ey & _). now exists y. }
  exists ys. repeat split; auto. intros i Hi.
  destruct (Hg i Hi) as (y & Ey & Py). rewrite (N i Hi) in Ey.
  injection Ey as <-. exact Py.
Qed.

(** A pooling applied example by example has the shapes of an attention
    layer. *)
Lemma batched_shapes (pool : @pooling R) :
  pool_shapes pool -> attention_shapes (batched pool).
Proof.
  intros HP Q K V vl tr B nq nk d HB HQ HK HV Hvl. unfold batched.
  rewrite (proj1 HQ). cbn [hd].
  match goal with
  | |- context [mapM ?g (seq 0 B)] =>
      destruct (mapM_seq_inv_prop g B (mkT [] [], mkT [] [])
                  (fun oa => has_shape (fst oa) [nq; d] /\ has_shape (snd oa) [nq; nk]))
        as (rs & -> & L & N)
  end.
  { intros i Hi.
    rewrite (channel_ok Q B i _ (proj1 HQ) Hi).
    rewrite (channel_ok K B i _ (proj1 HK) Hi).
    rewrite (channel_ok V B i _ (proj1 HV) Hi). cbn [bind].
    assert (El : exists l, match vl with
                           | Some t => x <- channel t i ;; Ok (Some x)
                           | None => Ok None
                           end = Ok l).
    { destruct vl as [t|]; [|now eexists]. cbn [valid_lens_ok] in Hvl.
      destruct Hvl as [[E _]|[E _]]; rewrite (channel_ok t B i _ E Hi);
        now eexists. }
    destruct El as (l & ->). cbn [bind].
    destruct (HP (item Q [nq; d] i) (item K [nk; d] i) (item V [nk; d] i) l tr nq nk d)
      as (o & a & E & Ho & Ha); try apply item_has_shape.
    exists (o, a). auto. }
  cbn [bind].
  rewrite (map_nth_tabulate fst rs (mkT [] [], mkT [] [])), L.
  rewrite (map_nth_tabulate snd rs (mkT [] [], mkT [] [])), L.
  rewrite (pack_tabulate B _ [nq; d] HB) by (intros i Hi; apply (N i Hi)).
  rewrite (pack_tabulate B _ [nq; nk] HB) by (intros i Hi; apply (N i Hi)).
  cbn [bind]. do 2 eexists. split; [reflexivity|].
  split; apply has_shape_mk; reflexivity.
Qed.

Lemma batchwise_batched (pool : @pooling R) : batchwise pool (batched pool).
Proof. intros Q K V vl tr B nq nk d _ _ _ _ _. reflexivity. Qed.

End LayerFacts.

(** ** Variables and the store *)

Section StoreFacts.

Context {R : Type} {SR : Scalar R}.

Implicit Types (s : @store R) (v X K : @tval R).

Lemma extends_refl s : extends s s.
Proof. exists []. now rewrite app_nil_r. Qed.

Lemma extends_trans s1 s2 s3 : extends s1 s2 -> extends s2 s3 -> extends s1 s3.
Proof. intros [n1 ->] [n2 ->]. exists (n1 ++ n2). now rewrite app_assoc. Qed.

Lemma read_extends s s' v : valid s v -> extends s s' -> read s' v = read s v.
Proof.
  intros Hv [new ->]. destruct v as [t|r]; [reflexivity|].
  simpl in *. now rewrite app_nth1.
Qed.

Lemma valid_extends s s' v : valid s v -> extends s s' -> valid s' v.
Proof.
  intros Hv [new ->]. destruct v as [t|r]; [exact I|].
  simpl in *. rewrite length_app. lia.
Qed.

Lemma upd_last {A : Type} (l : list A) (a b : A) :
  upd (l ++ [a]) (length l) b = l ++ [b].
Proof. induction l as [|x l IH]; simpl; [reflexivity|]. now rewrite IH. Qed.

Lemma upd_middle {A : Type} (pre post : list A) (a b : A) :
  upd (pre ++ a :: post) (length pre) b = pre ++ b :: post.
Proof. induction pre as [|x pre IH]; simpl; [reflexivity|]. now rewrite IH. Qed.

(** Assigning the values [vs] to the positions [0 .. length vs - 1] one
    after the other leaves exactly [vs]. *)
Lemma fold_upd_seq {A : Type} (vs pre rest : list A) :
  length rest = length vs ->
  fold_left (fun d qv => upd d (fst qv) (snd qv))
            (combine (seq (length pre) (length vs)) vs) (pre ++ rest)
  = pre ++ vs.
Proof.
  revert pre rest. induction vs as [|x vs IH]; intros pre rest Hl.
  - destruct rest; [reflexivity|discriminate].
  - destruct rest as [|r rest]; [discriminate|]. simpl.
    rewrite upd_middle.
    replace (pre ++ x :: rest) with ((pre ++ [x]) ++ rest)
      by now rewrite <- app_assoc.
    replace (S (length pre)) with (length (pre ++ [x]))
      by (rewrite length_app; simpl; lia).
    rewrite IH by (simpl in Hl; lia). now rewrite <- app_assoc.
Qed.

Lemma fold_upd_seq0 {A : Type} (vs init : list A) :
  length init = length vs ->
  fold_left (fun d qv => upd d (fst qv) (snd qv))
            (combine (seq 0 (length vs)) vs) init
  = vs.
Proof. intros Hl. exact (fold_upd_seq vs [] init Hl). Qed.

Lemma mapM_length {A B : Type} (f : A -> result B) (l : list A) (bs : list B) :
  mapM f l = Ok bs -> length bs = length l.
Proof.
  revert bs. induction l as [|a l IH]; intros bs; simpl.
  - now intros [= <-].
  - destruct (f a) as [b|e]; simpl; [|discriminate].
    destruct (mapM f l) as [bs'|e]; simpl; [|discriminate].
    intros [= <-]. simpl. now rewrite (IH bs' eq_refl).
Qed.

(** The loops of d2l.corr2d only touch the variable they fill. *)
Lemma corr2d_loop s X K (x1 h w ow : nat) rest sh (qs : list nat) (dat : list R) :
  valid s X -> valid s K ->
  let cell q :=
    P <- tf_mul (window (read s X) x1 rest (q / ow) h (q mod ow) w) (read s K) ;;
    Ok (reduce_sum_all P) in
  let body q :=
    bindM (get_value X) (fun Xq =>
    bindM (get_value K) (fun Kq =>
    bindM (lift (tf_mul (window Xq x1 rest (q / ow) h (q mod ow) w) Kq))
          (fun P => assign_at (length s) q (reduce_sum_all P)))) in
  exists dat' r,
    mapM_M body qs (s ++ [mkT sh dat]) = (r, s ++ [mkT sh dat'])
    /\ match mapM cell qs with
       | Ok vs => (exists us, r = Ok us)
                  /\ dat' = fold_left (fun d qv => upd d (fst qv) (snd qv))
                                      (combine qs vs) dat
       | Err e => r = Err e
       end.
Proof.
  intros HX HK cell body. revert dat.
  induction qs as [|q qs IH]; intros dat.
  - exists dat, (Ok []). split; [reflexivity|]. simpl. split; eauto.
  - cbn [mapM_M mapM]. unfold bindM at 1. unfold body at 1.
    unfold bindM at 1, get_value at 1. cbn [fst snd].
    unfold bindM at 1, get_value at 1. unfold bindM at 1, lift at 1.
    rewrite (read_extends s (s ++ [mkT sh dat]) X HX) by now eexists.
    rewrite (read_extends s (s ++ [mkT sh dat]) K HK) by now eexists.
    unfold cell at 1.
    destruct (tf_mul (window (read s X) x1 rest (q / ow) h (q mod ow) w) (read s K))
      as [P|e]; cbn [bind].
    + unfold assign_at. rewrite nth_middle. cbn [shape data].
      rewrite upd_last.
      destruct (IH (upd dat q (reduce_sum_all P))) as (dat' & r & E & Hr).
      unfold bindM at 1. fold body. rewrite E.
      destruct (mapM cell qs) as [vs|e].
      * destruct Hr as [[us ->] ->]. exists (fold_left
          (fun d qv => upd d (fst qv) (snd qv)) (combine qs vs)
          (upd dat q (reduce_sum_all P))).
        eexists. split; [reflexivity|]. split; eauto.
      * subst r. exists dat'. eexists. split; reflexivity.
    + exists dat. eexists. split; reflexivity.
Qed.

Lemma corr2d_M_agrees s X K :
  valid s X -> valid s K ->
  agrees (corr2d_M X K s) s (corr2d (read s X) (read s K)).
Proof.
  intros HX HK. unfold corr2d_M, corr2d.
  unfold bindM at 1, get_value at 1.
  destruct (shape (read s K)) as [|h [|w [|a l]]];
    try (repeat split; [apply extends_refl|discriminate]).
  unfold bindM at 1, get_value at 1.
  destruct (shape (read s X)) as [|x0 [|x1 rest]];
    try (repeat split; [apply extends_refl|discriminate]).
  destruct ((h <=? x0 + 1) && (w <=? x1 + 1));
    [|repeat split; [apply extends_refl|discriminate]].
  cbv zeta. set (oh := x0 + 1 - h). set (ow := x1 + 1 - w).
  unfold bindM at 1, new_variable at 1.
  destruct (corr2d_loop s X K x1 h w ow rest [oh; ow] (seq 0 (oh * ow))
              (repeat zero (oh * ow)) HX HK) as (dat' & r & E & Hr).
  unfold bindM at 1. cbv zeta in E. rewrite E.
  cbv zeta in Hr.
  destruct (mapM _ (seq 0 (oh * ow))) as [vs|e] eqn:Em.
  - destruct Hr as [[us ->] ->]. cbn [bind].
    pose proof (mapM_length _ _ _ Em) as Lv. rewrite length_seq in Lv.
    rewrite <- Lv.
    rewrite fold_upd_seq0 by now rewrite repeat_length.
    repeat split.
    + now eexists.
    + unfold outcome, ret. cbn [fst snd read]. now rewrite nth_middle.
    + unfold ret. cbn [fst snd]. intros v [= <-]. cbn [valid].
      rewrite length_app. simpl. lia.
  - subst r. repeat split.
    + now eexists.
    + discriminate.
Qed.

Lemma mapM_M_cons {A B : Type} (f : A -> M (R := R) B) (a : A) (l : list A) s :
  mapM_M f (a :: l) s
  = match f a s with
    | (Ok b, s1) =>
        match mapM_M f l s1 with
        | (Ok bs, s2) => (Ok (b :: bs), s2)
        | (Err e, s2) => (Err e, s2)
        end
    | (Err e, s1) => (Err e, s1)
    end.
Proof. reflexivity. Qed.

Lemma mapM_M_agrees {A : Type} (f : A -> M (@tval R)) (g : A -> result (tensor R))
    (l : list A) (s0 : @store R) :
  (forall a s, In a l -> extends s0 s -> agrees (f a s) s (g a)) ->
  forall s, extends s0 s ->
    extends s (snd (mapM_M f l s))
    /\ match fst (mapM_M f l s) with
       | Ok vs => mapM g l = Ok (map (read (snd (mapM_M f l s))) vs)
                  /\ Forall (valid (snd (mapM_M f l s))) vs
       | Err e => mapM g l = Err e
       end.
Proof.
  induction l as [|a l IH]; intros Hf s Hs.
  - simpl. split; [apply extends_refl|]. split; constructor.
  - rewrite mapM_M_cons. cbn [mapM].
    destruct (Hf a s (or_introl eq_refl) Hs) as (He & Ho & Hv).
    destruct (f a s) as [[v|e] s1]; cbn [fst snd] in *.
    + unfold outcome in Ho. cbn [fst snd] in Ho. rewrite <- Ho. cbn [bind].
      specialize (Hv v eq_refl).
      destruct (IH (fun a' s' Ha => Hf a' s' (or_intror Ha)) s1
                  (extends_trans _ _ _ Hs He)) as (He1 & Hr).
      destruct (mapM_M f l s1) as [[vs|e] s2]; cbn [fst snd] in *.
      * destruct Hr as [-> HF]. cbn [bind]. split.
        -- now apply (extends_trans _ s1).
        -- split.
           ++ cbn [map]. now rewrite (read_extends s1 s2 v Hv He1).
           ++ constructor; [now apply (valid_extends s1)|exact HF].
      * rewrite Hr. split; [now apply (extends_trans _ s1)|reflexivity].
    + unfold outcome in Ho. cbn [fst snd] in Ho. rewrite <- Ho. now split.
Qed.

Lemma mapM_M_get_value s (vs : list (@tval R)) :
  mapM_M get_value vs s = (Ok (map (read s) vs), s).
Proof.
  induction vs as [|v vs IH]; [reflexivity|].
  cbn [mapM_M]. unfold bindM at 1, get_value at 1. unfold bindM at 1.
  now rewrite IH.
Qed.

(** A list of results read back and combined by a pure operation. *)
Lemma combine_results {A : Type} (f : A -> M (@tval R)) (g : A -> result (tensor R))
    (op : list (tensor R) -> result (tensor R)) (l : list A) s :
  (forall a s', In a l -> extends s s' -> agrees (f a s') s' (g a)) ->
  agrees (bindM (mapM_M f l) (fun ys =>
          bindM (mapM_M get_value ys) (fun ts =>
          bindM (lift (op ts)) (fun T => ret (Const T)))) s)
         s (ts <- mapM g l ;; op ts).
Proof.
  intros Hf. destruct (mapM_M_agrees f g l s Hf s (extends_refl s)) as (He & Hr).
  unfold bindM at 1.
  destruct (mapM_M f l s) as [[vs|e] s1]; cbn [fst snd] in *.
  - destruct Hr as [-> _]. cbn [bind].
    unfold bindM at 1. rewrite mapM_M_get_value.
    unfold bindM, lift, ret.
    destruct (op (map (read s1) vs)) as [T|e]; repeat split; auto.
    + intros v [= <-]. exact I.
    + discriminate.
  - rewrite Hr. repeat split; auto; discriminate.
Qed.

Lemma corr2d_multi_in_M_agrees s X K :
  valid s X -> valid s K ->
  agrees (corr2d_multi_in_M X K s) s (corr2d_multi_in (read s X) (read s K)).
Proof.
  intros HX HK. unfold corr2d_multi_in_M, corr2d_multi_in, zip, iter_M.
  unfold bindM at 1. unfold bindM at 1, get_value at 1, lift at 1.
  destruct (iter (read s X)) as [xs|e]; cbn [bind];
    [|repeat split; [apply extends_refl|discriminate]].
  unfold bindM at 1. unfold bindM at 1, get_value at 1, lift at 1.
  destruct (iter (read s K)) as [ks|e]; cbn [bind];
    [|repeat split; [apply extends_refl|discriminate]].
  apply (combine_results (fun '(x, k) => corr2d_M (Const x) (Const k))
           (fun '(x, k) => corr2d x k) tf_reduce_sum).
  intros [x k] s' _ _. now apply (corr2d_M_agrees s' (Const x) (Const k)).
Qed.

Lemma corr2d_multi_in_out_M_agrees s X K :
  valid s X -> valid s K ->
  agrees (corr2d_multi_in_out_M X K s) s
         (corr2d_multi_in_out (read s X) (read s K)).
Proof.
  intros HX HK. unfold corr2d_multi_in_out_M, corr2d_multi_in_out, iter_M.
  unfold bindM at 1. unfold bindM at 1, get_value at 1, lift at 1.
  destruct (iter (read s K)) as [ks|e]; cbn [bind];
    [|repeat split; [apply extends_refl|discriminate]].
  apply (combine_results (fun k => corr2d_multi_in_M X (Const k))
           (fun k => corr2d_multi_in (read s X) k) tf_stack).
  intros k s' _ Hs. rewrite <- (read_extends s s' X HX Hs).
  apply (corr2d_multi_in_M_agrees s' X (Const k)); [|exact I].
  now apply (valid_extends s).
Qed.

(** C8: a call only adds variables to the store, so its arguments (and
    every other variable that existed) keep their values; what it returns
    is the function of the argument values alone, the same in any store and
    for any representation of the arguments; the 1x1 form and the two
    transpositions leave the store as it is. *)
Theorem calls_are_deterministic_and_pure s X K :
  valid s X -> valid s K ->
  (let r := corr2d_multi_in_M X K s in
   extends s (snd r) /\ read (snd r) X = read s X /\ read (snd r) K = read s K
   /\ outcome r = corr2d_multi_in (read s X) (read s K))
  /\ (let r := corr2d_multi_in_out_M X K s in
      extends s (snd r) /\ read (snd r) X = read s X /\ read (snd r) K = read s K
      /\ outcome r = corr2d_multi_in_out (read s X) (read s K))
  /\ (let r := corr2d_multi_in_out_1x1_M X K s in
      snd r = s /\ outcome r = corr2d_multi_in_out_1x1 (read s X) (read s K))
  /\ (forall num_heads T,
        transpose_qkv_M num_heads T s = (transpose_qkv num_heads T, s)
        /\ transpose_output_M num_heads T s = (transpose_output num_heads T, s))
  /\ (forall s2 X2 K2, valid s2 X2 -> valid s2 K2 ->
        read s2 X2 = read s X -> read s2 K2 = read s K ->
        outcome (corr2d_multi_in_M X2 K2 s2) = outcome (corr2d_multi_in_M X K s)
        /\ outcome (corr2d_multi_in_out_M X2 K2 s2)
           = outcome (corr2d_multi_in_out_M X K s)
        /\ outcome (corr2d_multi_in_out_1x1_M X2 K2 s2)
           = outcome (corr2d_multi_in_out_1x1_M X K s)).
Proof.
  intros HX HK.
  assert (H1x1 : forall s' X' K',
            snd (corr2d_multi_in_out_1x1_M X' K' s') = s'
            /\ outcome (corr2d_multi_in_out_1x1_M X' K' s')
               = corr2d_multi_in_out_1x1 (read s' X') (read s' K')).
  { intros s' X' K'. unfold corr2d_multi_in_out_1x1_M, bindM, get_value, lift, ret.
    destruct (corr2d_multi_in_out_1x1 (read s' X') (read s' K')); split; reflexivity. }
  destruct (corr2d_multi_in_M_agrees s X K HX HK) as (E1 & O1 & _).
  destruct (corr2d_multi_in_out_M_agrees s X K HX HK) as (E2 & O2 & _).
  split; [|split; [|split; [|split]]].
  - cbv zeta. repeat split; auto using read_extends.
  - cbv zeta. repeat split; auto using read_extends.
  - apply H1x1.
  - intros num_heads T. split; reflexivity.
  - intros s2 X2 K2 HX2 HK2 EX EK.
    destruct (corr2d_multi_in_M_agrees s2 X2 K2 HX2 HK2) as (_ & O1' & _).
    destruct (corr2d_multi_in_out_M_agrees s2 X2 K2 HX2 HK2) as (_ & O2' & _).
    rewrite O1, O2, O1', O2', (proj2 (H1x1 s X K)), (proj2 (H1x1 s2 X2 K2)), EX, EK.
    repeat split.
Qed.

End StoreFacts.

Section ExactFacts.

Context {R : Type} {SR : Scalar R} {EA : ExactArith R}.

Implicit Types X K T : tensor R.

Lemma tabulate_app {A : Type} (n m : nat) (f : nat -> A) :
  tabulate (n + m) f = tabulate n f ++ tabulate m (fun i => f (n + i)).
Proof.
  unfold tabulate. rewrite seq_app, map_app. f_equal.
  rewrite <- (Nat.add_0_r n) at 1. rewrite Nat.add_comm.
  generalize 0 at 1 3 as s. induction m as [|m IH]; intros s; [reflexivity|].
  simpl. f_equal.
  - f_equal. lia.
  - rewrite <- IH. f_equal. f_equal. lia.
Qed.

Lemma sum_app (l1 l2 : list R) : sum (l1 ++ l2) = add (sum l1) (sum l2).
Proof.
  induction l1 as [|x l1 IH]; simpl.
  - now rewrite add_0_l.
  - fold (sum (l1 ++ l2)). fold (sum l1). now rewrite IH, add_assoc.
Qed.

(** A sum over a product range is a sum of sums. *)
Lemma sum_tabulate_mul (a b : nat) (f : nat -> R) :
  sum (tabulate (a * b) f)
  = sum (tabulate a (fun i => sum (tabulate b (fun j => f (i * b + j))))).
Proof.
  revert f. induction a as [|a IH]; intros f; [reflexivity|].
  rewrite tabulate_S. cbn [Nat.mul]. rewrite tabulate_app, sum_app, IH.
  change (sum (?x :: ?l)) with (add x (sum l)).
  f_equal. f_equal. apply tabulate_ext. intros i Hi.
  f_equal. apply tabulate_ext. intros j Hj. f_equal. lia.
Qed.

(** The result in terms of the direct formula, on the channels that both
    arguments have. *)
Lemma corr2d_multi_in_direct_min X K (cx ck h w kh kw : nat) :
  shape X = [cx; h; w] -> shape K = [ck; kh; kw] ->
  kh <= h -> kw <= w -> 0 < Nat.min cx ck ->
  corr2d_multi_in X K = Ok (direct_sum X K (Nat.min cx ck) h w kh kw).
Proof.
  intros EX EK Hh Hw Hc.
  rewrite (corr2d_multi_in_closed X K cx ck h w kh kw EX EK) by lia.
  unfold direct_sum.
  replace (h - kh + 1) with (h + 1 - kh) by lia.
  replace (w - kw + 1) with (w + 1 - kw) by lia.
  f_equal. f_equal. apply tabulate_ext. intros q Hq. cbv zeta.
  unfold multi_in_cell. f_equal.
  apply tabulate_ext. intros c Hcc.
  rewrite sum_tabulate_mul. f_equal.
  apply tabulate_ext. intros a Ha. f_equal.
  apply tabulate_ext. intros b Hb.
  destruct (div_mod_lt _ _ _ Hq) as [Hi Hj].
  destruct (div_mod_pair a b kw Hb) as [Ea Eb].
  unfold tap. rewrite Ea, Eb.
  rewrite !get_item.
  - unfold at3. cbn [numel fold_right]. f_equal; f_equal; lia.
  - cbn [numel fold_right]. nia.
  - cbn [numel fold_right]. nia.
Qed.

(** C2 (as amended): with at least one channel and a kernel that fits,
    [corr2d_multi_in] returns the tensor of the direct formula, the sum over
    the channels [c] and the kernel positions [(a, b)] of
    [X[c, i + a, j + b] * K[c, a, b]]. *)
Theorem corr2d_multi_in_direct X K (c_i h w kh kw : nat) :
  has_shape X [c_i; h; w] -> has_shape K [c_i; kh; kw] ->
  kh <= h -> kw <= w -> 0 < c_i ->
  corr2d_multi_in X K = Ok (direct_sum X K c_i h w kh kw).
Proof.
  intros [EX _] [EK _] Hh Hw Hc.
  rewrite (corr2d_multi_in_direct_min X K c_i c_i h w kh kw EX EK Hh Hw)
    by (rewrite Nat.min_id; exact Hc).
  now rewrite Nat.min_id.
Qed.

(** C9 (as amended): when the channel counts differ, [corr2d_multi_in]
    behaves as on the first min(c_x, c_k) channels of both arguments, so the
    mismatch raises nothing; with a kernel that fits the call returns, and
    what it returns is the direct formula over these channels only (the
    0-d tensor 0 when there is none). *)
Theorem corr2d_multi_in_channel_mismatch X K (c_x c_k h w kh kw : nat) :
  has_shape X [c_x; h; w] -> has_shape K [c_k; kh; kw] -> c_x <> c_k ->
  corr2d_multi_in X K
  = corr2d_multi_in (first_channels (Nat.min c_x c_k) X)
                    (first_channels (Nat.min c_x c_k) K)
  /\ (kh <= h -> kw <= w ->
      corr2d_multi_in X K
      = Ok (if Nat.min c_x c_k =? 0 then mkT [] [zero]
            else direct_sum X K (Nat.min c_x c_k) h w kh kw)).
Proof.
  intros [EX _] [EK _] Hne. split.
  - now apply (corr2d_multi_in_truncates X K c_x c_k h w kh kw).
  - intros Hh Hw. destruct (Nat.eqb_spec (Nat.min c_x c_k) 0) as [Hm|Hm].
    + now apply (corr2d_multi_in_no_channel X K c_x c_k _ _ EX EK).
    + apply corr2d_multi_in_direct_min; auto. lia.
Qed.

(** The 1x1 convolution as a matrix product. *)
Lemma corr2d_multi_in_out_1x1_value X K (c_i c_o h w : nat) :
  has_shape X [c_i; h; w] -> has_shape K [c_o; c_i; 1; 1] ->
  corr2d_multi_in_out_1x1 X K
  = Ok (mkT [c_o; h; w]
          (tabulate (c_o * (h * w))
             (fun q => sum (tabulate c_i
                (fun c => mul (get K (q / (h * w) * c_i + c))
                              (get X (c * (h * w) + q mod (h * w)))))))).
Proof.
  intros [EX LX] [EK LK]. unfold corr2d_multi_in_out_1x1. rewrite EX, EK.
  unfold tf_reshape at 1. rewrite LX.
  replace (numel [c_i; h; w] =? numel [c_i; h * w]) with true
    by (symmetry; apply Nat.eqb_eq; simpl; lia).
  cbn [bind]. unfold tf_reshape at 1. rewrite LK.
  replace (numel [c_o; c_i; 1; 1] =? numel [c_o; c_i]) with true
    by (symmetry; apply Nat.eqb_eq; simpl; lia).
  cbn [bind]. unfold tf_matmul. cbn [shape]. rewrite Nat.eqb_refl.
  cbn [bind]. unfold tf_reshape. cbn [data]. rewrite length_tabulate.
  replace (c_o * (h * w) =? numel [c_o; h; w]) with true
    by (symmetry; apply Nat.eqb_eq; simpl; lia).
  reflexivity.
Qed.

(** C1 (as amended): with at least one input and one output channel, the
    matrix-product form of the 1x1 convolution and the cross-correlation
    form return the same tensor (in exact arithmetic). *)
Theorem corr2d_multi_in_out_1x1_equiv X K (c_i c_o h w : nat) :
  has_shape X [c_i; h; w] -> has_shape K [c_o; c_i; 1; 1] ->
  0 < c_i -> 0 < c_o ->
  exists Y, corr2d_multi_in_out_1x1 X K = Ok Y /\ corr2d_multi_in_out X K = Ok Y.
Proof.
  intros HX HK Hci Hco.
  rewrite (corr2d_multi_in_out_1x1_value X K c_i c_o h w HX HK).
  eexists. split; [reflexivity|].
  destruct HX as [EX _], HK as [EK _].
  rewrite (corr2d_multi_in_out_value X K c_i c_i c_o h w 1 1 EX EK).
  unfold multi_in_out_value.
  replace (c_o =? 0) with false by (symmetry; apply Nat.eqb_neq; lia).
  rewrite min_pos_neqb by lia. rewrite leb_fit by lia.
  rewrite !Nat.add_sub, Nat.min_id. f_equal. f_equal.
  apply tabulate_ext. intros q Hq.
  assert (Hhw : h * w <> 0) by (intros E; rewrite E in Hq; lia).
  assert (Hw : w <> 0) by (intros ->; lia).
  pose proof (Nat.mod_upper_bound q (h * w) Hhw) as Hr.
  unfold multi_in_cell. f_equal. apply tabulate_ext. intros c Hc.
  cbn [Nat.mul Nat.add tabulate seq map sum fold_right].
  rewrite add_0_r, mul_comm. unfold tap.
  rewrite Nat.div_1_r, Nat.mod_1_r, !Nat.add_0_r, !Nat.add_sub.
  rewrite !get_item.
  - cbn [numel fold_right]. f_equal; f_equal.
    + lia.
    + rewrite (Nat.div_mod_eq (q mod (h * w)) w) at 3. lia.
  - cbn [numel fold_right].
    rewrite (Nat.mul_comm (q mod (h * w) / w)), <- Nat.div_mod_eq. lia.
  - cbn [numel fold_right]. lia.
  - cbn [numel fold_right]. lia.
Qed.

End ExactFacts.

(** The shapes of C10 on the tensors of the figure. *)
Lemma corr2d_multi_shapes_witness :
  (exists Y, corr2d_multi_in X_fig K_fig = Ok Y /\ has_shape Y [3 - 2 + 1; 3 - 2 + 1])
  /\ (exists Y, corr2d_multi_in_out X_fig K4_fig = Ok Y
                /\ has_shape Y [3; 3 - 2 + 1; 3 - 2 + 1])
  /\ (exists Y, corr2d_multi_in_out X_fig K1_fig = Ok Y /\ has_shape Y [3; 3; 3]).
Proof.
  destruct (corr2d_multi_shapes X_fig K_fig K4_fig K1_fig 2 3 3 3 2 2)
    as (H1 & H2 & H3); try (split; reflexivity); try lia.
  split; [|split].
  - apply H1. split; reflexivity.
  - apply H2; [lia|split; reflexivity].
  - apply H3; [lia|split; reflexivity].
Defined.

(** C10, as stated, fails without input channels, where the sum of an
    empty list of correlations is the 0-d tensor 0 whatever the height and
    width, and without output channels, where the stack of an empty list
    is the empty vector. *)
Lemma corr2d_multi_in_shape_no_channel :
  (let X : tensor Z := mkT [0; 1; 1] [] in
   let K : tensor Z := mkT [0; 1; 1] [] in
   has_shape X [0; 1; 1] /\ has_shape K [0; 1; 1] /\ 1 <= 1 /\
   ~ (exists Y, corr2d_multi_in X K = Ok Y /\ has_shape Y [1 - 1 + 1; 1 - 1 + 1]))
  /\ (let K : tensor Z := mkT [0; 2; 2; 2] [] in
      has_shape X_fig [2; 3; 3] /\ has_shape K [0; 2; 2; 2] /\ 2 <= 3 /\
      ~ (exists Y, corr2d_multi_in_out X_fig K = Ok Y
                   /\ has_shape Y [0; 3 - 2 + 1; 3 - 2 + 1])).
Proof.
  split; cbv zeta; repeat split; auto;
    intros (Y & E & HY); vm_compute in E; injection E as <-;
    destruct HY as [HY _]; discriminate HY.
Qed.

(** The formula of C2 on the tensors of the figure. *)
Lemma corr2d_multi_in_direct_witness :
  corr2d_multi_in X_fig K_fig = Ok (direct_sum X_fig K_fig 2 3 3 2 2).
Proof.
  apply corr2d_multi_in_direct; try (split; reflexivity); lia.
Defined.

(** C2, as stated, fails without channels: the code returns the 0-d tensor
    0, the formula a 1x1 matrix. *)
Lemma corr2d_multi_in_direct_no_channel :
  let X : tensor Z := mkT [0; 1; 1] [] in
  let K : tensor Z := mkT [0; 1; 1] [] in
  has_shape X [0; 1; 1] /\ has_shape K [0; 1; 1] /\ 1 <= 1 /\
  corr2d_multi_in X K <> Ok (direct_sum X K 0 1 1 1 1).
Proof.
  cbv zeta. repeat split; auto. vm_compute. discriminate.
Qed.

(** Channel 1 of C3 on the three-channel kernel of the notebook. *)
Lemma corr2d_multi_in_out_channels_witness :
  (Y <- corr2d_multi_in_out X_fig K4_fig ;; channel Y 1)
  = corr2d_multi_in X_fig (item K4_fig [2; 2; 2] 1).
Proof.
  apply (proj1 (proj2 (corr2d_multi_in_out_channels X_fig K4_fig 2 3 3 3 2 2
                         ltac:(split; reflexivity) ltac:(split; reflexivity)))).
  lia.
Defined.

(** C9 on three input channels against a kernel of two. *)
Lemma corr2d_multi_in_channel_mismatch_witness :
  corr2d_multi_in X3_fig K2_fig
  = Ok (if Nat.min 3 2 =? 0 then mkT [] [zero]
        else direct_sum X3_fig K2_fig (Nat.min 3 2) 2 2 1 1).
Proof.
  apply (proj2 (corr2d_multi_in_channel_mismatch X3_fig K2_fig 3 2 2 2 1 1
                  ltac:(split; reflexivity) ltac:(split; reflexivity)
                  ltac:(lia))); lia.
Defined.

(** C9, as stated, fails for a kernel that does not fit: with 2 channels
    against 3 and a kernel of height 5, or of width 5, on an input of
    height and width 3, the call raises the error of `tf.zeros` on a
    negative dimension. *)
Lemma corr2d_multi_in_channel_mismatch_fails :
  (let K : tensor Z := mkT [3; 5; 2] (repeat 1%Z 30) in
   has_shape X_fig [2; 3; 3] /\ has_shape K [3; 5; 2] /\ 2 <> 3 /\
   corr2d_multi_in X_fig K = Err (Raised TfZeros))
  /\ (let K : tensor Z := mkT [3; 2; 5] (repeat 1%Z 30) in
      has_shape X_fig [2; 3; 3] /\ has_shape K [3; 2; 5] /\ 2 <> 3 /\
      corr2d_multi_in X_fig K = Err (Raised TfZeros)).
Proof.
  split; cbv zeta; repeat split; try lia; vm_compute; reflexivity.
Qed.

(** The equivalence of C1 on the input of the figure and a 1x1 kernel. *)
Lemma corr2d_multi_in_out_1x1_equiv_witness :
  exists Y, corr2d_multi_in_out_1x1 X_fig K1_fig = Ok Y
            /\ corr2d_multi_in_out X_fig K1_fig = Ok Y.
Proof.
  apply (corr2d_multi_in_out_1x1_equiv X_fig K1_fig 2 3 3 3);
    try (split; reflexivity); lia.
Defined.

(** C1, as stated, fails without input channels, where the matrix product
    is a (c_o, h, w) tensor of zeros and the stack of empty sums a (c_o,)
    vector, and without output channels, where the stack is the empty
    vector of shape (0,). *)
Lemma corr2d_multi_in_out_1x1_no_channel :
  (let X : tensor Z := mkT [0; 2; 2] [] in
   let K : tensor Z := mkT [3; 0; 1; 1] [] in
   has_shape X [0; 2; 2] /\ has_shape K [3; 0; 1; 1] /\
   corr2d_multi_in_out_1x1 X K <> corr2d_multi_in_out X K)
  /\ (let K : tensor Z := mkT [0; 2; 1; 1] [] in
      has_shape X_fig [2; 3; 3] /\ has_shape K [0; 2; 1; 1] /\
      corr2d_multi_in_out_1x1 X_fig K <> corr2d_multi_in_out X_fig K).
Proof.
  split; cbv zeta; repeat split; auto; vm_compute; discriminate.
Qed.

(** C7 on the example of the claim, where the channel counts disagree, on
    a tensor of 6 features split into 4 heads, and on `__call__` with 4
    features and 3 heads. *)
Lemma errors_propagate_unchanged_witness :
  tf_reshape K23_fig [2; 2] = Err (Raised TfReshape)
  /\ corr2d_multi_in_out_1x1 X_fig K23_fig = Err (Raised TfReshape)
  /\ transpose_qkv 4 X_heads = Err (Raised JnpReshape)
  /\ MultiHeadAttention_call 3 (dense Wq_fig) (dense Wk_fig) (dense Wv_fig)
       (dense Wo_fig) (batched masked_dot_pool) queries_fig keys_fig keys_fig
       (Some valid_lens_fig) false
     = Err (Raised JnpReshape).
Proof.
  destruct (errors_propagate_unchanged X_fig K23_fig)
    as (_ & H1 & _ & _ & _ & _ & _ & _ & _ & _ & _ & _ & Hcall & _).
  destruct (errors_propagate_unchanged X_heads K23_fig)
    as (_ & _ & _ & _ & _ & _ & _ & _ & _ & _ & Hqkv & _).
  split; [|split; [|split]].
  - apply (H1 2 2 3 3 3); try (split; reflexivity). simpl. lia.
  - apply (H1 2 2 3 3 3); try (split; reflexivity). simpl. lia.
  - apply (proj1 (proj2 (Hqkv 4 (Raised JnpReshape)) 2 2 [6] eq_refl)).
    reflexivity.
  - destruct (Hcall 3 (dense Wq_fig) (dense Wk_fig) (dense Wv_fig) (dense Wo_fig)
                (batched masked_dot_pool) queries_fig keys_fig keys_fig
                (Some valid_lens_fig) false (Raised JnpReshape)) as [_ Hq].
    apply (proj1 (Hq _ eq_refl)). reflexivity.
Defined.

(** The round trip of C5 on a (2, 2, 6) tensor split into 3 heads. *)
Lemma transpose_output_transpose_qkv_witness :
  (Y <- transpose_qkv 3 X_heads ;; transpose_output 3 Y) = Ok X_heads.
Proof.
  apply (transpose_output_transpose_qkv X_heads 2 2 6 3);
    try (split; reflexivity); try lia.
  exists 2. reflexivity.
Defined.

(** C5, as stated, fails on a tensor with an empty axis (no example, no
    position, or no feature): a reshape of the round trip has no value for
    its -1. *)
Lemma transpose_qkv_empty_batch :
  Nat.divide 3 6 /\ Nat.divide 3 0
  /\ (let X : tensor Z := mkT [0; 2; 6] [] in
      has_shape X [0; 2; 6]
      /\ (Y <- transpose_qkv 3 X ;; transpose_output 3 Y) <> Ok X)
  /\ (let X : tensor Z := mkT [2; 0; 6] [] in
      has_shape X [2; 0; 6]
      /\ (Y <- transpose_qkv 3 X ;; transpose_output 3 Y) <> Ok X)
  /\ (let X : tensor Z := mkT [2; 2; 0] [] in
      has_shape X [2; 2; 0]
      /\ (Y <- transpose_qkv 3 X ;; transpose_output 3 Y) <> Ok X).
Proof.
  split; [exists 2; reflexivity|]. split; [exists 0; reflexivity|].
  repeat split; vm_compute; discriminate.
Qed.

Lemma masked_dot_pool_shapes : pool_shapes masked_dot_pool.
Proof.
  intros q k v l tr nq nk d [Eq _] [Ek _] [Ev _]. unfold masked_dot_pool.
  rewrite Eq, Ek, Ev, !Nat.eqb_refl. cbn [andb].
  do 2 eexists. split; [reflexivity|].
  split; apply has_shape_mk; simpl; lia.
Qed.

(** C4 on two examples, two heads and masked dot-product pooling. *)
Lemma MultiHeadAttention_call_formula_witness :
  MultiHeadAttention_call 2 (dense Wq_fig) (dense Wk_fig) (dense Wv_fig) (dense Wo_fig)
    (batched masked_dot_pool) queries_fig keys_fig keys_fig (Some valid_lens_fig) false
  = multi_head_formula 2 (dense Wq_fig) (dense Wk_fig) (dense Wv_fig) (dense Wo_fig)
      masked_dot_pool queries_fig keys_fig keys_fig (Some valid_lens_fig) false
      2 2 3 (4 / 2).
Proof.
  apply (MultiHeadAttention_call_formula 2 (dense Wq_fig) (dense Wk_fig) (dense Wv_fig)
           (dense Wo_fig) (batched masked_dot_pool) masked_dot_pool
           queries_fig keys_fig keys_fig (Some valid_lens_fig) false 2 2 3 4 4 4 4).
  1-3: split; reflexivity.
  - exists 2. reflexivity.
  - lia.
  - lia.
  - lia.
  - lia.
  - left. split; reflexivity.
  - apply dense_is_dense_layer; [reflexivity|lia].
  - apply dense_is_dense_layer; [reflexivity|lia].
  - apply dense_is_dense_layer; [reflexivity|lia].
  - exact masked_dot_pool_shapes.
  - apply batchwise_batched.
Defined.

(** C4, as stated, fails in two ways.  With nothing between the five
    steps, the attention pooling receives the valid lengths of two examples
    for a batch of four heads, and the result is not that of `__call__`.
    And `__call__` raises where the formula has a value, or raises
    something else: without an example, a query or a key-value pair, without
    a feature, with a number of features that is not a multiple of the
    number of heads, and with one valid length for a batch of two. *)
Lemma MultiHeadAttention_call_formula_fails :
  let call H (W : tensor Z -> result (tensor Z)) (queries keys : tensor Z)
           (valid_lens : option (tensor Z)) :=
    MultiHeadAttention_call H W W W (dense Wo_fig) (batched masked_dot_pool)
      queries keys keys valid_lens false in
  let formula H (W : tensor Z -> result (tensor Z)) (queries keys : tensor Z)
              (valid_lens : option (tensor Z)) :=
    multi_head_formula H W W W (dense Wo_fig) masked_dot_pool
      queries keys keys valid_lens false in
  (* nothing between the five steps *)
  MultiHeadAttention_call 2 (dense Wq_fig) (dense Wk_fig) (dense Wv_fig) (dense Wo_fig)
    (batched masked_dot_pool) queries_fig keys_fig keys_fig (Some valid_lens_fig) false
  <> five_steps 2 (dense Wq_fig) (dense Wk_fig) (dense Wv_fig) (dense Wo_fig)
       (batched masked_dot_pool) queries_fig keys_fig keys_fig
       (Some valid_lens_fig) false
  (* no example *)
  /\ (let queries : tensor Z := mkT [0; 2; 4] [] in
      let keys : tensor Z := mkT [0; 3; 4] [] in
      has_shape queries [0; 2; 4] /\ has_shape keys [0; 3; 4] /\ Nat.divide 2 4 /\
      call 2 (dense Wq_fig) queries keys None = Err (Raised JnpReshape) /\
      call 2 (dense Wq_fig) queries keys None
      <> formula 2 (dense Wq_fig) queries keys None 0 2 3 (4 / 2))
  (* no query *)
  /\ (let queries : tensor Z := mkT [2; 0; 4] [] in
      has_shape queries [2; 0; 4] /\ has_shape keys_fig [2; 3; 4] /\ Nat.divide 2 4 /\
      call 2 (dense Wq_fig) queries keys_fig None = Err (Raised JnpReshape) /\
      exists out A,
        formula 2 (dense Wq_fig) queries keys_fig None 2 0 3 (4 / 2) = Ok (out, A))
  (* no key-value pair *)
  /\ (let keys : tensor Z := mkT [2; 0; 4] [] in
      has_shape queries_fig [2; 2; 4] /\ has_shape keys [2; 0; 4] /\ Nat.divide 2 4 /\
      call 2 (dense Wq_fig) queries_fig keys None = Err (Raised JnpReshape) /\
      exists out A,
        formula 2 (dense Wq_fig) queries_fig keys None 2 2 0 (4 / 2) = Ok (out, A))
  (* no feature: projections to num_hiddens = 0 features *)
  /\ (let W : tensor Z -> result (tensor Z) := dense (mkT [4; 0] []) in
      has_shape queries_fig [2; 2; 4] /\ has_shape keys_fig [2; 3; 4] /\
      Nat.divide 2 0 /\ dense_layer 4 0 W /\
      call 2 W queries_fig keys_fig None = Err (Raised JnpReshape) /\
      call 2 W queries_fig keys_fig None
      <> formula 2 W queries_fig keys_fig None 2 2 3 (0 / 2))
  (* 4 features and 3 heads *)
  /\ (has_shape queries_fig [2; 2; 4] /\ has_shape keys_fig [2; 3; 4] /\
      ~ Nat.divide 3 4 /\ dense_layer 4 4 (dense Wq_fig) /\
      call 3 (dense Wq_fig) queries_fig keys_fig None = Err (Raised JnpReshape) /\
      call 3 (dense Wq_fig) queries_fig keys_fig None
      <> formula 3 (dense Wq_fig) queries_fig keys_fig None 2 2 3 (4 / 3))
  (* one valid length for two examples *)
  /\ (has_shape queries_fig [2; 2; 4] /\ has_shape keys_fig [2; 3; 4] /\
      Nat.divide 2 4 /\ ~ valid_lens_ok (Some (mkT [1] [3%Z])) 2 2 /\
      (~ exists out A,
           call 2 (dense Wq_fig) queries_fig keys_fig (Some (mkT [1] [3%Z]))
           = Ok (out, A)) /\
      exists out A,
        formula 2 (dense Wq_fig) queries_fig keys_fig (Some (mkT [1] [3%Z]))
          2 2 3 (4 / 2) = Ok (out, A)).
Proof.
  cbv zeta.
  assert (D24 : Nat.divide 2 4) by (exists 2; reflexivity).
  repeat apply conj; try exact D24; try (split; reflexivity);
    try (vm_compute; discriminate); try (vm_compute; reflexivity);
    try (vm_compute; do 2 eexists; reflexivity).
  - exists 0. reflexivity.
  - apply dense_is_dense_layer; [reflexivity|lia].
  - intros [z Hz]. lia.
  - apply dense_is_dense_layer; [reflexivity|lia].
  - intros [[E _]|[E _]]; discriminate E.
  - intros (out & A & E). vm_compute in E. discriminate E.
Qed.

(** The shape of C6 on the same inputs. *)
Lemma MultiHeadAttention_call_shape_witness :
  exists out A,
    MultiHeadAttention_call 2 (dense Wq_fig) (dense Wk_fig) (dense Wv_fig) (dense Wo_fig)
      (batched masked_dot_pool) queries_fig keys_fig keys_fig (Some valid_lens_fig) false
    = Ok (out, A)
    /\ has_shape out [2; 2; 4].
Proof.
  apply (MultiHeadAttention_call_shape 2 (dense Wq_fig) (dense Wk_fig) (dense Wv_fig)
           (dense Wo_fig) (batched masked_dot_pool)
           queries_fig keys_fig keys_fig (Some valid_lens_fig) false 2 2 3 4);
    try lia; try (split; reflexivity).
  - exists 2. reflexivity.
  - left. split; reflexivity.
  - apply dense_is_dense_layer; [reflexivity|lia].
  - apply dense_is_dense_layer; [reflexivity|lia].
  - apply dense_is_dense_layer; [reflexivity|lia].
  - apply dense_is_dense_layer; [reflexivity|lia].
  - apply batched_shapes. exact masked_dot_pool_shapes.
Defined.

(** C6, as stated, fails where an axis of the queries or of the keys is
    empty (no example, no query, no key-value pair, no feature), since
    [transpose_qkv] raises there (without a feature, the dense projection
    before it does), and for a `valid_lens` that has one entry for a batch
    of two. *)
Lemma MultiHeadAttention_call_shape_fails :
  let call (queries keys : tensor Z) (valid_lens : option (tensor Z)) :=
    MultiHeadAttention_call 2 (dense Wq_fig) (dense Wk_fig) (dense Wv_fig)
      (dense Wo_fig) (batched masked_dot_pool) queries keys keys valid_lens false in
  Nat.divide 2 4
  /\ (let queries : tensor Z := mkT [0; 2; 4] [] in
      let keys : tensor Z := mkT [0; 3; 4] [] in
      has_shape queries [0; 2; 4] /\ has_shape keys [0; 3; 4] /\
      ~ exists out A, call queries keys None = Ok (out, A)
                      /\ has_shape out [0; 2; 4])
  /\ (let queries : tensor Z := mkT [2; 0; 4] [] in
      has_shape queries [2; 0; 4] /\ has_shape keys_fig [2; 3; 4] /\
      ~ exists out A, call queries keys_fig None = Ok (out, A)
                      /\ has_shape out [2; 0; 4])
  /\ (let keys : tensor Z := mkT [2; 0; 4] [] in
      has_shape queries_fig [2; 2; 4] /\ has_shape keys [2; 0; 4] /\
      ~ exists out A, call queries_fig keys None = Ok (out, A)
                      /\ has_shape out [2; 2; 4])
  /\ (let W : tensor Z -> result (tensor Z) := dense (mkT [0; 0] []) in
      let queries : tensor Z := mkT [2; 2; 0] [] in
      let keys : tensor Z := mkT [2; 3; 0] [] in
      has_shape queries [2; 2; 0] /\ has_shape keys [2; 3; 0] /\ Nat.divide 2 0 /\
      ~ exists out A,
          MultiHeadAttention_call 2 W W W W (batched masked_dot_pool)
            queries keys keys None false = Ok (out, A)
          /\ has_shape out [2; 2; 0])
  /\ (has_shape queries_fig [2; 2; 4] /\ has_shape keys_fig [2; 3; 4] /\
      ~ exists out A,
          call queries_fig keys_fig (Some (mkT [1] [3%Z])) = Ok (out, A)
          /\ has_shape out [2; 2; 4]).
Proof.
  cbv zeta. split; [exists 2; reflexivity|].
  repeat split; try (exists 0; reflexivity);
    intros (out & A & E & _); vm_compute in E; discriminate E.
Qed.

(** C8 on the input of the figure held in the second variable of a store. *)
Lemma calls_are_deterministic_and_pure_witness :
  let r := corr2d_multi_in_M (Var 1) (Const K_fig) store_fig in
  extends store_fig (snd r) /\ read (snd r) (Var 1) = X_fig
  /\ read (snd r) (Const K_fig) = K_fig
  /\ outcome r = corr2d_multi_in X_fig K_fig.
Proof.
  apply (proj1 (calls_are_deterministic_and_pure store_fig (Var 1) (Const K_fig)
                  ltac:(simpl; lia) I)).
Defined.

(** * Further properties

    ** The layout that the two transpositions build *)

Section HeadLayout.

Context {R : Type} {SR : Scalar R}.

Implicit Types X Y : tensor R.

Lemma lt_digits4 (a i j l n0 n1 n2 n3 : nat) :
  a < n0 -> i < n1 -> j < n2 -> l < n3 ->
  ((a * n1 + i) * n2 + j) * n3 + l < n0 * n1 * n2 * n3.
Proof.
  intros Ha Hi Hj Hl.
  apply lt_mul_add; [|exact Hl]. apply lt_mul_add; [|exact Hj].
  now apply lt_mul_add.
Qed.

(** X1: on a (b, n, H * d) tensor without an empty axis, [transpose_qkv]
    with [H] heads returns a (b * H, n, d) tensor whose row [a * H + h]
    is head [h] of example [a]: its element (i, j) is element
    (a, i, h * d + j) of the argument. *)
Theorem transpose_qkv_layout X (b n H d : nat) :
  has_shape X [b; n; H * d] -> 0 < b -> 0 < n -> 0 < H -> 0 < d ->
  exists Y, transpose_qkv H X = Ok Y /\ has_shape Y [b * H; n; d]
            /\ forall a h i j, a < b -> h < H -> i < n -> j < d ->
                 get Y (((a * H + h) * n + i) * d + j)
                 = get X ((a * n + i) * (H * d) + (h * d + j)).
Proof.
  intros HX Hb Hn HH Hd.
  rewrite (transpose_qkv_value X b n H d HX) by assumption.
  eexists. split; [reflexivity|]. split.
  - apply has_shape_mk. simpl. lia.
  - intros a h i j Ha Hh Hi Hj.
    rewrite get_tabulate by now apply lt_digits4.
    rewrite (swap_index_digits a h i j H n d Hh Hi Hj). f_equal. ring.
Qed.

(** X2: on a (b * H, n, d) tensor without an empty axis,
    [transpose_output] returns a (b, n, H * d) tensor that holds the [H]
    rows of an example side by side: its element (a, i, h * d + j) is
    element (a * H + h, i, j) of the argument. *)
Theorem transpose_output_layout Y (b n H d : nat) :
  has_shape Y [b * H; n; d] -> 0 < b -> 0 < n -> 0 < H -> 0 < d ->
  exists Z, transpose_output H Y = Ok Z /\ has_shape Z [b; n; H * d]
            /\ forall a h i j, a < b -> h < H -> i < n -> j < d ->
                 get Z ((a * n + i) * (H * d) + (h * d + j))
                 = get Y (((a * H + h) * n + i) * d + j).
Proof.
  intros HY Hb Hn HH Hd.
  rewrite (transpose_output_value Y b n H d HY) by assumption.
  eexists. split; [reflexivity|]. split.
  - apply has_shape_mk. simpl. lia.
  - intros a h i j Ha Hh Hi Hj.
    replace ((a * n + i) * (H * d) + (h * d + j))
      with (((a * n + i) * H + h) * d + j) by ring.
    rewrite get_tabulate by now apply lt_digits4.
    now rewrite (swap_index_digits a i h j n H d Hi Hh Hj).
Qed.

(** X3: [transpose_qkv] undoes [transpose_output] (the converse of the
    round trip of the docstring): on a (b * H, n, d) tensor without an
    empty axis, [transpose_qkv(transpose_output(Y))] is [Y]. *)
Theorem transpose_qkv_transpose_output Y (b n H d : nat) :
  has_shape Y [b * H; n; d] -> 0 < b -> 0 < n -> 0 < H -> 0 < d ->
  (Z <- transpose_output H Y ;; transpose_qkv H Z) = Ok Y.
Proof.
  intros HY Hb Hn HH Hd.
  rewrite (transpose_output_value Y b n H d HY) by assumption.
  cbn [bind].
  rewrite (transpose_qkv_value _ b n H d) by
    (try assumption; apply has_shape_mk; simpl; lia).
  f_equal. symmetry.
  replace (b * H * n * d) with (numel [b * H; n; d]) by (simpl; lia).
  apply tensor_eq; [exact HY|].
  intros p Hp.
  assert (Hp' : p < b * H * n * d) by (simpl in Hp; lia).
  destruct (swap_index_involutive b H n d p Hp') as [E B].
  rewrite get_tabulate by exact B. now rewrite E.
Qed.

End HeadLayout.

(** ** The inputs that the two transpositions accept *)

Section HeadDomain.

Context {R : Type} {SR : Scalar R}.

Implicit Types X Y : tensor R.

Lemma mul_mod_zero (k m H : nat) :
  0 < k -> 0 < H -> ((k * m) mod (k * H) =? 0) = (m mod H =? 0).
Proof.
  intros Hk HH. rewrite Nat.Div0.mul_mod_distr_l.
  destruct (Nat.eqb_spec (m mod H) 0) as [E|E].
  - rewrite E, Nat.mul_0_r. reflexivity.
  - apply Nat.eqb_neq. nia.
Qed.

Lemma divide_mod_zero (H m : nat) : 0 < H -> (Nat.divide H m <-> m mod H = 0).
Proof.
  intros HH. split.
  - intros [z ->]. apply Nat.Div0.mod_mul.
  - intros E. exists (m / H). rewrite (Nat.div_mod_eq m H) at 1. lia.
Qed.

(** The first reshape of [transpose_qkv] has no value for its -1. *)
Lemma transpose_qkv_indivisible X (b n m H : nat) :
  has_shape X [b; n; m] -> ~ Nat.divide H m ->
  transpose_qkv H X = Err (Raised JnpReshape).
Proof.
  intros [EX LX] Hdiv. unfold transpose_qkv. rewrite EX.
  unfold jnp_reshape at 1. cbn [unknowns filter length known_size fold_right].
  rewrite LX. cbn [numel fold_right].
  destruct (Nat.eqb_spec (b * (n * (H * 1))) 0) as [E0|E0]; [reflexivity|].
  cbn [orb].
  assert (Hbn : 0 < b * n) by (destruct b, n; simpl in *; lia).
  assert (HH : 0 < H) by (destruct H; lia).
  replace (b * (n * (m * 1))) with (b * n * m) by ring.
  replace (b * (n * (H * 1))) with (b * n * H) by ring.
  rewrite mul_mod_zero by assumption.
  destruct (Nat.eqb_spec (m mod H) 0) as [E|E]; [|reflexivity].
  exfalso. apply Hdiv. now apply divide_mod_zero.
Qed.

(** X4: the inputs that [transpose_qkv] accepts.  On a (b, n, m) tensor
    it returns a (b * H, n, m / H) tensor when no axis is empty and [H]
    divides [m]; in every other case (also [H = 0]) it raises the error of
    a reshape that cannot give its -1 a value. *)
Theorem transpose_qkv_defined X (b n m H : nat) :
  has_shape X [b; n; m] ->
  (0 < b /\ 0 < n /\ 0 < m /\ Nat.divide H m ->
   exists Y, transpose_qkv H X = Ok Y /\ has_shape Y [b * H; n; m / H])
  /\ (~ (0 < b /\ 0 < n /\ 0 < m /\ Nat.divide H m) ->
      transpose_qkv H X = Err (Raised JnpReshape)).
Proof.
  intros HX. split.
  - intros (Hb & Hn & Hm & [d Hd]). subst m.
    assert (0 < d) by (destruct d; lia).
    assert (HH : 0 < H) by (destruct H; lia).
    rewrite Nat.div_mul by lia. rewrite (Nat.mul_comm d) in HX.
    rewrite (transpose_qkv_value X b n H d HX) by assumption.
    eexists. split; [reflexivity|]. apply has_shape_mk. simpl. lia.
  - intros Hno.
    destruct (Nat.eq_dec H 0) as [-> | HH0].
    { destruct HX as [EX LX]. unfold transpose_qkv. rewrite EX.
      unfold jnp_reshape at 1. cbn [unknowns filter length known_size fold_right].
      replace (b * (n * (0 * 1)) =? 0) with true
        by (symmetry; apply Nat.eqb_eq; lia).
      reflexivity. }
    destruct (Nat.eq_dec (m mod H) 0) as [Em|Em].
    2:{ apply (transpose_qkv_indivisible X b n m H HX).
        intros Hd. apply Em. apply divide_mod_zero; [lia|exact Hd]. }
    assert (Hd : Nat.divide H m) by (apply divide_mod_zero; [lia|exact Em]).
    destruct HX as [EX LX]. unfold transpose_qkv. rewrite EX.
    unfold jnp_reshape at 1. cbn [unknowns filter length known_size fold_right].
    destruct (Nat.eqb_spec (b * (n * (H * 1))) 0) as [E0|E0]; [reflexivity|].
    cbn [orb].
    assert (Hb : 0 < b) by (destruct b; simpl in *; lia).
    assert (Hn : 0 < n) by (destruct n; simpl in *; lia).
    assert (Hm : m = 0) by (destruct m; [reflexivity|exfalso; apply Hno; repeat split; auto; lia]).
    subst m. rewrite LX. cbn [numel fold_right].
    replace (b * (n * (0 * 1))) with 0 by lia.
    rewrite Nat.Div0.mod_0_l. cbn [Nat.eqb negb bind fill map].
    unfold jnp_transpose_0213. cbn [shape bind].
    unfold jnp_reshape. cbn [unknowns filter length known_size fold_right].
    rewrite Nat.Div0.div_0_l. cbn [Nat.mul].
    replace (n * 0 =? 0) with true by (symmetry; apply Nat.eqb_eq; lia).
    reflexivity.
Qed.

(** X5: the inputs that [transpose_output] accepts.  On a (B, n, d)
    tensor it returns a (B / H, n, H * d) tensor when no axis is empty and
    [H] divides [B]; in every other case it raises the error of a reshape
    that cannot give its -1 a value. *)
Theorem transpose_output_defined Y (B n d H : nat) :
  has_shape Y [B; n; d] ->
  (0 < B /\ 0 < n /\ 0 < d /\ Nat.divide H B ->
   exists Z, transpose_output H Y = Ok Z /\ has_shape Z [B / H; n; H * d])
  /\ (~ (0 < B /\ 0 < n /\ 0 < d /\ Nat.divide H B) ->
      transpose_output H Y = Err (Raised JnpReshape)).
Proof.
  intros HY. split.
  - intros (HB & Hn & Hd & [b Hb]). subst B.
    assert (0 < b) by (destruct b; lia).
    assert (HH : 0 < H) by (destruct H; lia).
    rewrite Nat.div_mul by lia.
    rewrite (transpose_output_value Y b n H d HY) by assumption.
    eexists. split; [reflexivity|]. apply has_shape_mk. simpl. lia.
  - intros Hno. destruct HY as [EY LY]. unfold transpose_output. rewrite EY.
    unfold jnp_reshape at 1. cbn [unknowns filter length known_size fold_right].
    destruct (Nat.eqb_spec (H * (n * (d * 1))) 0) as [E0|E0]; [reflexivity|].
    cbn [orb].
    assert (HH : 0 < H) by (destruct H; simpl in *; lia).
    assert (Hn : 0 < n) by (destruct n; simpl in *; lia).
    assert (Hd : 0 < d) by (destruct d; simpl in *; lia).
    rewrite LY. cbn [numel fold_right].
    replace (B * (n * (d * 1))) with (n * d * B) by ring.
    replace (H * (n * (d * 1))) with (n * d * H) by ring.
    rewrite mul_mod_zero by (try apply Nat.mul_pos_pos; assumption).
    destruct (Nat.eqb_spec (B mod H) 0) as [E|E]; [|reflexivity].
    assert (HB : B = 0).
    { destruct B; [reflexivity|]. exfalso. apply Hno. repeat split; auto; try lia.
      now apply divide_mod_zero. }
    subst B. cbn [negb bind fill map].
    replace (n * d * 0) with 0 by lia. rewrite Nat.Div0.div_0_l.
    unfold jnp_transpose_0213. cbn [shape bind].
    unfold jnp_reshape. cbn [unknowns filter length known_size fold_right].
    reflexivity.
Qed.

End HeadDomain.

(** ** Multi-head attention: one head, the weights, a failure *)

Section SingleHead.

Context {R : Type} {SR : Scalar R}.

Implicit Types X Y : tensor R.

Lemma swap_index_one_head (b n m p : nat) :
  p < b * n * m -> swap_index n 1 m p = p /\ swap_index 1 n m p = p.
Proof.
  intros Hp. assert (Hp' : p < b * n * 1 * m) by lia. revert p Hp' Hp.
  apply (split4 (fun p => p < b * n * m ->
                          swap_index n 1 m p = p /\ swap_index 1 n m p = p)).
  intros a i j l Ha Hi Hj Hl _.
  assert (j = 0) by lia. subst j. split.
  - replace (((a * n + i) * 1 + 0) * m + l) with (((a * 1 + 0) * n + i) * m + l) by ring.
    rewrite (swap_index_digits a 0 i l 1 n m); auto. ring.
  - rewrite (swap_index_digits a i 0 l n 1 m); auto. f_equal. ring.
Qed.

Lemma transpose_qkv_one_head X (b n m : nat) :
  has_shape X [b; n; m] -> 0 < b -> 0 < n -> 0 < m ->
  transpose_qkv 1 X = Ok X.
Proof.
  intros HX Hb Hn Hm.
  assert (HX' : has_shape X [b; n; 1 * m]) by now rewrite Nat.mul_1_l.
  rewrite (transpose_qkv_value X b n 1 m HX') by (auto; lia).
  f_equal. symmetry. rewrite Nat.mul_1_r.
  replace (b * n * m) with (numel [b; n; m]) by (simpl; lia).
  apply tensor_eq; [exact HX|]. intros p Hp.
  destruct (swap_index_one_head b n m p) as [E _]; [simpl in Hp; lia|].
  now rewrite E.
Qed.

Lemma transpose_output_one_head X (b n m : nat) :
  has_shape X [b; n; m] -> 0 < b -> 0 < n -> 0 < m ->
  transpose_output 1 X = Ok X.
Proof.
  intros HX Hb Hn Hm.
  assert (HX' : has_shape X [b * 1; n; m]) by now rewrite Nat.mul_1_r.
  rewrite (transpose_output_value X b n 1 m HX') by (auto; lia).
  f_equal. symmetry. rewrite Nat.mul_1_l.
  replace (b * n * 1 * m) with (numel [b; n; m]) by (simpl; lia).
  apply tensor_eq; [exact HX|]. intros p Hp.
  destruct (swap_index_one_head b n m p) as [_ E]; [simpl in Hp; lia|].
  now rewrite E.
Qed.

Lemma jnp_repeat0_once (V : tensor R) (n : nat) sh :
  has_shape V (n :: sh) -> jnp_repeat0 V 1 = V.
Proof.
  intros HV. rewrite (jnp_repeat0_value V n 1 sh (proj1 HV)).
  rewrite Nat.mul_1_r. symmetry.
  replace (n * numel sh) with (numel (n :: sh)) by reflexivity.
  apply tensor_eq; [exact HV|]. intros p Hp. change (numel (n :: sh)) with (n * numel sh) in Hp.
  assert (Hs : numel sh <> 0) by (intros E; rewrite E in Hp; lia).
  rewrite Nat.div_1_r. f_equal.
  rewrite (Nat.div_mod_eq p (numel sh)) at 1. lia.
Qed.

Variables W_q W_k W_v W_o : tensor R -> result (tensor R).
Variable attention :
  tensor R -> tensor R -> tensor R -> option (tensor R) -> bool ->
  result (tensor R * tensor R).

(** X6: with [num_heads = 1] the reshapes, the transpositions and the
    repeat of `valid_lens` change nothing: on non-empty inputs `__call__`
    is the attention pooling of the three projections, followed by [W_o]. *)
Theorem MultiHeadAttention_one_head
    (queries keys values : tensor R) (valid_lens : option (tensor R))
    (training : bool) (b nq nk dq dk dv num_hiddens : nat) :
  0 < b -> 0 < nq -> 0 < nk -> 0 < num_hiddens ->
  has_shape queries [b; nq; dq] -> has_shape keys [b; nk; dk] ->
  has_shape values [b; nk; dv] ->
  valid_lens_ok valid_lens b nq ->
  dense_layer dq num_hiddens W_q -> dense_layer dk num_hiddens W_k ->
  dense_layer dv num_hiddens W_v ->
  attention_shapes attention ->
  MultiHeadAttention_call 1 W_q W_k W_v W_o attention
    queries keys values valid_lens training
  = (Q <- W_q queries ;;
     K <- W_k keys ;;
     V <- W_v values ;;
     oa <- attention Q K V valid_lens training ;;
     o <- W_o (fst oa) ;;
     Ok (o, snd oa)).
Proof.
  intros Hb Hnq Hnk Hh Hqs Hks Hvs Hvl DQ DK DV HA.
  destruct (DQ queries b nq Hqs) as (Q & EQ & HQ).
  destruct (DK keys b nk Hks) as (K & EK & HK).
  destruct (DV values b nk Hvs) as (V & EV & HV).
  unfold MultiHeadAttention_call. rewrite EQ, EK, EV. cbn [bind].
  rewrite (transpose_qkv_one_head Q b nq num_hiddens HQ) by assumption.
  rewrite (transpose_qkv_one_head K b nk num_hiddens HK) by assumption.
  rewrite (transpose_qkv_one_head V b nk num_hiddens HV) by assumption.
  cbn [bind].
  assert (Evl : match valid_lens with
                | Some vl => Some (jnp_repeat0 vl 1)
                | None => None
                end = valid_lens).
  { destruct valid_lens as [vl|]; [|reflexivity]. cbn [valid_lens_ok] in Hvl.
    f_equal. destruct Hvl as [Hv|Hv]; exact (jnp_repeat0_once vl _ _ Hv). }
  rewrite Evl.
  destruct (HA Q K V valid_lens training b nq nk num_hiddens Hb HQ HK HV Hvl)
    as (O & A & -> & HO & _).
  cbn [bind fst snd].
  rewrite (transpose_output_one_head O b nq num_hiddens HO) by assumption.
  reflexivity.
Qed.

End SingleHead.

Section AttentionEdges.

Context {R : Type} {SR : Scalar R}.

Variable num_heads : nat.
Variables W_q W_k W_v W_o : tensor R -> result (tensor R).
Variable attention :
  tensor R -> tensor R -> tensor R -> option (tensor R) -> bool ->
  result (tensor R * tensor R).

(** X7: the second result of `__call__` is the weights of the attention
    pooling as they are, one matrix per example and head: under the
    conditions of the output shape they have shape
    (batch_size * num_heads, num_queries, num_kvpairs). *)
Theorem MultiHeadAttention_call_weights
    (queries keys values : tensor R) (valid_lens : option (tensor R))
    (training : bool) (batch_size num_queries num_kvpairs num_hiddens : nat) :
  has_shape queries [batch_size; num_queries; num_hiddens] ->
  has_shape keys [batch_size; num_kvpairs; num_hiddens] ->
  has_shape values [batch_size; num_kvpairs; num_hiddens] ->
  Nat.divide num_heads num_hiddens ->
  0 < batch_size -> 0 < num_queries -> 0 < num_kvpairs -> 0 < num_hiddens ->
  valid_lens_ok valid_lens batch_size num_queries ->
  dense_layer num_hiddens num_hiddens W_q ->
  dense_layer num_hiddens num_hiddens W_k ->
  dense_layer num_hiddens num_hiddens W_v ->
  dense_layer num_hiddens num_hiddens W_o ->
  attention_shapes attention ->
  exists out A,
    MultiHeadAttention_call num_heads W_q W_k W_v W_o attention
      queries keys values valid_lens training = Ok (out, A)
    /\ has_shape A [batch_size * num_heads; num_queries; num_kvpairs].
Proof.
  intros Hqs Hks Hvs [d Hdiv] Hb Hnq Hnk Hh Hvl DQ DK DV DO HA.
  assert (Hd : 0 < d) by (destruct d; lia).
  assert (HH : 0 < num_heads) by (destruct num_heads; lia).
  rewrite Nat.mul_comm in Hdiv. subst num_hiddens.
  destruct (DQ queries _ _ Hqs) as (Q & EQ & HQ).
  destruct (DK keys _ _ Hks) as (K & EK & HK).
  destruct (DV values _ _ Hvs) as (V & EV & HV).
  unfold MultiHeadAttention_call. rewrite EQ, EK, EV. cbn [bind].
  rewrite (transpose_qkv_value Q _ _ num_heads d HQ) by assumption.
  rewrite (transpose_qkv_value K _ _ num_heads d HK) by assumption.
  rewrite (transpose_qkv_value V _ _ num_heads d HV) by assumption.
  cbn [bind].
  destruct (valid_lens_repeat num_heads valid_lens _ _ Hvl) as (Hvl' & _).
  cbv zeta in Hvl'. cbv zeta.
  set (vl' := match valid_lens with
              | Some vl => Some (jnp_repeat0 vl num_heads)
              | None => None
              end) in *.
  assert (HbH : 0 < batch_size * num_heads) by (apply Nat.mul_pos_pos; assumption).
  match goal with
  | |- context [attention ?q ?k ?v _ _] =>
      destruct (HA q k v vl' training (batch_size * num_heads)
                  num_queries num_kvpairs d HbH)
        as (O & A & -> & HO & HAw); auto; try (apply has_shape_mk; simpl; lia)
  end.
  cbn [bind fst snd].
  rewrite (transpose_output_value O _ _ num_heads d HO) by assumption.
  cbn [bind].
  destruct (DO (mkT [batch_size; num_queries; num_heads * d]
                  (tabulate (batch_size * num_queries * num_heads * d)
                     (fun p => get O (swap_index num_heads num_queries d p))))
               batch_size num_queries) as (out & -> & Hout).
  { apply has_shape_mk. simpl. lia. }
  cbn [bind]. now exists out, A.
Qed.

(** X8: nothing checks that [num_heads] divides [num_hiddens] before the
    call; when it does not, `__call__` fails in the first [transpose_qkv],
    on the projected queries, with the error of the reshape, whatever the
    keys, the values and the valid lengths are. *)
Theorem MultiHeadAttention_call_indivisible
    (queries keys values : tensor R) (valid_lens : option (tensor R))
    (training : bool) (b nq dq num_hiddens : nat) :
  has_shape queries [b; nq; dq] -> dense_layer dq num_hiddens W_q ->
  ~ Nat.divide num_heads num_hiddens ->
  MultiHeadAttention_call num_heads W_q W_k W_v W_o attention
    queries keys values valid_lens training = Err (Raised JnpReshape).
Proof.
  intros Hqs DQ Hdiv.
  destruct (DQ queries b nq Hqs) as (Q & EQ & HQ).
  unfold MultiHeadAttention_call. rewrite EQ. cbn [bind].
  now rewrite (transpose_qkv_indivisible Q b nq num_hiddens num_heads HQ Hdiv).
Qed.

End AttentionEdges.

(** ** The convolution functions at the edges of their domain *)

Section ChannelEdges.

Context {R : Type} {SR : Scalar R}.

Implicit Types X K Y : tensor R.

Lemma lt_digits3 (c i j n0 n1 n2 : nat) :
  c < n0 -> i < n1 -> j < n2 -> (c * n1 + i) * n2 + j < n0 * (n1 * n2).
Proof.
  intros Hc Hi Hj. rewrite Nat.mul_assoc.
  apply lt_mul_add; [|exact Hj]. now apply lt_mul_add.
Qed.

(** X9: [corr2d_multi_in_out_1x1] is a fully connected layer at every
    pixel: element (o, i, j) of the result is the sum over the input
    channels [c] of [K[o, c] * X[c, i, j]], for every number of channels
    and every height and width (also 0).  The kernel is only reshaped: any
    kernel with [c_o] slices of [c_i] elements is accepted, whatever its
    trailing shape. *)
Theorem corr2d_multi_in_out_1x1_pixelwise X K (c_i c_o h w : nat) rest :
  has_shape X [c_i; h; w] -> has_shape K (c_o :: rest) -> numel rest = c_i ->
  exists Y, corr2d_multi_in_out_1x1 X K = Ok Y /\ has_shape Y [c_o; h; w]
    /\ forall o i j, o < c_o -> i < h -> j < w ->
         at3 Y h w o i j
         = sum (tabulate c_i (fun c => mul (get K (o * c_i + c)) (at3 X h w c i j))).
Proof.
  intros [EX LX] [EK LK] Hrest. unfold corr2d_multi_in_out_1x1. rewrite EX, EK.
  unfold tf_reshape at 1. rewrite LX.
  replace (numel [c_i; h; w] =? numel [c_i; h * w]) with true
    by (symmetry; apply Nat.eqb_eq; simpl; lia).
  cbn [bind]. unfold tf_reshape at 1. rewrite LK.
  replace (numel (c_o :: rest) =? numel [c_o; c_i]) with true
    by (symmetry; apply Nat.eqb_eq;
        change (numel (c_o :: rest)) with (c_o * numel rest);
        rewrite Hrest; simpl; lia).
  cbn [bind]. unfold tf_matmul. cbn [shape]. rewrite Nat.eqb_refl.
  cbn [bind]. unfold tf_reshape. cbn [data]. rewrite length_tabulate.
  replace (c_o * (h * w) =? numel [c_o; h; w]) with true
    by (symmetry; apply Nat.eqb_eq; simpl; lia).
  eexists. split; [reflexivity|]. split.
  - apply has_shape_mk. simpl. lia.
  - intros o i j Ho Hi Hj. unfold at3.
    rewrite get_tabulate by now apply lt_digits3.
    assert (Hij : i * w + j < h * w) by now apply lt_mul_add.
    replace ((o * h + i) * w + j) with (o * (h * w) + (i * w + j)) by ring.
    destruct (div_mod_pair o (i * w + j) (h * w) Hij) as [-> ->].
    f_equal. apply tabulate_ext. intros c Hc. unfold get. cbn [data].
    f_equal. f_equal. ring.
Qed.

Lemma iter_pack (ks : list (tensor R)) sh :
  (forall k, In k ks -> has_shape k sh) ->
  (K <- pack ks ;; iter K) = Ok ks.
Proof.
  intros Hks. destruct ks as [|k0 ks']; [reflexivity|].
  assert (E0 : shape k0 = sh) by (apply Hks; now left).
  unfold pack.
  replace (forallb (fun u => shape_eqb (shape u) (shape k0)) (k0 :: ks')) with true.
  2:{ symmetry. apply forallb_forall. intros u Hu. apply shape_eqb_eq.
      rewrite E0. now apply Hks. }
  cbn [bind]. unfold iter. cbn [shape]. f_equal. rewrite E0.
  generalize dependent (k0 :: ks'). clear k0 ks' E0. intros ks Hks.
  apply (nth_ext _ _ (mkT [] []) (mkT [] [])).
  - now rewrite length_tabulate.
  - rewrite length_tabulate. intros i Hi. rewrite nth_tabulate by exact Hi.
    assert (Hi' : has_shape (nth i ks (mkT [] [])) sh) by (apply Hks; now apply nth_In).
    symmetry. unfold item.
    apply tensor_eq; [exact Hi'|]. intros p Hp. unfold get at 2. cbn [data].
    rewrite (nth_concat_uniform (map data ks) (numel sh) i p zero).
    + unfold get. f_equal.
      exact (eq_sym (map_nth data ks (mkT [] []) i)).
    + intros l Hl. apply in_map_iff in Hl. destruct Hl as (u & <- & Hu).
      now apply Hks.
    + exact Hp.
Qed.

(** X10: [corr2d_multi_in_out] on a stack of kernels, as the notebook
    builds one with `tf.stack((K, K + 1, K + 2), 0)`, is the stack of
    [corr2d_multi_in] on each kernel, with the same error when one fails. *)
Theorem corr2d_multi_in_out_of_stack X (ks : list (tensor R)) sh :
  (forall k, In k ks -> has_shape k sh) ->
  (K <- tf_stack ks ;; corr2d_multi_in_out X K)
  = (ys <- mapM (fun k => corr2d_multi_in X k) ks ;; tf_stack ys).
Proof.
  intros Hks. pose proof (iter_pack ks sh Hks) as E.
  unfold tf_stack in *. unfold corr2d_multi_in_out.
  destruct (pack ks) as [K|e]; cbn [bind] in *; [|discriminate E].
  rewrite E. reflexivity.
Qed.

(** X12: a kernel that is larger than the input.  With at least one
    channel, a kernel exactly one row (or column) larger than the input
    gives an empty result with 0 rows (or columns), not an error; a kernel
    larger than that makes [corr2d_multi_in] and [corr2d_multi_in_out]
    raise the error of `tf.zeros` on a negative dimension. *)
Theorem corr2d_kernel_too_large X K K4 (c_x c_k c_o h w kh kw : nat) :
  has_shape X [c_x; h; w] -> 0 < Nat.min c_x c_k ->
  (has_shape K [c_k; kh; kw] ->
     (h + 1 < kh \/ w + 1 < kw -> corr2d_multi_in X K = Err (Raised TfZeros))
     /\ (kh = h + 1 -> kw <= w + 1 ->
         corr2d_multi_in X K = Ok (mkT [0; w + 1 - kw] []))
     /\ (kh <= h + 1 -> kw = w + 1 ->
         corr2d_multi_in X K = Ok (mkT [h + 1 - kh; 0] [])))
  /\ (has_shape K4 [c_o; c_k; kh; kw] -> 0 < c_o ->
      h + 1 < kh \/ w + 1 < kw ->
      corr2d_multi_in_out X K4 = Err (Raised TfZeros)).
Proof.
  intros [EX _] Hm. split.
  - intros [EK _].
    rewrite (corr2d_multi_in_value X K c_x c_k h w kh kw EX EK).
    unfold multi_in_value. rewrite min_pos_neqb by exact Hm.
    split; [|split].
    + intros Hbig.
      replace ((kh <=? h + 1) && (kw <=? w + 1)) with false; [reflexivity|].
      symmetry. apply andb_false_iff.
      destruct Hbig; [left|right]; apply Nat.leb_gt; lia.
    + intros -> Hw. rewrite leb_fit by lia. now rewrite Nat.sub_diag.
    + intros Hh ->. rewrite leb_fit by lia.
      now rewrite Nat.sub_diag, Nat.mul_0_r.
  - intros [EK _] Hco Hbig.
    rewrite (corr2d_multi_in_out_value X K4 c_x c_k c_o h w kh kw EX EK).
    unfold multi_in_out_value.
    replace (c_o =? 0) with false by (symmetry; apply Nat.eqb_neq; lia).
    rewrite min_pos_neqb by exact Hm.
    replace ((kh <=? h + 1) && (kw <=? w + 1)) with false; [reflexivity|].
    symmetry. apply andb_false_iff.
    destruct Hbig; [left|right]; apply Nat.leb_gt; lia.
Qed.

(** X13: without a channel in common (the input or the kernel has no
    channel) nothing is correlated and the size of the kernel is not even
    looked at: [corr2d_multi_in] returns the 0-d tensor 0 and
    [corr2d_multi_in_out] the vector of [c_o] zeros. *)
Theorem corr2d_without_channels X K K4 (c_x c_k c_o h w kh kw : nat) :
  has_shape X [c_x; h; w] -> Nat.min c_x c_k = 0 ->
  (has_shape K [c_k; kh; kw] -> corr2d_multi_in X K = Ok (mkT [] [zero]))
  /\ (has_shape K4 [c_o; c_k; kh; kw] ->
      corr2d_multi_in_out X K4 = Ok (mkT [c_o] (repeat zero c_o))).
Proof.
  intros [EX _] Hm. split.
  - intros [EK _]. now apply (corr2d_multi_in_no_channel X K c_x c_k _ _ EX EK).
  - intros [EK _].
    rewrite (corr2d_multi_in_out_value X K4 c_x c_k c_o h w kh kw EX EK).
    unfold multi_in_out_value. rewrite Hm. cbn [Nat.eqb].
    destruct (Nat.eqb_spec c_o 0) as [->|Hco]; [reflexivity|].
    f_equal. f_equal. clear. unfold tabulate.
    generalize 0. induction c_o as [|n IH]; intros s; [reflexivity|].
    simpl. f_equal. apply IH.
Qed.

(** X14: the two forms of the 1x1 convolution part ways when the channel
    counts of input and kernel differ: [corr2d_multi_in_out_1x1] raises the
    error of `tf.reshape`, while [corr2d_multi_in_out] returns a result,
    computed from the channels that both have. *)
Theorem channel_mismatch_diverges X K (c_i c_k c_o h w : nat) :
  has_shape X [c_i; h; w] -> has_shape K [c_o; c_k; 1; 1] ->
  c_i <> c_k -> 0 < c_o ->
  corr2d_multi_in_out_1x1 X K = Err (Raised TfReshape)
  /\ exists Y, corr2d_multi_in_out X K = Ok Y
               /\ has_shape Y (if Nat.min c_i c_k =? 0 then [c_o] else [c_o; h; w]).
Proof.
  intros [EX LX] [EK LK] Hne Hco. split.
  - unfold corr2d_multi_in_out_1x1. rewrite EX, EK.
    unfold tf_reshape at 1. rewrite LX.
    replace (numel [c_i; h; w] =? numel [c_i; h * w]) with true
      by (symmetry; apply Nat.eqb_eq; simpl; lia).
    cbn [bind]. unfold tf_reshape at 1. rewrite LK.
    replace (numel [c_o; c_k; 1; 1] =? numel [c_o; c_i]) with false; [reflexivity|].
    symmetry. apply Nat.eqb_neq. cbn [numel fold_right]. nia.
  - rewrite (corr2d_multi_in_out_value X K c_i c_k c_o h w 1 1 EX EK).
    unfold multi_in_out_value.
    replace (c_o =? 0) with false by (symmetry; apply Nat.eqb_neq; lia).
    destruct (Nat.min c_i c_k =? 0).
    + eexists. split; [reflexivity|]. apply has_shape_mk. simpl. lia.
    + rewrite leb_fit by lia. rewrite !Nat.add_sub.
      eexists. split; [reflexivity|]. apply has_shape_mk. simpl. lia.
Qed.

End ChannelEdges.

(** ** Arguments that lack the channel axis *)

Section MissingAxis.

Context {R : Type} {SR : Scalar R}.

Implicit Types X K Y : tensor R.

(** A kernel slice with one axis cannot be unpacked into a height and a
    width. *)
Lemma corr2d_multi_in_vector_kernel X K (cx ck w : nat) shx :
  shape X = cx :: shx -> shape K = [ck; w] -> 0 < cx -> 0 < ck ->
  corr2d_multi_in X K = Err (Raised PyUnpack).
Proof.
  intros EX EK Hcx Hck. unfold corr2d_multi_in.
  rewrite (zip_ok X K cx ck shx [w] EX EK). cbn [bind].
  destruct (Nat.min cx ck) as [|m] eqn:Em; [lia|].
  rewrite tabulate_S. cbn [mapM]. reflexivity.
Qed.

(** X16: the functions need the channel axes.  Given a matrix and a 2D
    kernel, [corr2d_multi_in] pairs their rows and fails when the library
    unpacks the shape of a kernel row into a height and a width; so does
    [corr2d_multi_in_out] on a kernel with three axes instead of four. *)
Theorem corr2d_missing_channel_axis X K K3 (c_i c_k h w kh kw : nat) :
  (has_shape X [h; w] -> has_shape K [kh; kw] -> 0 < h -> 0 < kh ->
   corr2d_multi_in X K = Err (Raised PyUnpack))
  /\ (has_shape X [c_i; h; w] -> has_shape K3 [c_k; kh; kw] ->
      0 < c_i -> 0 < c_k -> 0 < kh ->
      corr2d_multi_in_out X K3 = Err (Raised PyUnpack)).
Proof.
  split.
  - intros [EX _] [EK _] Hh Hkh.
    now apply (corr2d_multi_in_vector_kernel X K h kh kw [w]).
  - intros [EX _] [EK _] Hci Hck Hkh. unfold corr2d_multi_in_out.
    rewrite (iter_ok K3 c_k [kh; kw] EK). cbn [bind].
    destruct c_k as [|m]; [lia|]. rewrite tabulate_S. cbn [mapM].
    rewrite (corr2d_multi_in_vector_kernel X (item K3 [kh; kw] 0) c_i kh kw [h; w]);
      auto.
Qed.

End MissingAxis.

(** ** The convolution functions in exact arithmetic *)

Section ExactChannels.

Context {R : Type} {SR : Scalar R} {EA : ExactArith R}.

Implicit Types X K Y : tensor R.

(** X11: with one input channel [corr2d_multi_in] is the library's
    single-channel cross-correlation of that channel, as a result (the same
    tensor, or the same error for a kernel that does not fit). *)
Theorem corr2d_multi_in_one_channel X K (h w kh kw : nat) :
  has_shape X [1; h; w] -> has_shape K [1; kh; kw] ->
  corr2d_multi_in X K = corr2d (item X [h; w] 0) (item K [kh; kw] 0).
Proof.
  intros [EX _] [EK _].
  rewrite (corr2d_multi_in_value X K 1 1 h w kh kw EX EK).
  unfold multi_in_value. cbn [Nat.min Nat.eqb].
  destruct (Nat.leb_spec kh (h + 1)) as [Hh|Hh];
    [destruct (Nat.leb_spec kw (w + 1)) as [Hw|Hw]|]; cbn [andb].
  - rewrite (corr2d_matrix (item X [h; w] 0) (item K [kh; kw] 0) h w kh kw
               eq_refl eq_refl Hh Hw).
    unfold corr2d_value. f_equal. f_equal. apply tabulate_ext. intros q Hq.
    unfold multi_in_cell.
    cbn [tabulate seq map sum fold_right]. now rewrite add_0_r.
  - symmetry.
    apply (corr2d_too_large (item X [h; w] 0) (item K [kh; kw] 0) h w kh kw
             eq_refl eq_refl). lia.
  - symmetry.
    apply (corr2d_too_large (item X [h; w] 0) (item K [kh; kw] 0) h w kh kw
             eq_refl eq_refl). lia.
Qed.

(** X15: the direct formula of [corr2d_multi_in_out].  With a kernel that
    fits, [c_o >= 1] and at least one channel in common, element (o, i, j)
    of the result is the sum over the channels [c] that input and kernel
    both have and over the kernel positions [(a, b)] of
    [X[c, i + a, j + b] * K[o, c, a, b]]. *)
Theorem corr2d_multi_in_out_direct X K (c_i c_k c_o h w kh kw : nat) :
  has_shape X [c_i; h; w] -> has_shape K [c_o; c_k; kh; kw] ->
  0 < Nat.min c_i c_k -> 0 < c_o -> kh <= h -> kw <= w ->
  exists Y, corr2d_multi_in_out X K = Ok Y
    /\ has_shape Y [c_o; h - kh + 1; w - kw + 1]
    /\ forall o i j, o < c_o -> i < h - kh + 1 -> j < w - kw + 1 ->
         at3 Y (h - kh + 1) (w - kw + 1) o i j
         = sum (tabulate (Nat.min c_i c_k) (fun c =>
             sum (tabulate kh (fun a =>
               sum (tabulate kw (fun b =>
                 mul (at3 X h w c (i + a) (j + b))
                     (get K (((o * c_k + c) * kh + a) * kw + b)))))))).
Proof.
  intros [EX _] [EK _] Hm Hco Hh Hw.
  rewrite (corr2d_multi_in_out_value X K c_i c_k c_o h w kh kw EX EK).
  unfold multi_in_out_value.
  replace (c_o =? 0) with false by (symmetry; apply Nat.eqb_neq; lia).
  rewrite min_pos_neqb by exact Hm.
  rewrite leb_fit by lia.
  replace (h + 1 - kh) with (h - kh + 1) by lia.
  replace (w + 1 - kw) with (w - kw + 1) by lia.
  set (oh := h - kh + 1). set (ow := w - kw + 1).
  eexists. split; [reflexivity|]. split.
  - apply has_shape_mk. simpl. lia.
  - intros o i j Ho Hi Hj. unfold at3 at 1.
    rewrite get_tabulate by now apply lt_digits3.
    assert (Hij : i * ow + j < oh * ow) by now apply lt_mul_add.
    replace ((o * oh + i) * ow + j) with (o * (oh * ow) + (i * ow + j)) by ring.
    destruct (div_mod_pair o (i * ow + j) (oh * ow) Hij) as [-> ->].
    unfold multi_in_cell. f_equal. apply tabulate_ext. intros c Hc.
    assert (Hck : c < c_k) by lia.
    rewrite sum_tabulate_mul. f_equal.
    apply tabulate_ext. intros a Ha. f_equal.
    apply tabulate_ext. intros b Hb.
    destruct (div_mod_pair a b kw Hb) as [Ea Eb].
    destruct (div_mod_pair i j ow Hj) as [Ei Ej].
    unfold tap. replace (w + 1 - kw) with ow by (unfold ow; lia).
    rewrite Ea, Eb, Ei, Ej.
    assert (B1 : a * kw + b < kh * kw) by now apply lt_mul_add.
    assert (B2 : (i + a) * w + (j + b) < h * w).
    { apply lt_mul_add; unfold oh, ow in *; lia. }
    rewrite !get_item;
      try (cbn [numel fold_right]; rewrite ?Nat.mul_1_r;
           first [exact B1 | exact B2 | now apply lt_mul_add]).
    unfold at3. cbn [numel fold_right]. f_equal; f_equal; ring.
Qed.

End ExactChannels.

(** ** The further properties on concrete tensors *)

(** X1 on a (2, 2, 6) tensor split into 3 heads. *)
Lemma transpose_qkv_layout_witness :
  exists Y, transpose_qkv 3 X_heads = Ok Y /\ has_shape Y [2 * 3; 2; 2]
            /\ forall a h i j, a < 2 -> h < 3 -> i < 2 -> j < 2 ->
                 get Y (((a * 3 + h) * 2 + i) * 2 + j)
                 = get X_heads ((a * 2 + i) * (3 * 2) + (h * 2 + j)).
Proof.
  apply (transpose_qkv_layout X_heads 2 2 3 2); try lia. split; reflexivity.
Defined.

(** X2 on a batch of 2 * 3 heads. *)
Lemma transpose_output_layout_witness :
  exists Z, transpose_output 3 Y_heads = Ok Z /\ has_shape Z [2; 2; 3 * 2]
            /\ forall a h i j, a < 2 -> h < 3 -> i < 2 -> j < 2 ->
                 get Z ((a * 2 + i) * (3 * 2) + (h * 2 + j))
                 = get Y_heads (((a * 3 + h) * 2 + i) * 2 + j).
Proof.
  apply (transpose_output_layout Y_heads 2 2 3 2); try lia. split; reflexivity.
Defined.

(** The round trip of X3 on a batch of 2 * 3 heads. *)
Lemma transpose_qkv_transpose_output_witness :
  (Z <- transpose_output 3 Y_heads ;; transpose_qkv 3 Z) = Ok Y_heads.
Proof.
  apply (transpose_qkv_transpose_output Y_heads 2 2 3 2); try lia.
  split; reflexivity.
Defined.

(** X4: 6 features split into 3 heads, and not into 4. *)
Lemma transpose_qkv_defined_witness :
  (exists Y, transpose_qkv 3 X_heads = Ok Y /\ has_shape Y [2 * 3; 2; 6 / 3])
  /\ transpose_qkv 4 X_heads = Err (Raised JnpReshape).
Proof.
  split.
  - apply (proj1 (transpose_qkv_defined X_heads 2 2 6 3 ltac:(split; reflexivity))).
    repeat split; try lia. exists 2. reflexivity.
  - apply (proj2 (transpose_qkv_defined X_heads 2 2 6 4 ltac:(split; reflexivity))).
    intros (_ & _ & _ & [z Hz]). lia.
Defined.

(** X5: 6 rows are the heads of 2 examples with 3 heads, and of none with 4. *)
Lemma transpose_output_defined_witness :
  (exists Z, transpose_output 3 Y_heads = Ok Z /\ has_shape Z [6 / 3; 2; 3 * 2])
  /\ transpose_output 4 Y_heads = Err (Raised JnpReshape).
Proof.
  split.
  - apply (proj1 (transpose_output_defined Y_heads 6 2 2 3 ltac:(split; reflexivity))).
    repeat split; try lia. exists 2. reflexivity.
  - apply (proj2 (transpose_output_defined Y_heads 6 2 2 4 ltac:(split; reflexivity))).
    intros (_ & _ & _ & [z Hz]). lia.
Defined.

(** X6 on two examples and masked dot-product pooling. *)
Lemma MultiHeadAttention_one_head_witness :
  MultiHeadAttention_call 1 (dense Wq_fig) (dense Wk_fig) (dense Wv_fig) (dense Wo_fig)
    (batched masked_dot_pool) queries_fig keys_fig keys_fig (Some valid_lens_fig) false
  = (Q <- dense Wq_fig queries_fig ;;
     K <- dense Wk_fig keys_fig ;;
     V <- dense Wv_fig keys_fig ;;
     oa <- batched masked_dot_pool Q K V (Some valid_lens_fig) false ;;
     o <- dense Wo_fig (fst oa) ;;
     Ok (o, snd oa)).
Proof.
  apply (MultiHeadAttention_one_head (dense Wq_fig) (dense Wk_fig) (dense Wv_fig)
           (dense Wo_fig) (batched masked_dot_pool)
           queries_fig keys_fig keys_fig (Some valid_lens_fig) false 2 2 3 4 4 4 4).
  1-4: lia.
  1-3: split; reflexivity.
  - left. split; reflexivity.
  - apply dense_is_dense_layer; [reflexivity|lia].
  - apply dense_is_dense_layer; [reflexivity|lia].
  - apply dense_is_dense_layer; [reflexivity|lia].
  - apply batched_shapes. exact masked_dot_pool_shapes.
Defined.

(** X7 on the same inputs, with two heads. *)
Lemma MultiHeadAttention_call_weights_witness :
  exists out A,
    MultiHeadAttention_call 2 (dense Wq_fig) (dense Wk_fig) (dense Wv_fig) (dense Wo_fig)
      (batched masked_dot_pool) queries_fig keys_fig keys_fig (Some valid_lens_fig) false
    = Ok (out, A)
    /\ has_shape A [2 * 2; 2; 3].
Proof.
  apply (MultiHeadAttention_call_weights 2 (dense Wq_fig) (dense Wk_fig) (dense Wv_fig)
           (dense Wo_fig) (batched masked_dot_pool)
           queries_fig keys_fig keys_fig (Some valid_lens_fig) false 2 2 3 4);
    try lia; try (split; reflexivity).
  - exists 2. reflexivity.
  - left. split; reflexivity.
  - apply dense_is_dense_layer; [reflexivity|lia].
  - apply dense_is_dense_layer; [reflexivity|lia].
  - apply dense_is_dense_layer; [reflexivity|lia].
  - apply dense_is_dense_layer; [reflexivity|lia].
  - apply batched_shapes. exact masked_dot_pool_shapes.
Defined.

(** X8: 4 features and 3 heads. *)
Lemma MultiHeadAttention_call_indivisible_witness :
  MultiHeadAttention_call 3 (dense Wq_fig) (dense Wk_fig) (dense Wv_fig) (dense Wo_fig)
    (batched masked_dot_pool) queries_fig keys_fig keys_fig (Some valid_lens_fig) false
  = Err (Raised JnpReshape).
Proof.
  apply (MultiHeadAttention_call_indivisible 3 (dense Wq_fig) (dense Wk_fig)
           (dense Wv_fig) (dense Wo_fig) (batched masked_dot_pool)
           queries_fig keys_fig keys_fig (Some valid_lens_fig) false 2 2 4 4).
  - split; reflexivity.
  - apply dense_is_dense_layer; [reflexivity|lia].
  - intros [z Hz]. lia.
Defined.

(** X9 on the input of the figure and a kernel given as a 3 x 2 matrix. *)
Lemma corr2d_multi_in_out_1x1_pixelwise_witness :
  exists Y, corr2d_multi_in_out_1x1 X_fig K_matrix = Ok Y /\ has_shape Y [3; 3; 3]
    /\ forall o i j, o < 3 -> i < 3 -> j < 3 ->
         at3 Y 3 3 o i j
         = sum (tabulate 2 (fun c => mul (get K_matrix (o * 2 + c)) (at3 X_fig 3 3 c i j))).
Proof.
  apply (corr2d_multi_in_out_1x1_pixelwise X_fig K_matrix 2 3 3 3 [2]).
  - split; reflexivity.
  - split; reflexivity.
  - reflexivity.
Defined.

(** X10 on the three kernels that the notebook stacks. *)
Lemma corr2d_multi_in_out_of_stack_witness :
  (K <- tf_stack [K_fig; K_fig_plus1; K_fig_plus2] ;; corr2d_multi_in_out X_fig K)
  = (ys <- mapM (fun k => corr2d_multi_in X_fig k) [K_fig; K_fig_plus1; K_fig_plus2] ;;
     tf_stack ys).
Proof.
  apply (corr2d_multi_in_out_of_stack X_fig [K_fig; K_fig_plus1; K_fig_plus2] [2; 2; 2]).
  intros k [<- | [<- | [<- | []]]]; split; reflexivity.
Defined.

(** X11 on one channel of the figure. *)
Lemma corr2d_multi_in_one_channel_witness :
  corr2d_multi_in X1_fig K11_fig
  = corr2d (item X1_fig [3; 3] 0) (item K11_fig [2; 2] 0).
Proof.
  apply (corr2d_multi_in_one_channel X1_fig K11_fig 3 3 2 2); split; reflexivity.
Defined.

(** X12: kernels of height 5 and of height 4 on the input of the figure,
    of height 3. *)
Lemma corr2d_kernel_too_large_witness :
  corr2d_multi_in X_fig K_tall = Err (Raised TfZeros)
  /\ corr2d_multi_in X_fig K_edge = Ok (mkT [0; 3 + 1 - 2] [])
  /\ corr2d_multi_in_out X_fig K4_tall = Err (Raised TfZeros).
Proof.
  destruct (corr2d_kernel_too_large X_fig K_tall K4_tall 2 2 1 3 3 5 2
              ltac:(split; reflexivity) ltac:(simpl; lia)) as [H1 H2].
  destruct (corr2d_kernel_too_large X_fig K_edge K4_tall 2 2 1 3 3 4 2
              ltac:(split; reflexivity) ltac:(simpl; lia)) as [H3 _].
  split; [|split].
  - apply (proj1 (H1 ltac:(split; reflexivity))). lia.
  - apply (proj1 (proj2 (H3 ltac:(split; reflexivity)))); lia.
  - apply H2; [split; reflexivity | lia | lia].
Defined.

(** X13 on an input without channels. *)
Lemma corr2d_without_channels_witness :
  corr2d_multi_in X_none K_fig = Ok (mkT [] [zero])
  /\ corr2d_multi_in_out X_none K4_fig = Ok (mkT [3] (repeat zero 3)).
Proof.
  destruct (corr2d_without_channels X_none K_fig K4_fig 0 2 3 3 3 2 2
              ltac:(split; reflexivity) ltac:(reflexivity)) as [H1 H2].
  split; [apply H1 | apply H2]; split; reflexivity.
Defined.

(** X14 on two input channels against a kernel with three. *)
Lemma channel_mismatch_diverges_witness :
  corr2d_multi_in_out_1x1 X_fig K23_fig = Err (Raised TfReshape)
  /\ exists Y, corr2d_multi_in_out X_fig K23_fig = Ok Y
               /\ has_shape Y (if Nat.min 2 3 =? 0 then [2] else [2; 3; 3]).
Proof.
  apply (channel_mismatch_diverges X_fig K23_fig 2 3 2 3 3);
    try (split; reflexivity); lia.
Defined.

(** X15 on two input channels against a 1x1 kernel with three. *)
Lemma corr2d_multi_in_out_direct_witness :
  exists Y, corr2d_multi_in_out X_fig K23_fig = Ok Y
    /\ has_shape Y [2; 3 - 1 + 1; 3 - 1 + 1]
    /\ forall o i j, o < 2 -> i < 3 - 1 + 1 -> j < 3 - 1 + 1 ->
         at3 Y (3 - 1 + 1) (3 - 1 + 1) o i j
         = sum (tabulate (Nat.min 2 3) (fun c =>
             sum (tabulate 1 (fun a =>
               sum (tabulate 1 (fun b =>
                 mul (at3 X_fig 3 3 c (i + a) (j + b))
                     (get K23_fig (((o * 3 + c) * 1 + a) * 1 + b)))))))).
Proof.
  apply (corr2d_multi_in_out_direct X_fig K23_fig 2 3 2 3 3 1 1).
  - split; reflexivity.
  - split; reflexivity.
  - simpl. lia.
  - lia.
  - lia.
  - lia.
Defined.

(** X16 on one channel of the figure and on the 3D kernel of the figure. *)
Lemma corr2d_missing_channel_axis_witness :
  corr2d_multi_in X_matrix K_flat = Err (Raised PyUnpack)
  /\ corr2d_multi_in_out X_fig K_fig = Err (Raised PyUnpack).
Proof.
  destruct (corr2d_missing_channel_axis X_matrix K_flat K_fig 2 2 3 3 2 2) as [H1 _].
  destruct (corr2d_missing_channel_axis X_fig K_flat K_fig 2 2 3 3 2 2) as [_ H2].
  split.
  - apply H1; try lia; split; reflexivity.
  - apply H2; try lia; split; reflexivity.
Defined.
